(** * Cold_Caller / RealTime_Gemini_Agent: a shallow embedding

    The development follows the source files of the repository:
    - [SearchResults]  src/components/search-results/SearchResults.tsx
    - [Altair]         the Altair component: the session configuration it
                       sets and its [toolcall] listener
    - [EmailServer]    server/index.js

    The streaming engine the interface description is about (codec,
    connection manager) is not among the source files; [JsonText],
    [Base64], [ProtocolCodec] and [Session] model it from that description,
    and [ToolDeclarations] the imported lib/tool-declarations.

    JavaScript numbers that hold indices, counts and times are modelled as
    [Z], strings as [string], arrays as [list], [undefined] as [None].
    Definitions come first, properties after them. *)

From Stdlib Require Import ZArith List String Ascii Bool Lia Permutation Sorted.
From Stdlib Require DecimalPos DecimalZ DecimalFacts.
Import ListNotations.

Local Open Scope Z_scope.

Set Warnings "-register-all".

(** ** Array.prototype.slice and Math.ceil *)

Module JS.

(** [l.slice(start, stop)]: a negative index counts from the end, both
    indices are clamped to [0, length]. *)
Definition slice {A : Type} (l : list A) (start stop : Z) : list A :=
  let len := Z.of_nat (List.length l) in
  let k := if start <? 0 then Z.max (len + start) 0 else Z.min start len in
  let final := if stop <? 0 then Z.max (len + stop) 0 else Z.min stop len in
  firstn (Z.to_nat (final - k)) (skipn (Z.to_nat k) l).

(** [Math.ceil(a / b)] on integers [a] and [b > 0]: the quotient is taken
    exactly and rounded up. *)
Definition ceil_div (a b : Z) : Z := - ((- a) / b).

End JS.

(** ** SearchResults.tsx *)

Module SearchResults.

Record SearchResult := {
  title : string;
  snippet : string;
  url : string;
  thumbnail : option string
}.

Definition resultsPerPage : Z := 5.

Definition paginatedResults (results : list SearchResult) (page : Z)
  : list SearchResult :=
  JS.slice results (page * resultsPerPage) ((page + 1) * resultsPerPage).

Definition totalPages (results : list SearchResult) : Z :=
  JS.ceil_div (Z.of_nat (List.length results)) resultsPerPage.

(** What the component returns: the result items and, when
    [totalPages > 1], the pagination bar.  A button is its [disabled]
    attribute and the updater its [onClick] passes to [setPage]. *)
Record Button := { onClick : Z -> Z; disabled : bool }.

Record Pagination := {
  previous : Button;
  label : Z * Z;
  next : Button
}.

Record View := {
  items : list SearchResult;
  pagination : option Pagination
}.

Definition render (results : list SearchResult) (page : Z) : View :=
  {| items := paginatedResults results page;
     pagination :=
       if 1 <? totalPages results then
         Some {| previous := {| onClick := fun p => Z.max 0 (p - 1);
                                disabled := page =? 0 |};
                 label := (page + 1, totalPages results);
                 next := {| onClick :=
                              fun p => Z.min (totalPages results - 1) (p + 1);
                            disabled := page =? totalPages results - 1 |} |}
       else None |}.

Inductive Click := Previous | Next.

(** A click reaches [setPage] only through a button that is in the
    rendered tree and is not disabled. *)
Definition click (results : list SearchResult) (page : Z) (c : Click) : Z :=
  match pagination (render results page) with
  | None => page
  | Some bar =>
      let b := match c with Previous => previous bar | Next => next bar end in
      if disabled b then page else onClick b page
  end.

(** [useState(0)] followed by a sequence of clicks. *)
Definition run (results : list SearchResult) (clicks : list Click) : Z :=
  fold_left (click results) clicks 0.

End SearchResults.

(** ** Structured values *)

Module Json.

(** A number as JSON writes it: [mantissa] times ten to the [exponent]
    (0.7 is 7 with exponent -1). *)
Record number := { mantissa : Z; exponent : Z }.

Definition integer (z : Z) : number := {| mantissa := z; exponent := 0 |}.

(** The values JSON.parse produces. *)
Inductive json :=
| JNull
| JBool (b : bool)
| JNumber (n : number)
| JString (s : string)
| JArray (elements : list json)
| JObject (members : list (string * json)).

(** [o[key]] on the member list of an object; [None] is [undefined]. *)
Fixpoint get (key : string) (members : list (string * json)) : option json :=
  match members with
  | [] => None
  | (k, v) :: rest => if String.eqb k key then Some v else get key rest
  end.

End Json.

(** ** The Altair component: session configuration and tool calls *)

Module Altair.
Import Json.

Local Open Scope string_scope.

(** *** Types of @google/generative-ai and multimodal-live-types used here *)

Inductive SchemaType := STRING | NUMBER | INTEGER | BOOLEAN | ARRAY | OBJECT.

Record Schema := {
  schema_type : SchemaType;
  schema_description : option string
}.

Record FunctionDeclarationSchema := {
  type : SchemaType;
  properties : list (string * Schema);
  required : option (list string)
}.

Record FunctionDeclaration := {
  name : string;
  description : option string;
  parameters : option FunctionDeclarationSchema
}.

Inductive Tool :=
| googleSearch
| codeExecution
| functionDeclarations (declarations : list FunctionDeclaration).

(** A decimal literal [digits * 10^(-scale)], as written in the source. *)
Record Decimal := { digits : Z; scale : nat }.

Record GenerationConfig := {
  temperature : option Decimal;
  topK : option Z;
  topP : option Decimal;
  maxOutputTokens : option Z
}.

Record Part := { text : string }.
Record Content := { parts : list Part }.

Record LiveConfig := {
  model : string;
  generationConfig : option GenerationConfig;
  systemInstruction : option Content;
  tools : list Tool
}.

Record LiveFunctionCall := {
  fc_name : string;
  fc_args : list (string * json);
  fc_id : string
}.

Record ToolCall := { functionCalls : list LiveFunctionCall }.

Record LiveFunctionResponse := {
  response : json;
  id : string
}.

Record ToolResponse := { functionResponses : list LiveFunctionResponse }.

(** *** Lines 95-109 *)

Definition declaration : FunctionDeclaration :=
  {| name := "render_altair";
     description := Some "Displays an altair graph in json format.";
     parameters :=
       Some {| type := OBJECT;
               properties :=
                 [("json_graph",
                   {| schema_type := STRING;
                      schema_description :=
                        Some "JSON STRING representation of the graph to render. Must be a string, not a json object" |})];
               required := Some ["json_graph"] |} |}.

Definition system_text : string :=
  "I am an advanced AI model created by Critical Future, a leading technology company specializing in cutting-edge AI solutions. 
  
  I excel in data visualization and analytics, leveraging my expertise in Altair/Vega-Lite charts to create insightful visual representations of data.
  
  As a Critical Future AI, I prioritize:
  - Innovation in data presentation
  - Clear communication through visuals
  - Professional-grade visualizations
  - Data-driven insights
  - User-centric design principles
  
  When creating visualizations, I:
  - Use clear, descriptive titles and labels
  - Apply Critical Future's professional color schemes
  - Include interactive elements for deeper data exploration
  - Provide meaningful axis labels and legends
  - Generate representative sample data when needed
  - Always utilize the render_altair function
  - Handle edge cases and null values professionally
  
  If any visualization encounters issues, I provide constructive solutions and alternatives, maintaining Critical Future's commitment to excellence in AI services.
  Additionally, I have access to the send_email tool which allows me to send emails by specifying the recipient, subject, body, and sender.".

(** *** Lines 115-157: the object passed to [setConfig].
    [sendEmailDeclaration] is imported from lib/tool-declarations and is a
    parameter here. *)
Definition config (sendEmailDeclaration : FunctionDeclaration) : LiveConfig :=
  {| model := "models/gemini-2.0-flash-exp";
     generationConfig :=
       Some {| temperature := Some {| digits := 7; scale := 1 |};
               topK := Some 40;
               topP := Some {| digits := 95; scale := 2 |};
               maxOutputTokens := Some 2048 |};
     systemInstruction := Some {| parts := [ {| text := system_text |} ] |};
     tools := [ googleSearch;
                functionDeclarations [declaration; sendEmailDeclaration] ] |}.

(** *** The world the component runs in

    [setTimeout] callbacks are kept with the time they fall due; the
    callback of line 173 closes over the [toolCall] it will answer. *)
Record Timer := { due : Z; captured : ToolCall }.

Inductive ConsoleLine := got_toolcall (toolCall : ToolCall).

Record World := {
  now : Z;
  timers : list Timer;
  live_config : option LiveConfig;
  jsonString : option json;
  setJSONString_calls : list (option json);
  console : list ConsoleLine;
  sent : list ToolResponse
}.

(** [useState<string>("")], nothing configured, scheduled or sent. *)
Definition initial : World :=
  {| now := 0; timers := []; live_config := None;
     jsonString := Some (JString ""); setJSONString_calls := [];
     console := []; sent := [] |}.

Definition setConfig (c : LiveConfig) (w : World) : World :=
  {| now := now w; timers := timers w; live_config := Some c;
     jsonString := jsonString w;
     setJSONString_calls := setJSONString_calls w;
     console := console w; sent := sent w |}.

Definition setJSONString (v : option json) (w : World) : World :=
  {| now := now w; timers := timers w; live_config := live_config w;
     jsonString := v;
     setJSONString_calls := setJSONString_calls w ++ [v];
     console := console w; sent := sent w |}.

Definition console_log (l : ConsoleLine) (w : World) : World :=
  {| now := now w; timers := timers w; live_config := live_config w;
     jsonString := jsonString w;
     setJSONString_calls := setJSONString_calls w;
     console := console w ++ [l]; sent := sent w |}.

Definition setTimeout (toolCall : ToolCall) (delay : Z) (w : World) : World :=
  {| now := now w;
     timers := timers w ++ [ {| due := now w + delay; captured := toolCall |} ];
     live_config := live_config w; jsonString := jsonString w;
     setJSONString_calls := setJSONString_calls w;
     console := console w; sent := sent w |}.

(** [client.sendToolResponse]: the message leaves through the client. *)
Definition sendToolResponse (m : ToolResponse) (w : World) : World :=
  {| now := now w; timers := timers w; live_config := live_config w;
     jsonString := jsonString w;
     setJSONString_calls := setJSONString_calls w;
     console := console w; sent := sent w ++ [m] |}.

(** The first effect (lines 115-157). *)
Definition mount (sendEmailDeclaration : FunctionDeclaration) (w : World)
  : World :=
  setConfig (config sendEmailDeclaration) w.

(** Lines 174-179: the body of the timeout callback. *)
Definition success : json := JObject [("output", JObject [("success", JBool true)])].

Definition answer (toolCall : ToolCall) : ToolResponse :=
  {| functionResponses :=
       map (fun fc => {| response := success; id := fc_id fc |})
           (functionCalls toolCall) |}.

Definition fire (t : Timer) (w : World) : World :=
  sendToolResponse (answer (captured t)) w.

(** Lines 160-183. *)
Definition onToolCall (toolCall : ToolCall) (w : World) : World :=
  let w := console_log (got_toolcall toolCall) w in
  let w :=
    match find (fun fc => String.eqb (fc_name fc) (name declaration))
               (functionCalls toolCall) with
    | Some fc => setJSONString (get "json_graph" (fc_args fc)) w
    | None => w
    end in
  if (List.length (functionCalls toolCall) =? 0)%nat then w
  else setTimeout toolCall 200 w.

(** The event loop lets [ms] milliseconds pass and runs the callbacks that
    have fallen due, oldest first. *)
Definition elapse (ms : N) (w : World) : World :=
  let t := now w + Z.of_N ms in
  let ready := filter (fun tm => (due tm <=? t)%Z) (timers w) in
  let waiting := filter (fun tm => (t <? due tm)%Z) (timers w) in
  fold_left (fun w tm => fire tm w) ready
    {| now := t; timers := waiting; live_config := live_config w;
       jsonString := jsonString w;
       setJSONString_calls := setJSONString_calls w;
       console := console w; sent := sent w |}.

Inductive Event :=
| Toolcall (toolCall : ToolCall)
| Elapse (ms : N).

Definition step (w : World) (e : Event) : World :=
  match e with
  | Toolcall toolCall => onToolCall toolCall w
  | Elapse ms => elapse ms w
  end.

Definition run (events : list Event) (w : World) : World :=
  fold_left step events w.

(** *** What a trace shows from outside *)

(** Ids of the calls delivered by a trace, in order of arrival. *)
Definition observed (events : list Event) : list string :=
  flat_map (fun e => match e with
                     | Toolcall tc => map fc_id (functionCalls tc)
                     | Elapse _ => []
                     end) events.

(** Ids of the responses sent so far, in order of sending. *)
Definition answered (w : World) : list string :=
  flat_map (fun m => map id (functionResponses m)) (sent w).

Definition all_responses (w : World) : list LiveFunctionResponse :=
  flat_map functionResponses (sent w).

(** Ids the pending callbacks will answer. *)
Definition pending (w : World) : list string :=
  flat_map (fun tm => map fc_id (functionCalls (captured tm))) (timers w).

(** The callback a delivered batch leaves behind when the clock reads [t]. *)
Definition scheduled_by (toolCall : ToolCall) (t : Z) : list Timer :=
  if (List.length (functionCalls toolCall) =? 0)%nat then []
  else [ {| due := t + 200; captured := toolCall |} ].

(** All callbacks a trace schedules, with the clock starting at [t]. *)
Fixpoint schedule (events : list Event) (t : Z) : list Timer :=
  match events with
  | [] => []
  | Toolcall tc :: rest => scheduled_by tc t ++ schedule rest t
  | Elapse ms :: rest => schedule rest (t + Z.of_N ms)
  end.

(** Milliseconds that pass during a trace. *)
Fixpoint elapsed (events : list Event) : Z :=
  match events with
  | [] => 0
  | Toolcall _ :: rest => elapsed rest
  | Elapse ms :: rest => Z.of_N ms + elapsed rest
  end.

(** Callbacks that have fallen due at time [t], and those that have not. *)
Definition ready_at (t : Z) (tm : Timer) : bool := (due tm <=? t)%Z.
Definition waiting_at (t : Z) (tm : Timer) : bool := (t <? due tm)%Z.
Definition response_to (tm : Timer) : ToolResponse := answer (captured tm).

(** Every pending callback is still in the future. *)
Definition all_waiting (w : World) : Prop :=
  forall tm, In tm (timers w) -> (now w < due tm)%Z.

(** *** Reading the records against the interface description

    A response payload is an error result when it has an [error] member
    (the data model has {id, result | error}). *)
Definition is_error_result (r : LiveFunctionResponse) : bool :=
  match response r with
  | JObject members =>
      match get "error" members with Some _ => true | None => false end
  | _ => false
  end.

(** {name, description, parameters: {type: "object", properties, required}} *)
Definition has_declared_shape (d : FunctionDeclaration) : bool :=
  match description d, parameters d with
  | Some _, Some ps =>
      match type ps, required ps with
      | OBJECT, Some _ => true
      | _, _ => false
      end
  | _, _ => false
  end.

Definition declared_functions (c : LiveConfig) : list FunctionDeclaration :=
  flat_map (fun t => match t with
                     | functionDeclarations ds => ds
                     | _ => []
                     end) (tools c).

(** The call [onToolCall] hands to the chart, if any. *)
Definition handled_call (toolCall : ToolCall) : option LiveFunctionCall :=
  find (fun fc => String.eqb (fc_name fc) (name declaration))
       (functionCalls toolCall).

End Altair.

(** ** lib/tool-declarations *)

Module ToolDeclarations.

Local Open Scope string_scope.

(** Modelled from the spec: [sendEmailDeclaration] is imported from
    lib/tool-declarations, which is not among the source files.  It is
    written after the tool declaration schema of the interface description,
    {name, description, parameters: {type: "object", properties, required}},
    for the tool the system instruction of line 148 names: [send_email],
    which sends "emails by specifying the recipient, subject, body, and
    sender".  These are the four fields the mail endpoint of
    server/index.js reads, of which the sender is optional. *)
Definition sendEmailDeclaration : Altair.FunctionDeclaration :=
  {| Altair.name := "send_email";
     Altair.description :=
       Some "Sends an email by specifying the recipient, subject, body, and sender";
     Altair.parameters :=
       Some {| Altair.type := Altair.OBJECT;
               Altair.properties :=
                 map (fun k => (k, {| Altair.schema_type := Altair.STRING;
                                      Altair.schema_description := None |}))
                     ["to"; "subject"; "body"; "from"];
               Altair.required := Some ["to"; "subject"; "body"] |} |}.

End ToolDeclarations.

(** ** server/index.js *)

Module EmailServer.

Local Open Scope string_scope.

(** [String.prototype.includes]: [sub] occurs somewhere in [s]. *)
Fixpoint includes (s sub : string) : bool :=
  String.prefix sub s ||
  match s with
  | EmptyString => false
  | String _ rest => includes rest sub
  end.

(** A field of the parsed JSON body is a string or is missing
    ([undefined] after destructuring).  The same type stands for an
    environment variable. *)
Definition field := option string.

(** JavaScript truthiness of such a value: [undefined] and the empty
    string are falsy. *)
Definition truthy (v : field) : bool :=
  match v with
  | Some s => negb (s =? "")
  | None => false
  end.

(** [a || b] *)
Definition js_or (a b : field) : field := if truthy a then a else b.

Record ProcessEnv := {
  EMAIL_USER : field;
  EMAIL_PASS : field
}.

Record RequestBody := {
  to : field;
  subject : field;
  body : field;
  from : field
}.

Record MailOptions := {
  mail_from : field;
  mail_to : field;
  mail_subject : field;
  mail_text : field;
  mail_html : string
}.

(** The promise of [transporter.sendMail]: it resolves, rejects, or is
    still pending. *)
Record Info := { info_response : string }.
Record Error := { error_message : string }.
Inductive Promise :=
| Resolved (info : Info)
| Rejected (error : Error)
| Pending.

Inductive Json :=
| SuccessBody (message : string) (info : Info)
| FailureBody (error : string) (details : string).

Record Response := { status : Z; json : Json }.

Inductive Completion := Returned | Threw | Awaiting.

(** Everything one invocation of the route handler does. *)
Inductive ConsoleLine :=
| console_log (line : string)
| console_error (label : string) (error : Error).

Record Run := {
  handed_to_sendMail : list MailOptions;
  console : list ConsoleLine;
  response : option Response;
  completion : Completion
}.

(** Lines 29-35.  [body.includes] is evaluated while the object literal is
    built, so a missing [body] raises a TypeError there. *)
Definition mailOptions (env : ProcessEnv) (req : RequestBody)
  : option MailOptions :=
  match body req with
  | None => None
  | Some b =>
      Some {| mail_from := js_or (from req) (EMAIL_USER env);
              mail_to := to req;
              mail_subject := subject req;
              mail_text := Some b;
              mail_html := if includes b "<html" then b
                           else "<p>" ++ b ++ "</p>" |}
  end.

(** [app.post('/api/sendEmail', ...)], lines 26-45. *)
Definition sendEmail (env : ProcessEnv) (sendMail : MailOptions -> Promise)
    (req : RequestBody) : Run :=
  match mailOptions env req with
  | None =>
      {| handed_to_sendMail := []; console := []; response := None;
         completion := Threw |}
  | Some opts =>
      match sendMail opts with
      | Resolved info =>
          {| handed_to_sendMail := [opts];
             console := [console_log ("Email sent: " ++ info_response info)];
             response :=
               Some {| status := 200;
                       json := SuccessBody "Email sent successfully" info |};
             completion := Returned |}
      | Rejected error =>
          {| handed_to_sendMail := [opts];
             console := [console_error "Error sending email:" error];
             response :=
               Some {| status := 500;
                       json := FailureBody "Failed to send email"
                                 (error_message error) |};
             completion := Returned |}
      | Pending =>
          {| handed_to_sendMail := [opts]; console := []; response := None;
             completion := Awaiting |}
      end
  end.

(** "[s] contains the substring [sub]", stated without the search. *)
Definition contains_substring (s sub : string) : Prop :=
  exists before after, s = before ++ sub ++ after.

End EmailServer.

(** ** ProtocolCodec: the text form of structured values *)

Module JsonText.
Import Json.

Local Open Scope char_scope.

Abbreviation text := (list ascii) (only parsing).

(** The double quote, character 34. *)
Definition dquote : ascii :=
  Ascii false true false false false true false false.

(** *** White space between tokens *)

Definition is_space (c : ascii) : bool :=
  Ascii.eqb c " " || Ascii.eqb c "009" || Ascii.eqb c "010" ||
  Ascii.eqb c "013".

Fixpoint skip_space (l : text) : text :=
  match l with
  | [] => []
  | c :: r => if is_space c then skip_space r else l
  end.

(** *** Numbers: sign, digits, and optionally a fraction and an exponent *)

Definition digit_of_char (c : ascii) : option (Decimal.uint -> Decimal.uint) :=
  match c with
  | "0" => Some Decimal.D0 | "1" => Some Decimal.D1 | "2" => Some Decimal.D2
  | "3" => Some Decimal.D3 | "4" => Some Decimal.D4 | "5" => Some Decimal.D5
  | "6" => Some Decimal.D6 | "7" => Some Decimal.D7 | "8" => Some Decimal.D8
  | "9" => Some Decimal.D9
  | _ => None
  end.

Fixpoint print_uint (u : Decimal.uint) : text :=
  match u with
  | Decimal.Nil => []
  | Decimal.D0 u => "0" :: print_uint u | Decimal.D1 u => "1" :: print_uint u
  | Decimal.D2 u => "2" :: print_uint u | Decimal.D3 u => "3" :: print_uint u
  | Decimal.D4 u => "4" :: print_uint u | Decimal.D5 u => "5" :: print_uint u
  | Decimal.D6 u => "6" :: print_uint u | Decimal.D7 u => "7" :: print_uint u
  | Decimal.D8 u => "8" :: print_uint u | Decimal.D9 u => "9" :: print_uint u
  end.

Fixpoint read_uint (l : text) : Decimal.uint * text :=
  match l with
  | [] => (Decimal.Nil, [])
  | c :: r =>
      match digit_of_char c with
      | Some d => let (u, rest) := read_uint r in (d u, rest)
      | None => (Decimal.Nil, l)
      end
  end.

(** An integer: an optional minus sign and decimal digits. *)
Definition print_integer (z : Z) : text :=
  match Z.to_int z with
  | Decimal.Pos u => print_uint u
  | Decimal.Neg u => "-" :: print_uint u
  end.

Definition read_digits (sign : Decimal.uint -> Decimal.int) (l : text)
  : option (Z * text) :=
  let (u, rest) := read_uint l in
  match u with
  | Decimal.Nil => None
  | _ => Some (Z.of_int (sign u), rest)
  end.

Definition parse_integer (l : text) : option (Z * text) :=
  match l with
  | "-" :: r => read_digits Decimal.Neg r
  | _ => read_digits Decimal.Pos l
  end.

(** A number is written as its mantissa, followed by [e] and the exponent
    when the exponent is not zero: 0.7 is written [7e-1]. *)
Definition print_number (n : number) : text :=
  print_integer (mantissa n) ++
  (if (exponent n =? 0)%Z then [] else "e" :: print_integer (exponent n)).

(** The digits after a decimal point, if there is one. *)
Definition parse_fraction (l : text) : option (Decimal.uint * text) :=
  match l with
  | "." :: r =>
      let (f, rest) := read_uint r in
      match f with
      | Decimal.Nil => None
      | _ => Some (f, rest)
      end
  | _ => Some (Decimal.Nil, l)
  end.

Definition is_exponent_mark (c : ascii) : bool :=
  Ascii.eqb c "e" || Ascii.eqb c "E".

Definition parse_signed (l : text) : option (Z * text) :=
  match l with
  | "+" :: r => read_digits Decimal.Pos r
  | _ => parse_integer l
  end.

(** The exponent after [e] or [E], if there is one. *)
Definition parse_exponent (l : text) : option (Z * text) :=
  match l with
  | c :: r => if is_exponent_mark c then parse_signed r else Some (0%Z, l)
  | [] => Some (0%Z, l)
  end.

(** Reads any JSON number: [-12], [0.7], [1.5e3], [7e-1].  The digits of
    the fraction join the mantissa and lower the exponent by their
    number. *)
Definition parse_number (l : text) : option (number * text) :=
  let (sign, l0) := match l with
                    | "-" :: r => (Decimal.Neg, r)
                    | _ => (Decimal.Pos, l)
                    end in
  let (whole, l1) := read_uint l0 in
  match whole with
  | Decimal.Nil => None
  | _ =>
      match parse_fraction l1 with
      | None => None
      | Some (frac, l2) =>
          match parse_exponent l2 with
          | None => None
          | Some (e, l3) =>
              Some ({| mantissa := Z.of_int (sign (Decimal.app whole frac));
                       exponent := (e - Z.of_nat (Decimal.nb_digits frac))%Z |},
                    l3)
          end
      end
  end.

(** *** Strings: quoted; the quote, the backslash and the control
    characters are escaped

    A string is a sequence of bytes, UTF-8 for text; bytes above 127
    travel as they are. *)

Definition hex_digits : text := list_ascii_of_string "0123456789abcdef".

Definition nibble (b3 b2 b1 b0 : bool) : nat :=
  ((if b3 then 8 else 0) + (if b2 then 4 else 0) +
   (if b1 then 2 else 0) + (if b0 then 1 else 0))%nat.

Definition hex_digit (b3 b2 b1 b0 : bool) : ascii :=
  nth (nibble b3 b2 b1 b0) hex_digits "0".

(** Where [c] stands in [l], counting from 0. *)
Fixpoint position (c : ascii) (l : text) : option N :=
  match l with
  | [] => None
  | d :: r =>
      if Ascii.eqb c d then Some 0%N else option_map N.succ (position c r)
  end.

(** The value of a hexadecimal digit, in either case. *)
Definition hex_value (c : ascii) : option N :=
  match position c hex_digits with
  | Some n => Some n
  | None => position c (list_ascii_of_string "0123456789ABCDEF")
  end.

Definition is_control (c : ascii) : bool := (N_of_ascii c <? 32)%N.

Definition escape_char (c : ascii) : text :=
  if Ascii.eqb c dquote then ["\"; dquote]
  else if Ascii.eqb c "\" then ["\"; "\"]
  else if is_control c then
    let '(Ascii b0 b1 b2 b3 b4 b5 b6 b7) := c in
    ["\"; "u"; "0"; "0"; hex_digit b7 b6 b5 b4; hex_digit b3 b2 b1 b0]
  else [c].

Definition escape (l : text) : text := flat_map escape_char l.

Definition print_string (s : string) : text :=
  dquote :: escape (list_ascii_of_string s) ++ [dquote].

(** The character a backslash and one letter stand for. *)
Definition simple_escape (d : ascii) : option ascii :=
  if Ascii.eqb d dquote then Some dquote
  else match d with
       | "\" => Some "\" | "/" => Some "/"
       | "b" => Some "008" | "f" => Some "012" | "n" => Some "010"
       | "r" => Some "013" | "t" => Some "009"
       | _ => None
       end.

(** The number the four hexadecimal digits of [\uXXXX] write. *)
Definition code_unit (h1 h2 h3 h4 : ascii) : option N :=
  match hex_value h1, hex_value h2, hex_value h3, hex_value h4 with
  | Some a, Some b, Some c, Some d => Some (4096 * a + 256 * b + 16 * c + d)%N
  | _, _, _, _ => None
  end.

Definition is_high_surrogate (u : N) : bool :=
  ((55296 <=? u) && (u <? 56320))%N.

Definition is_low_surrogate (u : N) : bool :=
  ((56320 <=? u) && (u <? 57344))%N.

(** The UTF-8 bytes of a code point. *)
Definition utf8 (cp : N) : text :=
  (if cp <? 128 then [ascii_of_N cp]
   else if cp <? 2048 then
     [ascii_of_N (192 + cp / 64); ascii_of_N (128 + cp mod 64)]
   else if cp <? 65536 then
     [ascii_of_N (224 + cp / 4096); ascii_of_N (128 + (cp / 64) mod 64);
      ascii_of_N (128 + cp mod 64)]
   else
     [ascii_of_N (240 + cp / 262144); ascii_of_N (128 + (cp / 4096) mod 64);
      ascii_of_N (128 + (cp / 64) mod 64); ascii_of_N (128 + cp mod 64)])%N.

Definition prepend (bytes : text) (r : option (text * text))
  : option (text * text) :=
  match r with
  | Some (body, rest) => Some (bytes ++ body, rest)
  | None => None
  end.

(** Reads up to the closing quote; the opening quote is already consumed.
    A raw control character is refused, and so is a surrogate that is not
    half of a pair. *)
Fixpoint unescape (l : text) : option (text * text) :=
  match l with
  | [] => None
  | c :: r =>
      if Ascii.eqb c dquote then Some ([], r)
      else if Ascii.eqb c "\" then
        match r with
        | "u" :: h1 :: h2 :: h3 :: h4 :: r' =>
            match code_unit h1 h2 h3 h4 with
            | None => None
            | Some u =>
                if is_high_surrogate u then
                  match r' with
                  | "\" :: "u" :: l1 :: l2 :: l3 :: l4 :: r'' =>
                      match code_unit l1 l2 l3 l4 with
                      | Some w =>
                          if is_low_surrogate w then
                            prepend
                              (utf8 (65536 + (u - 55296) * 1024
                                     + (w - 56320))%N)
                              (unescape r'')
                          else None
                      | None => None
                      end
                  | _ => None
                  end
                else if is_low_surrogate u then None
                else prepend (utf8 u) (unescape r')
            end
        | d :: r' =>
            match simple_escape d with
            | Some x => prepend [x] (unescape r')
            | None => None
            end
        | [] => None
        end
      else if is_control c then None
      else prepend [c] (unescape r)
  end.

Definition parse_string (l : text) : option (string * text) :=
  match l with
  | c :: r =>
      if Ascii.eqb c dquote then
        match unescape r with
        | Some (body, rest) => Some (string_of_list_ascii body, rest)
        | None => None
        end
      else None
  | [] => None
  end.

(** *** Values *)

(** Items with a comma between them. *)
Fixpoint separated (items : list text) : text :=
  match items with
  | [] => []
  | [x] => x
  | x :: rest => x ++ "," :: separated rest
  end.

(** Modelled from the spec: the byte form of a structured value.  The
    codec's serializer is not among the source files; the envelope is
    "JSON-compatible", so values are written as compact JSON text. *)
Fixpoint print (v : json) : text :=
  match v with
  | JNull => list_ascii_of_string "null"
  | JBool true => list_ascii_of_string "true"
  | JBool false => list_ascii_of_string "false"
  | JNumber n => print_number n
  | JString s => print_string s
  | JArray vs => "[" :: separated (map print vs) ++ ["]"]
  | JObject ms =>
      "{" :: separated (map (fun kv => let '(k, v) := kv in
                                       print_string k ++ ":" :: print v) ms)
          ++ ["}"]
  end.

(** [expect word l]: [l] without its prefix [word]. *)
Fixpoint expect (word l : text) : option text :=
  match word, l with
  | [], _ => Some l
  | w :: word', c :: l' => if Ascii.eqb w c then expect word' l' else None
  | _ :: _, [] => None
  end.

(** Modelled from the spec: the reader of JSON text, by recursive descent,
    with white space allowed between tokens; anything that is not the text
    of one value is rejected.  [fuel] bounds the number of values and list
    elements still to be read. *)
Fixpoint parse_value (fuel : nat) (l : text) {struct fuel}
  : option (json * text) :=
  match fuel with
  | O => None
  | S fuel =>
      match skip_space l with
      | [] => None
      | "n" :: r =>
          option_map (pair JNull) (expect (list_ascii_of_string "ull") r)
      | "t" :: r =>
          option_map (pair (JBool true))
                     (expect (list_ascii_of_string "rue") r)
      | "f" :: r =>
          option_map (pair (JBool false))
                     (expect (list_ascii_of_string "alse") r)
      | "[" :: r =>
          match skip_space r with
          | "]" :: rest => Some (JArray [], rest)
          | _ =>
              match parse_elements fuel r with
              | Some (vs, rest) => Some (JArray vs, rest)
              | None => None
              end
          end
      | "{" :: r =>
          match skip_space r with
          | "}" :: rest => Some (JObject [], rest)
          | _ =>
              match parse_members fuel r with
              | Some (ms, rest) => Some (JObject ms, rest)
              | None => None
              end
          end
      | c :: r =>
          match parse_string (c :: r) with
          | Some (s, rest) => Some (JString s, rest)
          | None =>
              match parse_number (c :: r) with
              | Some (n, rest) => Some (JNumber n, rest)
              | None => None
              end
          end
      end
  end

with parse_elements (fuel : nat) (l : text) {struct fuel}
  : option (list json * text) :=
  match fuel with
  | O => None
  | S fuel =>
      match parse_value fuel l with
      | Some (v, r) =>
          match skip_space r with
          | "," :: r' =>
              match parse_elements fuel r' with
              | Some (vs, rest) => Some (v :: vs, rest)
              | None => None
              end
          | "]" :: rest => Some ([v], rest)
          | _ => None
          end
      | None => None
      end
  end

with parse_members (fuel : nat) (l : text) {struct fuel}
  : option (list (string * json) * text) :=
  match fuel with
  | O => None
  | S fuel =>
      match parse_string (skip_space l) with
      | Some (k, r) =>
          match skip_space r with
          | ":" :: r1 =>
              match parse_value fuel r1 with
              | Some (v, r2) =>
                  match skip_space r2 with
                  | "," :: r' =>
                      match parse_members fuel r' with
                      | Some (ms, rest) => Some ((k, v) :: ms, rest)
                      | None => None
                      end
                  | "}" :: rest => Some ([(k, v)], rest)
                  | _ => None
                  end
              | None => None
              end
          | _ => None
          end
      | None => None
      end
  end.

(** A whole text is one value with nothing but white space after it. *)
Definition parse (l : text) : option json :=
  match parse_value (S (List.length l)) l with
  | Some (v, rest) =>
      match skip_space rest with
      | [] => Some v
      | _ => None
      end
  | None => None
  end.

(** Fuel that suffices to read a value back. *)
Fixpoint size (v : json) : nat :=
  match v with
  | JArray vs => S (list_sum (map (fun v => S (size v)) vs))
  | JObject ms => S (list_sum (map (fun kv => S (size (snd kv))) ms))
  | _ => 1
  end.

(** A number can be read back when the text after it does not go on as a
    number would: with a digit, a point or an exponent. *)
Definition ends_number (rest : text) : bool :=
  match rest with
  | [] => true
  | c :: _ =>
      match digit_of_char c with
      | Some _ => false
      | None => negb (Ascii.eqb c "." || is_exponent_mark c)
      end
  end.

(** A printed value starts with a character that opens that value. *)
Definition opens_value (c : ascii) : Prop :=
  c <> "]" /\ c <> "}" /\ c <> "," /\ c <> ":" /\ is_space c = false.

(** [v] is read back from its text, whatever follows it. *)
Definition reads_back (v : json) : Prop :=
  forall fuel rest,
    (size v <= fuel)%nat -> ends_number rest = true ->
    parse_value fuel (print v ++ rest) = Some (v, rest).

End JsonText.

(** ** ProtocolCodec: base64 for binary payloads *)

Module Base64.

Local Open Scope char_scope.

(** Binary payloads are "carried as a base64-safe encoded field": the
    standard alphabet with [=] padding.  A sextet is six bits, most
    significant first. *)
Definition sextet : Type := bool * bool * bool * bool * bool * bool.

Definition alphabet : list ascii :=
  list_ascii_of_string
    "ABCDEFGHIJKLMNOPQRSTUVWXYZabcdefghijklmnopqrstuvwxyz0123456789+/".

Definition bit (b : bool) (weight : nat) : nat := if b then weight else 0%nat.

Definition index_of_sextet (s : sextet) : nat :=
  let '(b5, b4, b3, b2, b1, b0) := s in
  (bit b5 32 + bit b4 16 + bit b3 8 + bit b2 4 + bit b1 2 + bit b0 1)%nat.

Definition sextet_of_index (n : nat) : sextet :=
  (Nat.testbit n 5, Nat.testbit n 4, Nat.testbit n 3,
   Nat.testbit n 2, Nat.testbit n 1, Nat.testbit n 0).

Definition char_of_sextet (s : sextet) : ascii :=
  nth (index_of_sextet s) alphabet "A".

Fixpoint position (c : ascii) (l : list ascii) : option nat :=
  match l with
  | [] => None
  | x :: rest =>
      if Ascii.eqb x c then Some 0%nat else option_map S (position c rest)
  end.

Definition sextet_of_char (c : ascii) : option sextet :=
  option_map sextet_of_index (position c alphabet).

(** Three octets are four sextets; an octet is [Ascii] with its least
    significant bit first. *)
Definition first_sextet (a : ascii) : sextet :=
  let '(Ascii a0 a1 a2 a3 a4 a5 a6 a7) := a in (a7, a6, a5, a4, a3, a2).

Definition second_sextet (a b : ascii) : sextet :=
  let '(Ascii a0 a1 _ _ _ _ _ _) := a in
  let '(Ascii _ _ _ _ b4 b5 b6 b7) := b in (a1, a0, b7, b6, b5, b4).

Definition third_sextet (b c : ascii) : sextet :=
  let '(Ascii b0 b1 b2 b3 _ _ _ _) := b in
  let '(Ascii _ _ _ _ _ _ c6 c7) := c in (b3, b2, b1, b0, c7, c6).

Definition fourth_sextet (c : ascii) : sextet :=
  let '(Ascii c0 c1 c2 c3 c4 c5 _ _) := c in (c5, c4, c3, c2, c1, c0).

Definition first_octet (s1 s2 : sextet) : ascii :=
  let '(a7, a6, a5, a4, a3, a2) := s1 in
  let '(a1, a0, _, _, _, _) := s2 in Ascii a0 a1 a2 a3 a4 a5 a6 a7.

Definition second_octet (s2 s3 : sextet) : ascii :=
  let '(_, _, b7, b6, b5, b4) := s2 in
  let '(b3, b2, b1, b0, _, _) := s3 in Ascii b0 b1 b2 b3 b4 b5 b6 b7.

Definition third_octet (s3 s4 : sextet) : ascii :=
  let '(_, _, _, _, c7, c6) := s3 in
  let '(c5, c4, c3, c2, c1, c0) := s4 in Ascii c0 c1 c2 c3 c4 c5 c6 c7.

Definition pad : ascii := "=".

(** Modelled from the spec: the base64 text of a binary payload. *)
Fixpoint encode (l : list ascii) : list ascii :=
  match l with
  | [] => []
  | [a] =>
      [char_of_sextet (first_sextet a);
       char_of_sextet (second_sextet a zero); pad; pad]
  | [a; b] =>
      [char_of_sextet (first_sextet a);
       char_of_sextet (second_sextet a b);
       char_of_sextet (third_sextet b zero); pad]
  | a :: b :: c :: rest =>
      char_of_sextet (first_sextet a) ::
      char_of_sextet (second_sextet a b) ::
      char_of_sextet (third_sextet b c) ::
      char_of_sextet (fourth_sextet c) :: encode rest
  end.

(** Modelled from the spec: the payload a base64 text stands for; text
    that is not base64 is rejected. *)
Fixpoint decode (l : list ascii) : option (list ascii) :=
  match l with
  | [] => Some []
  | c1 :: c2 :: c3 :: c4 :: rest =>
      match sextet_of_char c1, sextet_of_char c2 with
      | Some s1, Some s2 =>
          if Ascii.eqb c3 pad then
            if Ascii.eqb c4 pad then
              match rest with
              | [] => Some [first_octet s1 s2]
              | _ => None
              end
            else None
          else
            match sextet_of_char c3 with
            | Some s3 =>
                if Ascii.eqb c4 pad then
                  match rest with
                  | [] => Some [first_octet s1 s2; second_octet s2 s3]
                  | _ => None
                  end
                else
                  match sextet_of_char c4, decode rest with
                  | Some s4, Some tail =>
                      Some (first_octet s1 s2 :: second_octet s2 s3 ::
                            third_octet s3 s4 :: tail)
                  | _, _ => None
                  end
            | None => None
            end
      | _, _ => None
      end
  | _ => None
  end.

End Base64.

(** ** ProtocolCodec: wire messages *)

Module ProtocolCodec.
Import Json.

Local Open Scope string_scope.

(** Modelled from the spec: the ProtocolCodec of section 4.1 and the wire
    data model of section 3 are not among the source files.  A content
    part is a text or an opaque binary payload with its mime type; a chunk
    is raw encoded bytes with a mime tag (and a sample rate for audio). *)
Inductive Part :=
| TextPart (text : string)
| DataPart (mimeType : string) (data : list Byte.byte).

Inductive Chunk :=
| AudioChunk (data : list Byte.byte) (mimeType : string) (sampleRate : N)
| VideoChunk (data : list Byte.byte) (mimeType : string).

Record FunctionCall := {
  call_id : string;
  call_name : string;
  arguments : json
}.

Inductive ToolError := UnknownTool | ToolTimeout.

Inductive Outcome :=
| Result (value : json)
| Error (kind : ToolError).

Record FunctionResponse := {
  response_id : string;
  outcome : Outcome
}.

(** Modelled from the spec: the tagged union [WireMessage] of section 3;
    [Setup] carries the session configuration as a structured value. *)
Inductive WireMessage :=
| Setup (config : json)
| SetupComplete
| ClientContent (parts : list Part) (turnComplete : bool)
| RealtimeInput (chunks : list Chunk)
| ServerContent (parts : list Part) (turnComplete interrupted : bool)
| ToolCall (calls : list FunctionCall)
| ToolResponse (responses : list FunctionResponse).

Inductive DecodeError := Malformed.

Inductive Decoded :=
| Message (m : WireMessage)
| Failed (e : DecodeError).

(** *** To the envelope *)

(** Binary payloads travel as base64 text. *)
Definition binary_to_json (data : list Byte.byte) : json :=
  JString (string_of_list_ascii (Base64.encode (map ascii_of_byte data))).

Definition part_to_json (p : Part) : json :=
  match p with
  | TextPart t => JObject [("text", JString t)]
  | DataPart mime data =>
      JObject [("inlineData",
                JObject [("mimeType", JString mime);
                         ("data", binary_to_json data)])]
  end.

Definition chunk_to_json (c : Chunk) : json :=
  match c with
  | AudioChunk data mime rate =>
      JObject [("kind", JString "audio"); ("mimeType", JString mime);
               ("sampleRate", JNumber (integer (Z.of_N rate)));
               ("data", binary_to_json data)]
  | VideoChunk data mime =>
      JObject [("kind", JString "video"); ("mimeType", JString mime);
               ("data", binary_to_json data)]
  end.

Definition call_to_json (c : FunctionCall) : json :=
  JObject [("id", JString (call_id c)); ("name", JString (call_name c));
           ("arguments", arguments c)].

Definition error_name (e : ToolError) : string :=
  match e with
  | UnknownTool => "UnknownTool"
  | ToolTimeout => "ToolTimeout"
  end.

Definition response_to_json (r : FunctionResponse) : json :=
  match outcome r with
  | Result v => JObject [("id", JString (response_id r)); ("result", v)]
  | Error e =>
      JObject [("id", JString (response_id r));
               ("error", JString (error_name e))]
  end.

(** Modelled from the spec: the wire envelope, "one top-level variant per
    message": one top-level member, named after the variant. *)
Definition to_json (m : WireMessage) : json :=
  match m with
  | Setup config => JObject [("setup", config)]
  | SetupComplete => JObject [("setupComplete", JObject [])]
  | ClientContent parts turnComplete =>
      JObject [("clientContent",
                JObject [("parts", JArray (map part_to_json parts));
                         ("turnComplete", JBool turnComplete)])]
  | RealtimeInput chunks =>
      JObject [("realtimeInput",
                JObject [("chunks", JArray (map chunk_to_json chunks))])]
  | ServerContent parts turnComplete interrupted =>
      JObject [("serverContent",
                JObject [("parts", JArray (map part_to_json parts));
                         ("turnComplete", JBool turnComplete);
                         ("interrupted", JBool interrupted)])]
  | ToolCall calls =>
      JObject [("toolCall",
                JObject [("calls", JArray (map call_to_json calls))])]
  | ToolResponse responses =>
      JObject [("toolResponse",
                JObject [("responses",
                          JArray (map response_to_json responses))])]
  end.

(** Modelled from the spec: [encode(WireMessage) -> bytes]. *)
Definition encode (m : WireMessage) : list Byte.byte :=
  map byte_of_ascii (JsonText.print (to_json m)).

(** *** From the envelope *)

Definition bind {A B : Type} (o : option A) (k : A -> option B) : option B :=
  match o with
  | Some a => k a
  | None => None
  end.

Notation "x <- o ;; k" := (bind o (fun x => k))
  (at level 61, o at next level, right associativity).

Fixpoint traverse {A B : Type} (f : A -> option B) (l : list A)
  : option (list B) :=
  match l with
  | [] => Some []
  | a :: rest => b <- f a ;; bs <- traverse f rest ;; Some (b :: bs)
  end.

Definition as_string (v : json) : option string :=
  match v with JString s => Some s | _ => None end.

Definition as_bool (v : json) : option bool :=
  match v with JBool b => Some b | _ => None end.

Definition as_N (v : json) : option N :=
  match v with
  | JNumber n =>
      if (0 <=? mantissa n)%Z && (0 <=? exponent n)%Z
      then Some (Z.to_N (mantissa n * 10 ^ exponent n))
      else None
  | _ => None
  end.

Definition as_array (v : json) : option (list json) :=
  match v with JArray vs => Some vs | _ => None end.

Definition as_object (v : json) : option (list (string * json)) :=
  match v with JObject ms => Some ms | _ => None end.

Definition field {A : Type} (key : string) (as_a : json -> option A)
    (ms : list (string * json)) : option A :=
  v <- get key ms ;; as_a v.

Definition binary_of_json (v : json) : option (list Byte.byte) :=
  s <- as_string v ;;
  octets <- Base64.decode (list_ascii_of_string s) ;;
  Some (map byte_of_ascii octets).

Definition part_of_json (v : json) : option Part :=
  ms <- as_object v ;;
  match get "text" ms with
  | Some t => option_map TextPart (as_string t)
  | None =>
      inline <- field "inlineData" as_object ms ;;
      mime <- field "mimeType" as_string inline ;;
      data <- field "data" binary_of_json inline ;;
      Some (DataPart mime data)
  end.

Definition chunk_of_json (v : json) : option Chunk :=
  ms <- as_object v ;;
  kind <- field "kind" as_string ms ;;
  mime <- field "mimeType" as_string ms ;;
  data <- field "data" binary_of_json ms ;;
  if kind =? "audio" then
    rate <- field "sampleRate" as_N ms ;; Some (AudioChunk data mime rate)
  else if kind =? "video" then Some (VideoChunk data mime)
  else None.

Definition call_of_json (v : json) : option FunctionCall :=
  ms <- as_object v ;;
  i <- field "id" as_string ms ;;
  n <- field "name" as_string ms ;;
  a <- get "arguments" ms ;;
  Some {| call_id := i; call_name := n; arguments := a |}.

Definition error_of_name (s : string) : option ToolError :=
  if s =? "UnknownTool" then Some UnknownTool
  else if s =? "ToolTimeout" then Some ToolTimeout
  else None.

Definition response_of_json (v : json) : option FunctionResponse :=
  ms <- as_object v ;;
  i <- field "id" as_string ms ;;
  match get "error" ms with
  | Some e =>
      s <- as_string e ;; kind <- error_of_name s ;;
      Some {| response_id := i; outcome := Error kind |}
  | None =>
      r <- get "result" ms ;;
      Some {| response_id := i; outcome := Result r |}
  end.

Definition list_field {A : Type} (key : string) (of_json : json -> option A)
    (ms : list (string * json)) : option (list A) :=
  vs <- field key as_array ms ;; traverse of_json vs.

(** Modelled from the spec: decoding "validates that the payload is
    well-formed structured data and that exactly one known variant tag is
    present". *)
Definition from_json (v : json) : option WireMessage :=
  match v with
  | JObject [(tag, payload)] =>
      if tag =? "setup" then Some (Setup payload)
      else
        ms <- as_object payload ;;
        if tag =? "setupComplete" then Some SetupComplete
        else if tag =? "clientContent" then
          parts <- list_field "parts" part_of_json ms ;;
          turn <- field "turnComplete" as_bool ms ;;
          Some (ClientContent parts turn)
        else if tag =? "realtimeInput" then
          chunks <- list_field "chunks" chunk_of_json ms ;;
          Some (RealtimeInput chunks)
        else if tag =? "serverContent" then
          parts <- list_field "parts" part_of_json ms ;;
          turn <- field "turnComplete" as_bool ms ;;
          stop <- field "interrupted" as_bool ms ;;
          Some (ServerContent parts turn stop)
        else if tag =? "toolCall" then
          calls <- list_field "calls" call_of_json ms ;;
          Some (ToolCall calls)
        else if tag =? "toolResponse" then
          responses <- list_field "responses" response_of_json ms ;;
          Some (ToolResponse responses)
        else None
  | _ => None
  end.

(** Modelled from the spec: [decode(bytes) -> WireMessage | DecodeError];
    unknown or malformed payloads yield [Malformed]. *)
Definition decode (bytes : list Byte.byte) : Decoded :=
  match JsonText.parse (map ascii_of_byte bytes) with
  | Some v =>
      match from_json v with
      | Some m => Message m
      | None => Failed Malformed
      end
  | None => Failed Malformed
  end.

End ProtocolCodec.

(** ** ConnectionManager: the session state machine *)

Module Session.
Import ProtocolCodec.

Local Open Scope string_scope.

(** Modelled from the spec: the ConnectionManager of section 4.4, its
    error taxonomy (section 7) and the transport of section 6 are not among
    the source files.  The engine below is the state machine of section
    4.4; besides its control state it records everything it lets out: what
    it hands to the transport, the events it delivers to observers, the
    lines it logs and what it writes to persistent storage. *)
Definition Credential := string.

Inductive ConnectionState :=
| Disconnected | Connecting | Connected | Reconnecting | Closed.

Inductive ErrorKind :=
| ConnectError | ConnectionLost | DecodeErrorMalformed | NotConnected
| AlreadyConnected.

(** The credential is a parameter of opening the connection. *)
Inductive TransportAction :=
| Open (url : string) (credential : Credential)
| Transmit (bytes : list Byte.byte)
| Close.

Inductive Event :=
| connectionStateChanged (s : ConnectionState)
| content (parts : list Part) (turnComplete : bool)
| toolCall (calls : list FunctionCall)
| error (kind : ErrorKind).

Inductive LogLine :=
| log_state (s : ConnectionState)
| log_error (kind : ErrorKind) (detail : list Byte.byte).

Record Options := {
  endpoint : string;
  reconnection : bool;
  max_attempts : nat;
  capacity : nat
}.

Record Engine := {
  state : ConnectionState;
  credential : option Credential;
  config : Json.json;
  attempts : nat;
  queue : list WireMessage;
  wire : list TransportAction;
  events : list Event;
  log : list LogLine;
  disk : list (list Byte.byte)
}.

Definition fresh : Engine :=
  {| state := Disconnected; credential := None; config := Json.JNull;
     attempts := 0; queue := []; wire := []; events := []; log := [];
     disk := [] |}.

(** What the caller and the transport do to the engine. *)
Inductive Input :=
| connect (k : Credential) (cfg : Json.json)
| disconnect
| send (m : WireMessage)
| transport_opened
| transport_failed
| transport_closed
| received (bytes : list Byte.byte).

Definition enter (s : ConnectionState) (e : Engine) : Engine :=
  {| state := s; credential := credential e; config := config e;
     attempts := attempts e; queue := queue e; wire := wire e;
     events := events e ++ [connectionStateChanged s];
     log := log e ++ [log_state s]; disk := disk e |}.

Definition report (kind : ErrorKind) (detail : list Byte.byte) (e : Engine)
  : Engine :=
  {| state := state e; credential := credential e; config := config e;
     attempts := attempts e; queue := queue e; wire := wire e;
     events := events e ++ [error kind];
     log := log e ++ [log_error kind detail]; disk := disk e |}.

Definition notify (ev : Event) (e : Engine) : Engine :=
  {| state := state e; credential := credential e; config := config e;
     attempts := attempts e; queue := queue e; wire := wire e;
     events := events e ++ [ev]; log := log e; disk := disk e |}.

Definition hand_over (actions : list TransportAction) (e : Engine) : Engine :=
  {| state := state e; credential := credential e; config := config e;
     attempts := attempts e; queue := queue e; wire := wire e ++ actions;
     events := events e; log := log e; disk := disk e |}.

Definition set_attempts (n : nat) (e : Engine) : Engine :=
  {| state := state e; credential := credential e; config := config e;
     attempts := n; queue := queue e; wire := wire e;
     events := events e; log := log e; disk := disk e |}.

Definition set_queue (q : list WireMessage) (e : Engine) : Engine :=
  {| state := state e; credential := credential e; config := config e;
     attempts := attempts e; queue := q; wire := wire e;
     events := events e; log := log e; disk := disk e |}.

(** A new session: the credential and configuration of this [connect]. *)
Definition begin (k : Credential) (cfg : Json.json) (e : Engine) : Engine :=
  {| state := state e; credential := Some k; config := cfg;
     attempts := 0; queue := []; wire := wire e;
     events := events e; log := log e; disk := disk e |}.

Definition open_transport (o : Options) (e : Engine) : Engine :=
  match credential e with
  | Some k => hand_over [Open (endpoint o) k] e
  | None => e
  end.

Definition transmit (m : WireMessage) (e : Engine) : Engine :=
  hand_over [Transmit (encode m)] e.

(** Bounded queue: when full, the oldest entry is dropped. *)
Definition enqueue (o : Options) (m : WireMessage) (e : Engine) : Engine :=
  let q := (queue e ++ [m])%list in
  set_queue (skipn (List.length q - capacity o) q) e.

Definition flush (e : Engine) : Engine :=
  set_queue [] (hand_over (map (fun m => Transmit (encode m)) (queue e)) e).

Definition dispatch (bytes : list Byte.byte) (e : Engine) : Engine :=
  match decode bytes with
  | Failed Malformed => report DecodeErrorMalformed bytes e
  | Message SetupComplete =>
      match state e with
      | Connecting | Reconnecting =>
          flush (enter Connected (set_attempts 0 e))
      | _ => e
      end
  | Message (ServerContent parts turn _) => notify (content parts turn) e
  | Message (ProtocolCodec.ToolCall calls) => notify (toolCall calls) e
  | Message _ => e
  end.

(** Modelled from the spec: the transitions of section 4.4 and its message
    dispatch.  A second [connect] while a session is live is reported as
    [AlreadyConnected] (section 9). *)
Definition step (o : Options) (e : Engine) (i : Input) : Engine :=
  match i with
  | connect k cfg =>
      match state e with
      | Disconnected | Closed =>
          open_transport o (enter Connecting (begin k cfg e))
      | _ => report AlreadyConnected [] e
      end
  | disconnect =>
      match state e with
      | Connecting | Connected | Reconnecting =>
          enter Closed (set_queue [] (hand_over [Close] e))
      | _ => e
      end
  | send m =>
      match state e with
      | Connected => transmit m e
      | Closed => report NotConnected [] e
      | _ => enqueue o m e
      end
  | transport_opened =>
      match state e with
      | Connecting | Reconnecting => transmit (Setup (config e)) e
      | _ => e
      end
  | transport_failed =>
      match state e with
      | Connecting => report ConnectError [] (enter Disconnected e)
      | Reconnecting =>
          if (max_attempts o <=? S (attempts e))%nat then
            report ConnectionLost []
              (enter Closed (set_queue [] (set_attempts (S (attempts e)) e)))
          else open_transport o (set_attempts (S (attempts e)) e)
      | _ => e
      end
  | transport_closed =>
      match state e with
      | Connected =>
          if reconnection o then open_transport o (enter Reconnecting e)
          else enter Closed e
      | _ => e
      end
  | received bytes =>
      match state e with
      | Connecting | Connected | Reconnecting => dispatch bytes e
      | _ => e
      end
  end.

Definition run (o : Options) (inputs : list Input) : Engine :=
  fold_left (step o) inputs fresh.

(** Two inputs that differ at most in the credential of a [connect]. *)
Definition same_but_credential (i1 i2 : Input) : Prop :=
  match i1, i2 with
  | connect _ cfg1, connect _ cfg2 => cfg1 = cfg2
  | _, _ => i1 = i2
  end.

(** What can be seen of an engine without seeing the credential: the
    transport actions with the credential blanked, and whether a credential
    is held. *)
Definition blank (a : TransportAction) : TransportAction :=
  match a with
  | Open url _ => Open url ""
  | _ => a
  end.

Definition blank_input (i : Input) : Input :=
  match i with
  | connect _ cfg => connect "" cfg
  | _ => i
  end.

Definition view (e : Engine) : Engine :=
  {| state := state e;
     credential := option_map (fun _ => "") (credential e);
     config := config e; attempts := attempts e; queue := queue e;
     wire := map blank (wire e);
     events := events e; log := log e; disk := disk e |}.

End Session.

(** ** Sample inputs *)

Module Samples.

Local Open Scope string_scope.

Definition demo_env : EmailServer.ProcessEnv :=
  {| EmailServer.EMAIL_USER := Some "relay@example.com";
     EmailServer.EMAIL_PASS := Some "app-password" |}.

Definition smtp_accepts (_ : EmailServer.MailOptions) : EmailServer.Promise :=
  EmailServer.Resolved {| EmailServer.info_response := "250 OK" |}.

Definition smtp_refuses (_ : EmailServer.MailOptions) : EmailServer.Promise :=
  EmailServer.Rejected {| EmailServer.error_message := "Invalid login" |}.

Definition demo_request (sender : EmailServer.field)
  : EmailServer.RequestBody :=
  {| EmailServer.to := Some "bob@example.com";
     EmailServer.subject := Some "Hello";
     EmailServer.body := Some "Hi Bob";
     EmailServer.from := sender |}.

Definition chart_call : Altair.LiveFunctionCall :=
  {| Altair.fc_name := "render_altair";
     Altair.fc_args := [("json_graph", Json.JString "{}")];
     Altair.fc_id := "7" |}.

Definition unregistered_call : Altair.LiveFunctionCall :=
  {| Altair.fc_name := "unregistered";
     Altair.fc_args := [];
     Altair.fc_id := "42" |}.

Definition session_options : Session.Options :=
  {| Session.endpoint := "wss://example.invalid/live";
     Session.reconnection := true;
     Session.max_attempts := 5;
     Session.capacity := 8 |}.

(** A session that connects, completes the handshake, receives a malformed
    payload, loses the connection and retries. *)
Definition session_trace (k : Session.Credential) : list Session.Input :=
  [ Session.connect k (Json.JObject [("model", Json.JString "m")]);
    Session.transport_opened;
    Session.received (ProtocolCodec.encode ProtocolCodec.SetupComplete);
    Session.send (ProtocolCodec.ClientContent
                    [ProtocolCodec.TextPart "hello"] true);
    Session.received [Byte.x7b];
    Session.transport_closed;
    Session.transport_failed ].

(** The bytes of a JSON text, written here with [']  where the text has a
    double quote. *)
Definition json_text (s : string) : list Byte.byte :=
  map (fun c => byte_of_ascii
                  (if Ascii.eqb c "'"%char then JsonText.dquote else c))
      (list_ascii_of_string s).

End Samples.

(** ** The Altair listener over whole traces *)

Module AltairTrace.
Import Altair.

(** The batches a trace delivers to [onToolCall], in order of arrival. *)
Definition delivered (events : list Event) : list ToolCall :=
  flat_map (fun e => match e with
                     | Toolcall tc => [tc]
                     | Elapse _ => []
                     end) events.

(** Those that pass the test [toolCall.functionCalls.length] of line 171. *)
Definition batches (events : list Event) : list ToolCall :=
  filter (fun tc => negb (List.length (functionCalls tc) =? 0)%nat)
         (delivered events).

(** The pending callbacks are kept in the order in which they fall due,
    and none falls due later than 200 ms from now. *)
Definition in_due_order (w : World) : Prop :=
  StronglySorted (fun a b => due a <= due b) (timers w) /\
  Forall (fun tm => due tm <= now w + 200) (timers w).

(** A trace in which time passes and nothing is delivered. *)
Definition only_waits (events : list Event) : Prop :=
  Forall (fun e => match e with
                   | Elapse _ => True
                   | Toolcall _ => False
                   end) events.

(** The world with its console output left out. *)
Definition without_console (w : World) : World :=
  {| now := now w; timers := timers w; live_config := live_config w;
     jsonString := jsonString w;
     setJSONString_calls := setJSONString_calls w;
     console := []; sent := sent w |}.

End AltairTrace.

(** ** The Altair component: rendering the chart (lines 190-215) *)

Module AltairChart.
Import Json Altair.

Local Open Scope string_scope.

(** JavaScript truthiness of what the state [jsonString] can hold: the
    initial empty string, or whatever [json_graph] was ([None] is
    [undefined]). *)
Definition truthy (v : option json) : bool :=
  match v with
  | None => false
  | Some JNull => false
  | Some (JBool b) => b
  | Some (JNumber n) => negb (mantissa n =? 0)%Z
  | Some (JString s) => negb (s =? "")
  | Some (JArray _) => true
  | Some (JObject _) => true
  end.

(** What a call of [vegaEmbed] does: it throws at once, or returns a
    promise that resolves, rejects with an error, or is still pending. *)
Inductive Embedding :=
| EmbedThrows
| EmbedResolves
| EmbedRejects (message : string)
| EmbedPending.

Inductive ConsoleError :=
| Vega_Embed_Error (message : string)
| JSON_Parse_Error.

Record EffectRun := {
  vegaEmbed_calls : list json;
  console_errors : list ConsoleError;
  client_send : list (list Part)
}.

Definition nothing : EffectRun :=
  {| vegaEmbed_calls := []; console_errors := []; client_send := [] |}.

Definition render_failed (message : string) : list Part :=
  [ {| text := "The visualization failed to render with error: " ++ message
               ++ ". Please try to fix the specification or suggest an alternative approach." |} ].

Definition parse_failed : list Part :=
  [ {| text := "Failed to parse the visualization JSON. Please provide a valid specification." |} ].

(** The body of the third effect.  [JSON.parse] and [vegaEmbed] are
    library functions and are parameters: [JSON_parse v] is [None] when
    [JSON.parse] throws on [v]. *)
Definition embedEffect
    (JSON_parse : json -> option json) (vegaEmbed : json -> Embedding)
    (ref_attached : bool) (jsonString : option json) : EffectRun :=
  if ref_attached && truthy jsonString then
    match jsonString with
    | None => nothing
    | Some v =>
        match JSON_parse v with
        | None =>
            {| vegaEmbed_calls := []; console_errors := [JSON_Parse_Error];
               client_send := [parse_failed] |}
        | Some spec =>
            match vegaEmbed spec with
            | EmbedThrows =>
                {| vegaEmbed_calls := [spec];
                   console_errors := [JSON_Parse_Error];
                   client_send := [parse_failed] |}
            | EmbedRejects message =>
                {| vegaEmbed_calls := [spec];
                   console_errors := [Vega_Embed_Error message];
                   client_send := [render_failed message] |}
            | EmbedResolves | EmbedPending =>
                {| vegaEmbed_calls := [spec]; console_errors := [];
                   client_send := [] |}
            end
        end
    end
  else nothing.

End AltairChart.

(** ** SearchResults.tsx: all pages, and new props *)

Module SearchResultsPages.
Import SearchResults.

(** The page indices [0 .. totalPages - 1]. *)
Definition pages (results : list SearchResult) : list Z :=
  map Z.of_nat (seq 0 (Z.to_nat (totalPages results))).

(** The component over its lifetime: the parent may render it again with
    another [results] array; [useState] keeps [page] across renders. *)
Inductive Event :=
| Clicked (c : Click)
| Rerendered (results : list SearchResult).

Record State := { shown : list SearchResult; page : Z }.

Definition step (st : State) (e : Event) : State :=
  match e with
  | Clicked c => {| shown := shown st; page := click (shown st) (page st) c |}
  | Rerendered results => {| shown := results; page := page st |}
  end.

Definition run (results : list SearchResult) (events : list Event) : State :=
  fold_left step events {| shown := results; page := 0 |}.

End SearchResultsPages.

(** ** ImageDisplay (second component of SearchResults.tsx) *)

Module ImageDisplay.

Local Open Scope string_scope.

Record Props := {
  src : string;
  alt : option string;
  caption : option string
}.

(** [useState(false)] and [useState(true)]. *)
Record State := { isZoomed : bool; loading : bool }.

Definition initial : State := {| isZoomed := false; loading := true |}.

Inductive Display := none | block.

Record View := {
  container_zoomed : bool;
  img_src : string;
  img_alt : string;
  img_display : Display;
  spinner : bool;
  caption_text : option string
}.

Definition render (props : Props) (st : State) : View :=
  {| container_zoomed := isZoomed st;
     img_src := src props;
     img_alt := match alt props with Some a => a | None => "" end;
     img_display := if loading st then none else block;
     spinner := loading st;
     caption_text :=
       match caption props with
       | Some c => if c =? "" then None else Some c
       | None => None
       end |}.

Inductive Event := ImgClick | ImgLoad.

(** [onClick] (line 104) and [onLoad] (line 105) of the image.  The click
    handler toggles [isZoomed] whatever [loading] is. *)
Definition step (props : Props) (st : State) (e : Event) : State :=
  match e with
  | ImgClick => {| isZoomed := negb (isZoomed st); loading := loading st |}
  | ImgLoad => {| isZoomed := isZoomed st; loading := false |}
  end.

Definition run (props : Props) (events : list Event) : State :=
  fold_left (step props) events initial.

Definition is_load (e : Event) : bool :=
  match e with ImgLoad => true | ImgClick => false end.

Definition is_click (e : Event) : bool :=
  match e with ImgClick => true | ImgLoad => false end.

End ImageDisplay.

(** ** The Altair component: registering the listener (lines 184-187) *)

Module AltairLifecycle.
Import Altair.

(** The second effect registers [onToolCall] with [client.on] and its
    cleanup removes it with [client.off]; every run of the effect creates a
    new closure, numbered here.  The timeouts are not part of the cleanup. *)
Record Component := {
  world : World;
  listeners : list nat;
  current : option nat;
  next_closure : nat
}.

Definition unmounted : Component :=
  {| world := initial; listeners := []; current := None; next_closure := 0 |}.

(** [client.on("toolcall", f)] and [client.off("toolcall", f)] *)
Definition client_on (f : nat) (ls : list nat) : list nat := ls ++ [f].
Definition client_off (f : nat) (ls : list nat) : list nat :=
  filter (fun g => negb (g =? f)%nat) ls.

(** The function the effect returned, if the effect is live. *)
Definition cleanup (c : Component) : Component :=
  match current c with
  | Some f =>
      {| world := world c; listeners := client_off f (listeners c);
         current := None; next_closure := next_closure c |}
  | None => c
  end.

Inductive Event :=
| EffectRuns
| Unmounts
| Emits (toolCall : ToolCall)
| Passes (ms : N).

(** React runs the cleanup of the previous run before it runs the effect
    again, and on unmount; [client.emit] calls every registered listener. *)
Definition step (c : Component) (e : Event) : Component :=
  match e with
  | EffectRuns =>
      let c := cleanup c in
      {| world := world c;
         listeners := client_on (next_closure c) (listeners c);
         current := Some (next_closure c);
         next_closure := S (next_closure c) |}
  | Unmounts => cleanup c
  | Emits toolCall =>
      {| world := fold_left (fun w _ => onToolCall toolCall w)
                            (listeners c) (world c);
         listeners := listeners c; current := current c;
         next_closure := next_closure c |}
  | Passes ms =>
      {| world := elapse ms (world c); listeners := listeners c;
         current := current c; next_closure := next_closure c |}
  end.

Definition run (events : list Event) (c : Component) : Component :=
  fold_left step events c.

(** Milliseconds that pass during a trace. *)
Fixpoint passed (events : list Event) : Z :=
  match events with
  | [] => 0
  | Passes ms :: rest => Z.of_N ms + passed rest
  | _ :: rest => passed rest
  end.

(** The listener registered is the closure of the live effect, if any. *)
Definition registered_once (c : Component) : Prop :=
  listeners c = match current c with Some f => [f] | None => [] end.

End AltairLifecycle.

(** ** server/index.js: requests with any JSON in their fields *)

Module EmailServerJson.
Import Json.

Local Open Scope string_scope.

(** A field of [req.body] after destructuring (line 27): any JSON value,
    or [undefined]. *)
Definition value := option json.

(** JavaScript truthiness of such a value. *)
Definition truthy (v : value) : bool :=
  match v with
  | None => false
  | Some JNull => false
  | Some (JBool b) => b
  | Some (JNumber n) => negb (mantissa n =? 0)%Z
  | Some (JString s) => negb (s =? "")
  | Some (JArray _) => true
  | Some (JObject _) => true
  end.

Record RequestBody := {
  to : value;
  subject : value;
  body : value;
  from : value
}.

Record MailOptions := {
  mail_from : value;
  mail_to : value;
  mail_subject : value;
  mail_text : value;
  mail_html : value
}.

(** [body.includes(sub)] (line 34).  A string has
    [String.prototype.includes], an array [Array.prototype.includes],
    which looks for an element equal to [sub].  Reading the property off
    [undefined] or [null], or calling what a boolean, a number or an
    object has under that name, raises a TypeError ([None]). *)
Definition body_includes (body : value) (sub : string) : option bool :=
  match body with
  | Some (JString s) => Some (EmailServer.includes s sub)
  | Some (JArray vs) =>
      Some (existsb (fun v => match v with
                              | JString s => s =? sub
                              | _ => false
                              end) vs)
  | _ => None
  end.

(** The string the template literal of line 34 puts between the tags;
    [arrayToString] is [Array.prototype.toString]. *)
Definition template (arrayToString : list json -> string) (b : json)
  : string :=
  match b with
  | JString s => s
  | JArray vs => arrayToString vs
  | _ => ""
  end.

(** Lines 29-35. *)
Definition mailOptions (arrayToString : list json -> string)
    (env : EmailServer.ProcessEnv) (req : RequestBody)
  : option MailOptions :=
  match body req, body_includes (body req) "<html" with
  | Some b, Some found =>
      Some {| mail_from :=
                if truthy (from req) then from req
                else option_map JString (EmailServer.EMAIL_USER env);
              mail_to := to req;
              mail_subject := subject req;
              mail_text := Some b;
              mail_html :=
                Some (if found then b
                      else JString ("<p>" ++ template arrayToString b
                                          ++ "</p>")) |}
  | _, _ => None
  end.

Record Run := {
  handed_to_sendMail : list MailOptions;
  console : list EmailServer.ConsoleLine;
  response : option EmailServer.Response;
  completion : EmailServer.Completion
}.

(** [app.post('/api/sendEmail', ...)], lines 26-45. *)
Definition sendEmail (arrayToString : list json -> string)
    (env : EmailServer.ProcessEnv)
    (sendMail : MailOptions -> EmailServer.Promise)
    (req : RequestBody) : Run :=
  match mailOptions arrayToString env req with
  | None =>
      {| handed_to_sendMail := []; console := []; response := None;
         completion := EmailServer.Threw |}
  | Some opts =>
      match sendMail opts with
      | EmailServer.Resolved info =>
          {| handed_to_sendMail := [opts];
             console :=
               [EmailServer.console_log
                  ("Email sent: " ++ EmailServer.info_response info)];
             response :=
               Some {| EmailServer.status := 200;
                       EmailServer.json :=
                         EmailServer.SuccessBody "Email sent successfully"
                                                 info |};
             completion := EmailServer.Returned |}
      | EmailServer.Rejected error =>
          {| handed_to_sendMail := [opts];
             console :=
               [EmailServer.console_error "Error sending email:" error];
             response :=
               Some {| EmailServer.status := 500;
                       EmailServer.json :=
                         EmailServer.FailureBody "Failed to send email"
                           (EmailServer.error_message error) |};
             completion := EmailServer.Returned |}
      | EmailServer.Pending =>
          {| handed_to_sendMail := [opts]; console := []; response := None;
             completion := EmailServer.Awaiting |}
      end
  end.

(** Requests and mails whose fields are strings or missing. *)
Definition of_field (f : EmailServer.field) : value := option_map JString f.

Definition of_request (r : EmailServer.RequestBody) : RequestBody :=
  {| to := of_field (EmailServer.to r);
     subject := of_field (EmailServer.subject r);
     body := of_field (EmailServer.body r);
     from := of_field (EmailServer.from r) |}.

Definition of_mail (m : EmailServer.MailOptions) : MailOptions :=
  {| mail_from := of_field (EmailServer.mail_from m);
     mail_to := of_field (EmailServer.mail_to m);
     mail_subject := of_field (EmailServer.mail_subject m);
     mail_text := of_field (EmailServer.mail_text m);
     mail_html := Some (JString (EmailServer.mail_html m)) |}.

End EmailServerJson.

(** * Properties *)

(** ** Arithmetic of [Math.ceil] and [slice] *)

Lemma ceil_div_spec (a b : Z) :
  0 < b -> b * (JS.ceil_div a b - 1) < a <= b * JS.ceil_div a b.
Proof.
  intros Hb. unfold JS.ceil_div.
  pose proof (Z.div_mod (- a) b ltac:(lia)) as Hdm.
  pose proof (Z.mod_pos_bound (- a) b Hb) as Hm.
  nia.
Qed.

Lemma ceil_div_gt_1 (a b : Z) : 0 < b -> (1 < JS.ceil_div a b <-> b < a).
Proof.
  intros Hb. pose proof (ceil_div_spec a b Hb) as H. split; intros; nia.
Qed.

Lemma slice_nonneg {A : Type} (l : list A) (start stop : Z) :
  0 <= start -> 0 <= stop ->
  JS.slice l start stop =
  firstn (Z.to_nat (stop - start)) (skipn (Z.to_nat start) l).
Proof.
  intros Hs He. unfold JS.slice.
  destruct (start <? 0) eqn:E1; [apply Z.ltb_lt in E1; lia|].
  destruct (stop <? 0) eqn:E2; [apply Z.ltb_lt in E2; lia|].
  set (len := Z.of_nat (List.length l)).
  assert (Hlen : List.length l = Z.to_nat len) by (unfold len; lia).
  destruct (Z.le_gt_cases start len) as [Hle|Hgt].
  - rewrite (Z.min_l start len) by lia.
    destruct (Z.le_gt_cases stop len) as [Hle'|Hgt'].
    + rewrite (Z.min_l stop len) by lia. reflexivity.
    + rewrite (Z.min_r stop len) by lia.
      rewrite !firstn_all2; try reflexivity; rewrite length_skipn; lia.
  - rewrite (Z.min_r start len) by lia.
    rewrite !skipn_all2 by lia. now rewrite !firstn_nil.
Qed.


(** ** SearchResults: pagination *)

Section SearchResultsFacts.
Import SearchResults.

Variable results : list SearchResult.

Let last_page : Z := Z.max 0 (totalPages results - 1).

Lemma pagination_rendered_iff (page : Z) :
  pagination (render results page) <> None <->
  5 < Z.of_nat (List.length results).
Proof.
  unfold render; cbn [pagination].
  pose proof (ceil_div_gt_1 (Z.of_nat (List.length results)) 5 eq_refl) as H.
  fold resultsPerPage in H. fold (totalPages results) in H.
  destruct (1 <? totalPages results) eqn:E.
  - apply Z.ltb_lt in E. split; [intros _; now apply H | discriminate].
  - apply Z.ltb_ge in E. split; [congruence | intros H'; apply H in H'; lia].
Qed.

Lemma click_keeps_range (page : Z) (c : Click) :
  0 <= page <= last_page -> 0 <= click results page c <= last_page.
Proof.
  unfold last_page, click, render; cbn [pagination].
  destruct (1 <? totalPages results) eqn:E; [apply Z.ltb_lt in E | lia].
  intros Hp. destruct c; cbn [previous next disabled onClick].
  - destruct (page =? 0); lia.
  - destruct (page =? totalPages results - 1); lia.
Qed.

Lemma fold_click_keeps_range (clicks : list Click) (page : Z) :
  0 <= page <= last_page ->
  0 <= fold_left (click results) clicks page <= last_page.
Proof.
  revert page. induction clicks as [|c cs IH]; intros page Hp; cbn.
  - exact Hp.
  - apply IH, click_keeps_range, Hp.
Qed.

Lemma run_in_range (clicks : list Click) :
  0 <= run results clicks <= last_page.
Proof. apply fold_click_keeps_range. unfold last_page. lia. Qed.

Lemma items_are_page_slice (page : Z) :
  0 <= page ->
  items (render results page) =
  firstn 5 (skipn (Z.to_nat (5 * page)) results).
Proof.
  intros Hp. unfold render, paginatedResults, resultsPerPage; cbn [items].
  rewrite slice_nonneg by lia.
  replace (Z.to_nat ((page + 1) * 5 - page * 5)) with 5%nat by lia.
  now replace (page * 5) with (5 * page) by lia.
Qed.

End SearchResultsFacts.

(** C10 (as amended): for every results list and every sequence of
    Previous/Next clicks starting from page 0, the page index stays within
    [0, max(0, ceil(results.length / 5) - 1)], the rendered items are exactly
    results[5*page .. 5*page + 5), and the pagination bar is rendered exactly
    when results.length > 5. *)
Theorem SearchResults_pagination_sound
  (results : list SearchResults.SearchResult)
  (clicks : list SearchResults.Click) :
  let page := SearchResults.run results clicks in
  0 <= page <= Z.max 0 (SearchResults.totalPages results - 1) /\
  SearchResults.items (SearchResults.render results page) =
    firstn 5 (skipn (Z.to_nat (5 * page)) results) /\
  (SearchResults.pagination (SearchResults.render results page) <> None <->
   5 < Z.of_nat (List.length results)).
Proof.
  intros page.
  pose proof (run_in_range results clicks) as Hr. fold page in Hr.
  split; [exact Hr|]. split.
  - apply items_are_page_slice. lia.
  - apply pagination_rendered_iff.
Qed.

(** C10 as stated fails on the empty list: the page index is 0 while
    ceil(0 / 5) - 1 = -1, so the stated interval [0, -1] is empty. *)
Lemma SearchResults_empty_list_page_out_of_stated_range :
  SearchResults.run [] [] = 0 /\
  SearchResults.totalPages [] - 1 = -1 /\
  ~ (0 <= SearchResults.run [] [] <= SearchResults.totalPages [] - 1).
Proof.
  split; [reflexivity|]. split; [reflexivity|].
  vm_compute. intros [_ H]. apply H. reflexivity.
Qed.

Example SearchResults_twelve_results_next_next_next :
  let rs := repeat {| SearchResults.title := "t"; SearchResults.snippet := "s";
                      SearchResults.url := "u";
                      SearchResults.thumbnail := None |} 12 in
  SearchResults.run rs [SearchResults.Next; SearchResults.Next;
                        SearchResults.Next; SearchResults.Next] = 2 /\
  List.length (SearchResults.items (SearchResults.render rs 2)) = 2%nat /\
  SearchResults.run rs [SearchResults.Previous] = 0.
Proof. vm_compute. repeat split. Qed.

(** ** server/index.js: the mail handed to the transporter *)

Section EmailServerFacts.
Import EmailServer.
Local Open Scope string_scope.

Lemma prefix_iff_app (sub s : string) :
  String.prefix sub s = true <-> exists rest, s = sub ++ rest.
Proof.
  revert s. induction sub as [|a sub IH]; intros s; cbn.
  - destruct s; split; eauto.
  - destruct s as [|b s]; cbn.
    + split; [discriminate | intros [r Hr]; discriminate].
    + destruct (ascii_dec a b) as [->|Hab].
      * rewrite IH. split; intros [r Hr]; exists r; congruence.
      * split; [discriminate | intros [r Hr]; congruence].
Qed.

Lemma includes_iff_contains (s sub : string) :
  includes s sub = true <-> contains_substring s sub.
Proof.
  unfold contains_substring. induction s as [|c s IH].
  - cbn [includes]. rewrite orb_false_r, prefix_iff_app. split.
    + intros [r Hr]. now exists "", r.
    + intros [p [q Hpq]]. destruct p; [now exists q | discriminate].
  - cbn [includes]. rewrite orb_true_iff, prefix_iff_app, IH. split.
    + intros [[r Hr] | [p [q Hpq]]].
      * now exists "", r.
      * exists (String c p), q. cbn. congruence.
    + intros [p [q Hpq]]. destruct p as [|d p]; cbn in Hpq.
      * left. now exists q.
      * right. exists p, q. congruence.
Qed.

Lemma js_or_truthy (a b : field) : truthy a = true -> js_or a b = a.
Proof. unfold js_or. now intros ->. Qed.

Lemma js_or_falsy (a b : field) : truthy a = false -> js_or a b = b.
Proof. unfold js_or. now intros ->. Qed.

Lemma truthy_iff (v : field) :
  truthy v = true <-> exists s, v = Some s /\ s <> "".
Proof.
  destruct v as [s|]; cbn.
  - rewrite negb_true_iff, String.eqb_neq. split.
    + intros H. now exists s.
    + intros [s' [[= <-] H]]. exact H.
  - split; [discriminate | intros [s [[=] _]]].
Qed.

End EmailServerFacts.

(** C8 (as amended): for a request whose [body] is a string, the handler
    hands exactly one mail to the transporter; its recipient, subject and
    plain text are the request's [to], [subject] and [body]; its sender is
    [from] when [from] is a non-empty string and EMAIL_USER when [from] is
    missing or empty; its html is [body] when [body] contains "<html" and
    "<p>" + body + "</p>" otherwise. *)
Theorem sendEmail_mail_fields
  (env : EmailServer.ProcessEnv)
  (sendMail : EmailServer.MailOptions -> EmailServer.Promise)
  (req : EmailServer.RequestBody) (b : string) :
  EmailServer.body req = Some b ->
  exists m,
    EmailServer.handed_to_sendMail (EmailServer.sendEmail env sendMail req)
      = [m] /\
    EmailServer.mail_to m = EmailServer.to req /\
    EmailServer.mail_subject m = EmailServer.subject req /\
    EmailServer.mail_text m = Some b /\
    (forall f, EmailServer.from req = Some f -> f <> ""%string ->
               EmailServer.mail_from m = Some f) /\
    (EmailServer.from req = None \/ EmailServer.from req = Some ""%string ->
     EmailServer.mail_from m = EmailServer.EMAIL_USER env) /\
    (EmailServer.contains_substring b "<html" ->
     EmailServer.mail_html m = b) /\
    (~ EmailServer.contains_substring b "<html" ->
     EmailServer.mail_html m = ("<p>" ++ b ++ "</p>")%string).
Proof.
  intros Hb. unfold EmailServer.sendEmail, EmailServer.mailOptions.
  rewrite Hb.
  match goal with
  | |- context [sendMail ?o] => exists o; destruct (sendMail o)
  end;
    (split; [reflexivity|]);
    cbn [EmailServer.mail_to EmailServer.mail_subject EmailServer.mail_text
         EmailServer.mail_from EmailServer.mail_html];
    repeat split.
  all: try (intros f Hf Hne; rewrite Hf; apply js_or_truthy;
            apply truthy_iff; now exists f).
  all: try (intros [Hf|Hf]; rewrite Hf; now apply js_or_falsy).
  all: try (intros Hc; apply includes_iff_contains in Hc; now rewrite Hc).
  all: intros Hc;
    destruct (EmailServer.includes b "<html") eqn:E; [|reflexivity];
    exfalso; apply Hc; now apply includes_iff_contains.
Qed.

Import Samples.

Lemma sendEmail_mail_fields_witness :
  exists m,
    EmailServer.handed_to_sendMail
      (EmailServer.sendEmail demo_env smtp_accepts
         (demo_request (Some "alice@example.com"%string))) = [m] /\
    EmailServer.mail_to m = Some "bob@example.com"%string /\
    EmailServer.mail_from m = Some "alice@example.com"%string /\
    EmailServer.mail_html m = "<p>Hi Bob</p>"%string.
Proof.
  destruct (sendEmail_mail_fields demo_env smtp_accepts
              (demo_request (Some "alice@example.com"%string))
              "Hi Bob"%string eq_refl)
    as [m [Hm [Hto [_ [_ [Hfrom [_ [_ Hhtml]]]]]]]].
  exists m. split; [exact Hm|]. split; [exact Hto|]. split.
  - apply Hfrom; [reflexivity | discriminate].
  - apply Hhtml. intros Hc. apply includes_iff_contains in Hc. discriminate.
Defined.

(** C8 as stated fails when [from] is the empty string: the field is
    present in the body, yet the mail is sent from EMAIL_USER. *)
Lemma sendEmail_empty_from_falls_back :
  let req := demo_request (Some ""%string) in
  EmailServer.from req = Some ""%string /\
  EmailServer.handed_to_sendMail
    (EmailServer.sendEmail demo_env smtp_accepts req)
  = [ {| EmailServer.mail_from := Some "relay@example.com"%string;
         EmailServer.mail_to := Some "bob@example.com"%string;
         EmailServer.mail_subject := Some "Hello"%string;
         EmailServer.mail_text := Some "Hi Bob"%string;
         EmailServer.mail_html := "<p>Hi Bob</p>"%string |} ] /\
  ~ (forall m,
       In m (EmailServer.handed_to_sendMail
               (EmailServer.sendEmail demo_env smtp_accepts req)) ->
       EmailServer.mail_from m = EmailServer.from req).
Proof.
  cbv zeta. split; [reflexivity|]. split; [reflexivity|].
  intros H. specialize (H _ (or_introl eq_refl)). discriminate H.
Qed.

(** C9: for every request whose [body] is a string, the endpoint answers
    200 with message 'Email sent successfully' exactly when [sendMail]
    resolves and 500 with {error: 'Failed to send email', details} exactly
    when it rejects; it answers with no other status. *)
Theorem sendEmail_status_follows_sendMail
  (env : EmailServer.ProcessEnv)
  (sendMail : EmailServer.MailOptions -> EmailServer.Promise)
  (req : EmailServer.RequestBody) (b : string) :
  EmailServer.body req = Some b ->
  exists opts,
    EmailServer.mailOptions env req = Some opts /\
    (forall info, sendMail opts = EmailServer.Resolved info ->
       EmailServer.response (EmailServer.sendEmail env sendMail req) =
       Some {| EmailServer.status := 200;
               EmailServer.json :=
                 EmailServer.SuccessBody "Email sent successfully" info |}) /\
    (forall error, sendMail opts = EmailServer.Rejected error ->
       EmailServer.response (EmailServer.sendEmail env sendMail req) =
       Some {| EmailServer.status := 500;
               EmailServer.json :=
                 EmailServer.FailureBody "Failed to send email"
                   (EmailServer.error_message error) |}) /\
    (forall r,
       EmailServer.response (EmailServer.sendEmail env sendMail req) = Some r ->
       (EmailServer.status r = 200 /\
        exists info, sendMail opts = EmailServer.Resolved info) \/
       (EmailServer.status r = 500 /\
        exists error, sendMail opts = EmailServer.Rejected error)).
Proof.
  intros Hb. unfold EmailServer.sendEmail.
  destruct (EmailServer.mailOptions env req) as [opts|] eqn:Ho.
  2:{ unfold EmailServer.mailOptions in Ho. rewrite Hb in Ho. discriminate. }
  exists opts. split; [reflexivity|].
  destruct (sendMail opts) as [info|error|] eqn:Hs; cbn [EmailServer.response].
  - split; [intros i [= <-]; reflexivity|].
    split; [intros e [=]|].
    intros r [= <-]. left. split; [reflexivity | now exists info].
  - split; [intros i [=]|].
    split; [intros e [= <-]; reflexivity|].
    intros r [= <-]. right. split; [reflexivity | now exists error].
  - split; [intros i [=]|]. split; [intros e [=]|]. intros r [=].
Qed.

Lemma sendEmail_status_follows_sendMail_witness :
  EmailServer.response
    (EmailServer.sendEmail demo_env smtp_refuses (demo_request None))
  = Some {| EmailServer.status := 500;
            EmailServer.json :=
              EmailServer.FailureBody "Failed to send email"
                                      "Invalid login" |}.
Proof.
  destruct (sendEmail_status_follows_sendMail demo_env smtp_refuses
              (demo_request None) "Hi Bob"%string eq_refl)
    as [opts [_ [_ [H500 _]]]].
  exact (H500 {| EmailServer.error_message := "Invalid login" |} eq_refl).
Defined.

Example sendEmail_accepts_200 :
  EmailServer.response
    (EmailServer.sendEmail demo_env smtp_accepts (demo_request None))
  = Some {| EmailServer.status := 200;
            EmailServer.json :=
              EmailServer.SuccessBody "Email sent successfully"
                {| EmailServer.info_response := "250 OK" |} |}.
Proof. reflexivity. Qed.

(** A request without [body] raises before the [try] block is entered:
    nothing is handed to the transporter and no response is written. *)
Example sendEmail_missing_body_throws :
  EmailServer.sendEmail demo_env smtp_accepts
    {| EmailServer.to := Some "bob@example.com"%string;
       EmailServer.subject := Some "Hello"%string;
       EmailServer.body := None; EmailServer.from := None |}
  = {| EmailServer.handed_to_sendMail := []; EmailServer.console := [];
       EmailServer.response := None;
       EmailServer.completion := EmailServer.Threw |}.
Proof. reflexivity. Qed.

(** ** Lists: filters and permutations *)

Section FilterFacts.
Context {A : Type}.

Lemma filter_split_perm (p : A -> bool) (l : list A) :
  Permutation l (filter p l ++ filter (fun x => negb (p x)) l).
Proof.
  induction l as [|x l IH]; cbn; [constructor|].
  destruct (p x); cbn.
  - now constructor.
  - now apply Permutation_cons_app.
Qed.

Lemma filter_absorb (p q : A -> bool) (l : list A) :
  (forall x, In x l -> p x = true -> q x = true) ->
  filter p (filter q l) = filter p l.
Proof.
  induction l as [|x l IH]; intros H; cbn; [reflexivity|].
  assert (IH' : filter p (filter q l) = filter p l)
    by (apply IH; intros; apply H; [now right | assumption]).
  destruct (q x) eqn:Eq; cbn.
  - now rewrite IH'.
  - destruct (p x) eqn:Ep; [|exact IH'].
    rewrite (H x (or_introl eq_refl) Ep) in Eq. discriminate.
Qed.

Lemma filter_swap (p q : A -> bool) (l : list A) :
  filter p (filter q l) = filter q (filter p l).
Proof.
  induction l as [|x l IH]; cbn; [reflexivity|].
  destruct (q x) eqn:Eq, (p x) eqn:Ep; cbn; rewrite ?Eq, ?Ep, IH; reflexivity.
Qed.

Lemma filter_all (p : A -> bool) (l : list A) :
  (forall x, In x l -> p x = true) -> filter p l = l.
Proof.
  induction l as [|x l IH]; intros H; cbn; [reflexivity|].
  rewrite (H x (or_introl eq_refl)), IH; [reflexivity|].
  intros; apply H; now right.
Qed.

Lemma filter_none (p : A -> bool) (l : list A) :
  (forall x, In x l -> p x = false) -> filter p l = [].
Proof.
  induction l as [|x l IH]; intros H; cbn; [reflexivity|].
  rewrite (H x (or_introl eq_refl)). apply IH. intros; apply H; now right.
Qed.

End FilterFacts.

(** ** Altair: one step of the listener and of the clock *)

Section AltairSteps.
Import Altair.

Lemma waiting_not_ready (t : Z) (tm : Timer) :
  waiting_at t tm = negb (ready_at t tm).
Proof. unfold waiting_at, ready_at. apply Z.ltb_antisym. Qed.

Lemma onToolCall_now (tc : ToolCall) (w : World) :
  now (onToolCall tc w) = now w.
Proof.
  unfold onToolCall.
  destruct (find _ _); destruct (_ =? _)%nat; reflexivity.
Qed.

Lemma onToolCall_sent (tc : ToolCall) (w : World) :
  sent (onToolCall tc w) = sent w.
Proof.
  unfold onToolCall.
  destruct (find _ _); destruct (_ =? _)%nat; reflexivity.
Qed.

Lemma onToolCall_timers (tc : ToolCall) (w : World) :
  timers (onToolCall tc w) = timers w ++ scheduled_by tc (now w).
Proof.
  unfold onToolCall, scheduled_by.
  destruct (find _ _); destruct (_ =? _)%nat; cbn;
    rewrite ?app_nil_r; reflexivity.
Qed.

Lemma fire_all (ready : list Timer) (w : World) :
  fold_left (fun w tm => fire tm w) ready w =
  {| now := now w; timers := timers w; live_config := live_config w;
     jsonString := jsonString w;
     setJSONString_calls := setJSONString_calls w;
     console := console w;
     sent := sent w ++ map response_to ready |}.
Proof.
  revert w. induction ready as [|tm ready IH]; intros w; cbn [fold_left map].
  - rewrite app_nil_r. now destruct w.
  - rewrite IH. unfold fire, sendToolResponse; cbn.
    now rewrite <- app_assoc.
Qed.

Lemma elapse_now (ms : N) (w : World) :
  now (elapse ms w) = now w + Z.of_N ms.
Proof. unfold elapse. now rewrite fire_all. Qed.

Lemma elapse_timers (ms : N) (w : World) :
  timers (elapse ms w) = filter (waiting_at (now w + Z.of_N ms)) (timers w).
Proof. unfold elapse. now rewrite fire_all. Qed.

Lemma elapse_sent (ms : N) (w : World) :
  sent (elapse ms w) =
  sent w ++ map response_to (filter (ready_at (now w + Z.of_N ms)) (timers w)).
Proof. unfold elapse. now rewrite fire_all. Qed.

Lemma elapsed_nonneg (events : list Event) : 0 <= elapsed events.
Proof.
  induction events as [|[tc|ms] es IH]; cbn; lia.
Qed.

Lemma elapsed_app (es1 es2 : list Event) :
  elapsed (es1 ++ es2) = elapsed es1 + elapsed es2.
Proof.
  induction es1 as [|[tc|ms] es IH]; cbn; lia.
Qed.

Lemma run_app (es1 es2 : list Event) (w : World) :
  run (es1 ++ es2) w = run es2 (run es1 w).
Proof. apply fold_left_app. Qed.

Lemma run_now (es : list Event) (w : World) :
  now (run es w) = now w + elapsed es.
Proof.
  revert w. induction es as [|[tc|ms] es IH]; intros w; cbn.
  - lia.
  - change (now (run es (onToolCall tc w)) = now w + elapsed es).
    rewrite IH, onToolCall_now. reflexivity.
  - change (now (run es (elapse ms w)) = now w + (Z.of_N ms + elapsed es)).
    rewrite IH, elapse_now. lia.
Qed.

Lemma all_waiting_initial : all_waiting initial.
Proof. intros tm []. Qed.

Lemma all_waiting_step (w : World) (e : Event) :
  all_waiting w -> all_waiting (step w e).
Proof.
  intros Hw tm. destruct e as [tc|ms]; cbn [step].
  - rewrite onToolCall_timers, onToolCall_now, in_app_iff.
    intros [Hin|Hin]; [now apply Hw|].
    unfold scheduled_by in Hin.
    destruct (_ =? _)%nat; [destruct Hin|].
    destruct Hin as [<-|[]]. cbn. lia.
  - rewrite elapse_timers, elapse_now, filter_In.
    intros [_ Hlt]. now apply Z.ltb_lt in Hlt.
Qed.

End AltairSteps.

(** ** Altair: what a whole trace leaves pending and what it has sent *)

Section AltairTraces.
Import Altair.

Lemma run_timers (es : list Event) (w : World) :
  all_waiting w ->
  timers (run es w) =
  filter (waiting_at (now w + elapsed es)) (timers w ++ schedule es (now w)).
Proof.
  revert w. induction es as [|[tc|ms] es IH]; intros w Hw.
  - cbn. rewrite app_nil_r, filter_all; [reflexivity|].
    intros tm Hin. apply Z.ltb_lt. specialize (Hw tm Hin). lia.
  - change (run (Toolcall tc :: es) w) with (run es (onToolCall tc w)).
    rewrite IH by apply (all_waiting_step w (Toolcall tc) Hw).
    rewrite onToolCall_timers, onToolCall_now. cbn [schedule elapsed].
    now rewrite app_assoc.
  - change (run (Elapse ms :: es) w) with (run es (elapse ms w)).
    rewrite IH by apply (all_waiting_step w (Elapse ms) Hw).
    rewrite elapse_timers, elapse_now. cbn [schedule elapsed].
    rewrite Z.add_assoc, !filter_app. f_equal.
    apply filter_absorb. intros tm _ H.
    unfold waiting_at in *. apply Z.ltb_lt in H. apply Z.ltb_lt.
    pose proof (elapsed_nonneg es). lia.
Qed.

Lemma ready_split (t t' : Z) (l : list Timer) :
  t <= t' ->
  Permutation (filter (ready_at t') l)
              (filter (ready_at t) l ++
               filter (ready_at t') (filter (waiting_at t) l)).
Proof.
  intros Hle.
  rewrite (filter_split_perm (ready_at t) (filter (ready_at t') l)) at 1.
  apply Permutation_app.
  - rewrite filter_absorb; [reflexivity|].
    intros tm _ H. unfold ready_at in *.
    apply Z.leb_le in H. apply Z.leb_le. lia.
  - rewrite filter_swap.
    rewrite (filter_ext (fun x => negb (ready_at t x)) (waiting_at t));
      [reflexivity|].
    intros tm. symmetry. apply waiting_not_ready.
Qed.

Lemma run_sent (es : list Event) (w : World) :
  all_waiting w ->
  Permutation
    (sent (run es w))
    (sent w ++
     map response_to
       (filter (ready_at (now w + elapsed es))
               (timers w ++ schedule es (now w)))).
Proof.
  revert w. induction es as [|[tc|ms] es IH]; intros w Hw.
  - cbn. rewrite app_nil_r, filter_none; [now rewrite app_nil_r|].
    intros tm Hin. apply Z.leb_gt. specialize (Hw tm Hin). lia.
  - change (run (Toolcall tc :: es) w) with (run es (onToolCall tc w)).
    rewrite IH by apply (all_waiting_step w (Toolcall tc) Hw).
    rewrite onToolCall_timers, onToolCall_now, onToolCall_sent.
    cbn [schedule elapsed]. now rewrite app_assoc.
  - change (run (Elapse ms :: es) w) with (run es (elapse ms w)).
    rewrite IH by apply (all_waiting_step w (Elapse ms) Hw).
    rewrite elapse_timers, elapse_now, elapse_sent. cbn [schedule elapsed].
    rewrite Z.add_assoc, !filter_app, !map_app, <- !app_assoc.
    apply Permutation_app_head. rewrite !app_assoc.
    apply Permutation_app_tail. rewrite <- map_app.
    apply Permutation_map. symmetry. apply ready_split.
    pose proof (elapsed_nonneg es). lia.
Qed.

(** The ids of the calls a schedule will answer are the ids observed. *)
Lemma schedule_ids (es : list Event) (t : Z) :
  flat_map (fun tm => map fc_id (functionCalls (captured tm))) (schedule es t)
  = observed es.
Proof.
  revert t. induction es as [|[tc|ms] es IH]; intros t; cbn.
  - reflexivity.
  - rewrite flat_map_app, IH. f_equal.
    unfold scheduled_by. destruct (functionCalls tc) eqn:E; cbn;
      [reflexivity | now rewrite E, app_nil_r].
  - apply IH.
Qed.

Lemma answer_ids (tc : ToolCall) :
  map id (functionResponses (answer tc)) = map fc_id (functionCalls tc).
Proof. unfold answer; cbn. rewrite map_map. reflexivity. Qed.

Lemma answered_of_fired (l : list Timer) :
  flat_map (fun m => map id (functionResponses m)) (map response_to l) =
  flat_map (fun tm => map fc_id (functionCalls (captured tm))) l.
Proof.
  induction l as [|tm l IH]; [reflexivity|].
  cbn [map flat_map]. unfold response_to at 1. now rewrite answer_ids, IH.
Qed.

(** Conservation: from the initial world, the responses sent so far
    together with those still scheduled account for exactly the calls
    observed. *)
Lemma answered_pending_observed (es : list Event) :
  Permutation (answered (run es initial) ++ pending (run es initial))
              (observed es).
Proof.
  unfold answered, pending.
  rewrite (Permutation_flat_map _ (run_sent es initial all_waiting_initial)).
  rewrite (run_timers es initial all_waiting_initial).
  cbn [sent timers now initial app].
  rewrite answered_of_fired, <- flat_map_app.
  rewrite <- (schedule_ids es 0).
  apply Permutation_flat_map. symmetry.
  rewrite (filter_split_perm (ready_at (0 + elapsed es)) (schedule es 0)) at 1.
  apply Permutation_app_head.
  rewrite (filter_ext (fun x => negb (ready_at (0 + elapsed es) x))
                      (waiting_at (0 + elapsed es))); [reflexivity|].
  intros tm. symmetry. apply waiting_not_ready.
Qed.

End AltairTraces.

(** ** Altair: every delivered call is answered *)

Section AltairAnswers.
Import Altair.

Lemma schedule_app (es1 es2 : list Event) (t : Z) :
  schedule (es1 ++ es2) t = schedule es1 t ++ schedule es2 (t + elapsed es1).
Proof.
  revert t. induction es1 as [|[tc|ms] es IH]; intros t; cbn.
  - now rewrite Z.add_0_r.
  - now rewrite IH, app_assoc.
  - now rewrite IH, Z.add_assoc.
Qed.

Lemma counts_balance (es : list Event) (X : string) :
  (count_occ string_dec (answered (run es initial)) X +
   count_occ string_dec (pending (run es initial)) X =
   count_occ string_dec (observed es) X)%nat.
Proof.
  rewrite <- count_occ_app.
  apply (proj1 (Permutation_count_occ string_dec _ _)).
  apply answered_pending_observed.
Qed.

Lemma answered_le_observed (es : list Event) (X : string) :
  (count_occ string_dec (answered (run es initial)) X <=
   count_occ string_dec (observed es) X)%nat.
Proof. pose proof (counts_balance es X). lia. Qed.

(** A non-empty batch has its answer on the wire once 200 ms have passed,
    whatever else the trace contains. *)
Lemma batch_answer_sent (before after : list Event) (tc : ToolCall) :
  functionCalls tc <> [] ->
  200 <= elapsed after ->
  In (answer tc) (sent (run (before ++ Toolcall tc :: after) initial)).
Proof.
  intros Hne Hlate.
  set (trace := before ++ Toolcall tc :: after).
  apply (Permutation_in _
           (Permutation_sym (run_sent trace initial all_waiting_initial))).
  cbn [sent timers now initial app].
  change (answer tc)
    with (response_to {| due := 0 + elapsed before + 200; captured := tc |}).
  apply in_map, filter_In. split.
  - unfold trace. rewrite schedule_app. cbn [schedule].
    apply in_or_app. right. apply in_or_app. left.
    unfold scheduled_by. destruct (functionCalls tc); [congruence|].
    now left.
  - unfold ready_at, trace; cbn [due]. apply Z.leb_le.
    rewrite elapsed_app. cbn [elapsed]. lia.
Qed.

Lemma call_response_sent (before after : list Event) (tc : ToolCall)
  (fc : LiveFunctionCall) :
  In fc (functionCalls tc) ->
  200 <= elapsed after ->
  In {| response := success; id := fc_id fc |}
     (all_responses (run (before ++ Toolcall tc :: after) initial)).
Proof.
  intros Hin Hlate. unfold all_responses. apply in_flat_map.
  exists (answer tc). split.
  - apply batch_answer_sent; [|exact Hlate].
    intros E. rewrite E in Hin. destruct Hin.
  - unfold answer; cbn [functionResponses].
    apply (in_map (fun fc => {| response := success; id := fc_id fc |})).
    exact Hin.
Qed.

Lemma answered_ids_of_responses (w : World) :
  answered w = map id (all_responses w).
Proof.
  unfold answered, all_responses.
  induction (sent w) as [|m l IH]; cbn; [reflexivity|].
  now rewrite map_app, IH.
Qed.

(** Whatever is sent is the fixed success payload. *)
Lemma every_response_is_success (es : list Event) (r : LiveFunctionResponse) :
  In r (all_responses (run es initial)) -> response r = success.
Proof.
  unfold all_responses. rewrite in_flat_map. intros [m [Hm Hr]].
  apply (Permutation_in _ (run_sent es initial all_waiting_initial)) in Hm.
  cbn [sent initial app] in Hm. apply in_map_iff in Hm.
  destruct Hm as [tm [<- _]].
  unfold response_to, answer in Hr; cbn [functionResponses] in Hr.
  apply in_map_iff in Hr. destruct Hr as [fc [<- _]]. reflexivity.
Qed.

Lemma onToolCall_handler (tc : ToolCall) (w : World) :
  setJSONString_calls (onToolCall tc w) =
  setJSONString_calls w ++
  match handled_call tc with
  | Some fc => [Json.get "json_graph" (fc_args fc)]
  | None => []
  end.
Proof.
  unfold onToolCall, handled_call.
  destruct (find _ _); destruct (_ =? _)%nat; cbn;
    rewrite ?app_nil_r; reflexivity.
Qed.

Lemma onToolCall_jsonString (tc : ToolCall) (w : World) :
  jsonString (onToolCall tc w) =
  match handled_call tc with
  | Some fc => Json.get "json_graph" (fc_args fc)
  | None => jsonString w
  end.
Proof.
  unfold onToolCall, handled_call.
  destruct (find _ _); destruct (_ =? _)%nat; reflexivity.
Qed.

Lemma handled_call_Some (tc : ToolCall) (fc : LiveFunctionCall) :
  handled_call tc = Some fc ->
  In fc (functionCalls tc) /\ fc_name fc = name declaration.
Proof.
  unfold handled_call. intros H. apply find_some in H.
  destruct H as [Hin Hn]. split; [exact Hin|]. now apply String.eqb_eq.
Qed.

Lemma handled_call_None (tc : ToolCall) :
  handled_call tc = None <->
  forall fc, In fc (functionCalls tc) -> fc_name fc <> name declaration.
Proof.
  unfold handled_call. split.
  - intros H fc Hin. apply (find_none _ _ H) in Hin.
    now apply String.eqb_neq.
  - intros H. destruct (find _ _) as [fc|] eqn:E; [|reflexivity].
    apply find_some in E. destruct E as [Hin Hn].
    apply String.eqb_eq in Hn. now apply H in Hin.
Qed.

End AltairAnswers.

(** C1: for every ToolCall batch delivered to [onToolCall], once 200 ms
    have passed the batch's ToolResponse has been sent: it holds one
    response per call, in order, each carrying its call's id; at no time
    are there more responses with some id than calls delivered with that
    id, and a call whose id no other call uses has exactly one response. *)
Theorem every_call_answered_exactly_once
  (before after : list Altair.Event) (tc : Altair.ToolCall) :
  200 <= Altair.elapsed after ->
  let trace := before ++ Altair.Toolcall tc :: after in
  let w := Altair.run trace Altair.initial in
  (Altair.functionCalls tc <> [] -> In (Altair.answer tc) (Altair.sent w)) /\
  map Altair.id (Altair.functionResponses (Altair.answer tc)) =
    map Altair.fc_id (Altair.functionCalls tc) /\
  (forall fc, In fc (Altair.functionCalls tc) ->
     In {| Altair.response := Altair.success; Altair.id := Altair.fc_id fc |}
        (Altair.all_responses w)) /\
  (forall X,
     (count_occ string_dec (Altair.answered w) X <=
      count_occ string_dec (Altair.observed trace) X)%nat) /\
  (forall fc, In fc (Altair.functionCalls tc) ->
     count_occ string_dec (Altair.observed trace) (Altair.fc_id fc) = 1%nat ->
     count_occ string_dec (Altair.answered w) (Altair.fc_id fc) = 1%nat).
Proof.
  intros Hlate trace w.
  split; [intros Hne; now apply batch_answer_sent|].
  split; [apply answer_ids|].
  split; [intros fc Hin; now apply call_response_sent|].
  split; [intros X; apply answered_le_observed|].
  intros fc Hin Hone.
  pose proof (answered_le_observed trace (Altair.fc_id fc)) as Hle.
  fold w in Hle. rewrite Hone in Hle.
  assert (Hpos : (count_occ string_dec (Altair.answered w) (Altair.fc_id fc) > 0)%nat).
  { apply count_occ_In. rewrite answered_ids_of_responses.
    pose proof (call_response_sent before after tc fc Hin Hlate) as Hr.
    apply (in_map Altair.id) in Hr. exact Hr. }
  lia.
Qed.

Lemma every_call_answered_exactly_once_witness :
  let tc := {| Altair.functionCalls := [chart_call; unregistered_call] |} in
  let w := Altair.run [Altair.Toolcall tc; Altair.Elapse 120; Altair.Elapse 80]
                      Altair.initial in
  In (Altair.answer tc) (Altair.sent w) /\
  count_occ string_dec (Altair.answered w) "42"%string = 1%nat.
Proof.
  intros tc w.
  destruct (every_call_answered_exactly_once []
              [Altair.Elapse 120; Altair.Elapse 80] tc ltac:(cbn; lia))
    as [Hsent [_ [_ [_ Hone]]]].
  split.
  - apply Hsent. discriminate.
  - apply (Hone unregistered_call); [right; left; reflexivity | reflexivity].
Defined.

(** C3: at every point of every trace, each response that has been sent
    carries the id of a call delivered earlier in the trace, responses with
    a given id never outnumber the calls delivered with it, and an id that
    was never delivered is never answered. *)
Theorem responses_only_for_observed_calls (es : list Altair.Event) :
  let w := Altair.run es Altair.initial in
  (forall r, In r (Altair.all_responses w) ->
             In (Altair.id r) (Altair.observed es)) /\
  (forall X,
     (count_occ string_dec (Altair.answered w) X <=
      count_occ string_dec (Altair.observed es) X)%nat) /\
  (forall X, ~ In X (Altair.observed es) -> ~ In X (Altair.answered w)).
Proof.
  intros w.
  assert (Hsub : forall X, In X (Altair.answered w) -> In X (Altair.observed es)).
  { intros X HX.
    apply (Permutation_in _ (answered_pending_observed es)).
    apply in_or_app. now left. }
  split; [|split].
  - intros r Hr. apply Hsub. rewrite answered_ids_of_responses.
    now apply in_map.
  - intros X. apply answered_le_observed.
  - intros X Hn HX. apply Hn, Hsub, HX.
Qed.

Example two_batches_interleaved :
  let a := {| Altair.functionCalls := [chart_call] |} in
  let b := {| Altair.functionCalls := [unregistered_call] |} in
  let w := Altair.run [Altair.Toolcall a; Altair.Elapse 150;
                       Altair.Toolcall b; Altair.Elapse 50] Altair.initial in
  Altair.answered w = ["7"%string] /\ Altair.pending w = ["42"%string] /\
  Altair.answered (Altair.elapse 150 w) = ["7"%string; "42"%string].
Proof. vm_compute. repeat split. Qed.

(** C2 (as amended): a call whose name is not the declared chart tool is
    answered, for its id, with the same success payload as any other call
    (no error result is ever sent); the chart handler is invoked only on a
    call named like the declaration, so a batch without such a call invokes
    no handler and leaves the component state unchanged. *)
Theorem unregistered_call_answered_with_success
  (before after : list Altair.Event) (tc : Altair.ToolCall)
  (fc : Altair.LiveFunctionCall) :
  In fc (Altair.functionCalls tc) ->
  Altair.fc_name fc <> Altair.name Altair.declaration ->
  200 <= Altair.elapsed after ->
  let w := Altair.run (before ++ Altair.Toolcall tc :: after) Altair.initial in
  In {| Altair.response := Altair.success; Altair.id := Altair.fc_id fc |}
     (Altair.all_responses w) /\
  (forall r, In r (Altair.all_responses w) ->
             Altair.response r = Altair.success /\
             Altair.is_error_result r = false) /\
  Altair.handled_call tc <> Some fc /\
  (forall w0,
     (forall g, In g (Altair.functionCalls tc) ->
                Altair.fc_name g <> Altair.name Altair.declaration) ->
     Altair.setJSONString_calls (Altair.onToolCall tc w0) =
       Altair.setJSONString_calls w0 /\
     Altair.jsonString (Altair.onToolCall tc w0) = Altair.jsonString w0).
Proof.
  intros Hin Hname Hlate w.
  split; [now apply call_response_sent|].
  split.
  { intros r Hr. apply every_response_is_success in Hr.
    split; [exact Hr|]. unfold Altair.is_error_result. now rewrite Hr. }
  split.
  { intros H. apply handled_call_Some in H. now destruct H. }
  intros w0 Hnone. apply handled_call_None in Hnone.
  rewrite onToolCall_handler, onToolCall_jsonString, Hnone.
  now rewrite app_nil_r.
Qed.

Lemma unregistered_call_answered_with_success_witness :
  let tc := {| Altair.functionCalls := [unregistered_call] |} in
  In {| Altair.response := Altair.success; Altair.id := "42"%string |}
     (Altair.all_responses
        (Altair.run [Altair.Toolcall tc; Altair.Elapse 200] Altair.initial)) /\
  Altair.setJSONString_calls (Altair.onToolCall tc Altair.initial) = [].
Proof.
  intros tc.
  destruct (unregistered_call_answered_with_success []
              [Altair.Elapse 200] tc unregistered_call
              (or_introl eq_refl) ltac:(discriminate) ltac:(cbn; lia))
    as [Hsent [_ [_ Hquiet]]].
  split; [exact Hsent|].
  apply (Hquiet Altair.initial).
  intros g [<-|[]]. discriminate.
Defined.

(** C2 as stated fails: FunctionCall{id:"42", name:"unregistered"} is
    answered with {output: {success: true}}, not with an error result. *)
Lemma unregistered_call_gets_no_error_result :
  let tc := {| Altair.functionCalls := [unregistered_call] |} in
  let w := Altair.run [Altair.Toolcall tc; Altair.Elapse 200] Altair.initial in
  Altair.sent w =
    [ {| Altair.functionResponses :=
           [ {| Altair.response :=
                  Json.JObject
                    [("output"%string,
                      Json.JObject [("success"%string, Json.JBool true)])];
                Altair.id := "42"%string |} ] |} ] /\
  ~ (exists r, In r (Altair.all_responses w) /\
               Altair.id r = "42"%string /\
               Altair.is_error_result r = true).
Proof.
  cbv zeta. split; [reflexivity|].
  intros [r [Hr [_ He]]]. vm_compute in Hr.
  destruct Hr as [<-|[]]. discriminate He.
Qed.

(** ** Altair: the session configuration *)

(** C5: every function declaration in the configured tool list (the
    [declaration] of lines 95-109 and the imported [sendEmailDeclaration])
    has a name, a description and an object-typed parameter schema with
    properties and a required list; the declared names are distinct; and
    the chart handler is selected by comparing a call's name with the
    declaration's name: it runs exactly when the batch has a call of that
    name, on the first such call. *)
Theorem declarations_have_schema_and_match_by_name :
  let c := Altair.config ToolDeclarations.sendEmailDeclaration in
  (forall d, In d (Altair.declared_functions c) ->
             Altair.has_declared_shape d = true) /\
  map Altair.name (Altair.declared_functions c) =
    ["render_altair"%string; "send_email"%string] /\
  In Altair.declaration (Altair.declared_functions c) /\
  (forall tc w,
     (exists fc, In fc (Altair.functionCalls tc) /\
                 Altair.fc_name fc = Altair.name Altair.declaration) <->
     (exists fc, Altair.handled_call tc = Some fc /\
                 Altair.fc_name fc = Altair.name Altair.declaration /\
                 Altair.setJSONString_calls (Altair.onToolCall tc w) =
                   Altair.setJSONString_calls w ++
                   [Json.get "json_graph" (Altair.fc_args fc)])).
Proof.
  cbv zeta. split; [|split; [|split]].
  - intros d [<-|[<-|[]]]; reflexivity.
  - reflexivity.
  - now left.
  - intros tc w. split.
    + intros [fc [Hin Hn]].
      destruct (Altair.handled_call tc) as [g|] eqn:E.
      * exists g. split; [reflexivity|].
        split; [now apply (handled_call_Some tc g)|].
        now rewrite onToolCall_handler, E.
      * exfalso. exact (proj1 (handled_call_None tc) E fc Hin Hn).
    + intros [fc [E [Hn _]]]. exists fc.
      split; [now apply (handled_call_Some tc fc) | exact Hn].
Qed.

(** C6: the configuration the component supplies for the session holds a
    model identifier, the four generation parameters (temperature, top-k,
    top-p, max output tokens), a system instruction text and the tool list
    with the declared functions. *)
Theorem session_config_contents
  (sendEmailDeclaration : Altair.FunctionDeclaration) (w : Altair.World) :
  exists c g,
    Altair.live_config (Altair.mount sendEmailDeclaration w) = Some c /\
    Altair.model c = "models/gemini-2.0-flash-exp"%string /\
    Altair.generationConfig c = Some g /\
    Altair.temperature g = Some {| Altair.digits := 7; Altair.scale := 1 |} /\
    Altair.topK g = Some 40 /\
    Altair.topP g = Some {| Altair.digits := 95; Altair.scale := 2 |} /\
    Altair.maxOutputTokens g = Some 2048 /\
    Altair.systemInstruction c =
      Some {| Altair.parts := [ {| Altair.text := Altair.system_text |} ] |} /\
    Altair.system_text <> ""%string /\
    Altair.tools c =
      [ Altair.googleSearch;
        Altair.functionDeclarations
          [Altair.declaration; sendEmailDeclaration] ] /\
    Altair.declared_functions c = [Altair.declaration; sendEmailDeclaration].
Proof.
  eexists. eexists. split; [reflexivity|].
  repeat (split; [reflexivity|]).
  split; [discriminate|]. split; reflexivity.
Qed.

(** ** ProtocolCodec: reading back printed values *)

Section JsonTextFacts.
Import Json JsonText.
Local Open Scope char_scope.

Lemma json_induction (P : json -> Prop)
  (Hnull : P JNull)
  (Hbool : forall b, P (JBool b))
  (Hnumber : forall n, P (JNumber n))
  (Hstring : forall s, P (JString s))
  (Harray : forall vs, Forall P vs -> P (JArray vs))
  (Hobject : forall ms, Forall (fun kv => P (snd kv)) ms -> P (JObject ms)) :
  forall v, P v.
Proof.
  fix IH 1. intros [ | b | n | s | vs | ms].
  - exact Hnull.
  - apply Hbool.
  - apply Hnumber.
  - apply Hstring.
  - apply Harray. induction vs as [|v vs IHvs]; constructor.
    + apply IH.
    + exact IHvs.
  - apply Hobject. induction ms as [|[k v] ms IHms]; constructor.
    + apply IH.
    + exact IHms.
Qed.

(** What [ends_number] says of the next character. *)
Lemma ends_number_cons (c : ascii) (r : text) :
  ends_number (c :: r) = true ->
  digit_of_char c = None /\ c <> "." /\ is_exponent_mark c = false.
Proof.
  unfold ends_number. destruct (digit_of_char c); [discriminate|].
  intros H. apply negb_true_iff, orb_false_iff in H. destruct H as [Hp He].
  repeat split; [|exact He].
  intros ->. discriminate.
Qed.

Lemma read_print_uint (u : Decimal.uint) (rest : text) :
  match rest with [] => True | c :: _ => digit_of_char c = None end ->
  read_uint (print_uint u ++ rest) = (u, rest).
Proof.
  intros Hrest. induction u; cbn [print_uint app read_uint digit_of_char];
    try (rewrite IHu; reflexivity).
  destruct rest as [|c r]; [reflexivity|].
  cbn [read_uint]. now rewrite Hrest.
Qed.

Lemma to_uint_not_nil (p : positive) : Pos.to_uint p <> Decimal.Nil.
Proof. apply DecimalPos.Unsigned.to_uint_nonnil. Qed.

Lemma read_digits_print (sign : Decimal.uint -> Decimal.int)
  (u : Decimal.uint) (rest : text) :
  u <> Decimal.Nil ->
  match rest with [] => True | c :: _ => digit_of_char c = None end ->
  read_digits sign (print_uint u ++ rest) = Some (Z.of_int (sign u), rest).
Proof.
  intros Hu Hrest. unfold read_digits. rewrite read_print_uint by exact Hrest.
  destruct u; [congruence | reflexivity ..].
Qed.

Lemma to_int_digits (z : Z) :
  exists u, u <> Decimal.Nil /\
            (Z.to_int z = Decimal.Pos u \/ Z.to_int z = Decimal.Neg u).
Proof.
  destruct z as [|p|p]; cbn.
  - exists (Decimal.D0 Decimal.Nil). split; [discriminate | now left].
  - exists (Pos.to_uint p). split; [apply to_uint_not_nil | now left].
  - exists (Pos.to_uint p). split; [apply to_uint_not_nil | now right].
Qed.

Lemma parse_integer_unsigned (u : Decimal.uint) (rest : text) :
  u <> Decimal.Nil ->
  parse_integer (print_uint u ++ rest) =
  read_digits Decimal.Pos (print_uint u ++ rest).
Proof. intros Hu. destruct u; [congruence | reflexivity ..]. Qed.

Lemma parse_print_integer (z : Z) (rest : text) :
  match rest with [] => True | c :: _ => digit_of_char c = None end ->
  parse_integer (print_integer z ++ rest) = Some (z, rest).
Proof.
  intros Hrest. unfold print_integer.
  pose proof (DecimalZ.of_to z) as Hz.
  destruct (to_int_digits z) as [u [Hu [E|E]]]; rewrite E in *.
  - rewrite parse_integer_unsigned by exact Hu.
    rewrite read_digits_print by assumption. now rewrite Hz.
  - cbn [app parse_integer].
    rewrite read_digits_print by assumption. now rewrite Hz.
Qed.

(** The first character of a printed integer: a digit or the minus sign. *)
Lemma print_integer_head (z : Z) :
  exists c t, print_integer z = c :: t /\
              (c = "-" \/ exists d, digit_of_char c = Some d).
Proof.
  unfold print_integer.
  destruct (to_int_digits z) as [u [Hu [E|E]]]; rewrite E.
  - destruct u; [congruence|..]; eexists; eexists;
      (split; [reflexivity|]); right; eexists; reflexivity.
  - eexists; eexists; (split; [reflexivity|]). now left.
Qed.

Lemma parse_signed_integer (z : Z) (rest : text) :
  match rest with [] => True | c :: _ => digit_of_char c = None end ->
  parse_signed (print_integer z ++ rest) = Some (z, rest).
Proof.
  intros Hrest. rewrite <- (parse_print_integer z rest Hrest).
  destruct (print_integer_head z) as [c [t [-> Hc]]]. cbn [app].
  destruct Hc as [-> | [d Hd]]; [reflexivity|].
  destruct c as [[] [] [] [] [] [] [] []]; try reflexivity; discriminate.
Qed.

Lemma parse_fraction_absent (l : text) :
  match l with [] => True | c :: _ => c <> "." end ->
  parse_fraction l = Some (Decimal.Nil, l).
Proof.
  destruct l as [|c r]; [reflexivity|]. intros Hc.
  destruct c as [[] [] [] [] [] [] [] []]; try reflexivity; congruence.
Qed.

Lemma parse_exponent_absent (l : text) :
  match l with [] => True | c :: _ => is_exponent_mark c = false end ->
  parse_exponent l = Some (0%Z, l).
Proof.
  destruct l as [|c r]; [reflexivity|]. intros Hc.
  unfold parse_exponent. now rewrite Hc.
Qed.

Lemma app_no_fraction (u : Decimal.uint) : Decimal.app u Decimal.Nil = u.
Proof.
  apply DecimalFacts.app_nil_r.
Qed.

(** Sign and digits of the mantissa, then whatever follows. *)
Lemma parse_number_mantissa (sign : Decimal.uint -> Decimal.int)
  (u : Decimal.uint) (tail : text) :
  u <> Decimal.Nil ->
  match tail with [] => True | c :: _ => digit_of_char c = None /\ c <> "." end ->
  (sign = Decimal.Pos \/ sign = Decimal.Neg) ->
  parse_number
    (match sign (Decimal.Nil) with
     | Decimal.Pos _ => print_uint u
     | Decimal.Neg _ => "-" :: print_uint u
     end ++ tail) =
  match parse_exponent tail with
  | None => None
  | Some (e, rest) =>
      Some ({| mantissa := Z.of_int (sign u); exponent := e |}, rest)
  end.
Proof.
  intros Hu Htail Hsign.
  assert (Hread : read_uint (print_uint u ++ tail) = (u, tail)).
  { apply read_print_uint. destruct tail; [exact I | tauto]. }
  assert (Hfrac : parse_fraction tail = Some (Decimal.Nil, tail)).
  { apply parse_fraction_absent. destruct tail; [exact I | tauto]. }
  assert (Hrest :
    (let (whole, l1) := read_uint (print_uint u ++ tail) in
     match whole with
     | Decimal.Nil => None
     | _ =>
         match parse_fraction l1 with
         | None => None
         | Some (frac, l2) =>
             match parse_exponent l2 with
             | None => None
             | Some (e, l3) =>
                 Some ({| mantissa := Z.of_int (sign (Decimal.app whole frac));
                          exponent := (e - Z.of_nat (Decimal.nb_digits frac))%Z |},
                       l3)
             end
         end
     end) =
    match parse_exponent tail with
    | None => None
    | Some (e, rest) =>
        Some ({| mantissa := Z.of_int (sign u); exponent := e |}, rest)
    end).
  { rewrite Hread, Hfrac, app_no_fraction.
    destruct (parse_exponent tail) as [[e rest]|];
      [| destruct u; [congruence | reflexivity ..]].
    cbn [Decimal.nb_digits Z.of_nat]. rewrite Z.sub_0_r.
    destruct u; [congruence | reflexivity ..]. }
  destruct Hsign as [-> | ->]; cbn [app].
  - rewrite <- Hrest. unfold parse_number.
    destruct u; [congruence | reflexivity ..].
  - rewrite <- Hrest. reflexivity.
Qed.

Lemma parse_print_number (n : number) (rest : text) :
  ends_number rest = true ->
  parse_number (print_number n ++ rest) = Some (n, rest).
Proof.
  intros Hrest. destruct n as [m e]. unfold print_number.
  cbn [mantissa exponent]. rewrite <- app_assoc.
  assert (Hnext : match rest with
                  | [] => True
                  | c :: _ => digit_of_char c = None /\ c <> "." /\
                              is_exponent_mark c = false
                  end).
  { destruct rest as [|c r]; [exact I|]. exact (ends_number_cons c r Hrest). }
  assert (Htail :
    let tail := (if (e =? 0)%Z then [] else "e" :: print_integer e) ++ rest in
    match tail with [] => True | c :: _ => digit_of_char c = None /\ c <> "." end
    /\ parse_exponent tail = Some (e, rest)).
  { destruct (Z.eqb_spec e 0) as [-> | He]; cbn [app].
    - split.
      + destruct rest; [exact I | tauto].
      + apply parse_exponent_absent. destruct rest; [exact I | tauto].
    - split; [split; [reflexivity | discriminate]|].
      cbn [parse_exponent is_exponent_mark Ascii.eqb Bool.eqb orb].
      cbn. apply parse_signed_integer. destruct rest; [exact I | tauto]. }
  cbn zeta in Htail. destruct Htail as [Htail Hexp].
  pose proof (DecimalZ.of_to m) as Hm. unfold print_integer at 1.
  destruct (to_int_digits m) as [u [Hu [E|E]]]; rewrite E in *.
  - rewrite (parse_number_mantissa Decimal.Pos u _ Hu Htail (or_introl eq_refl)).
    now rewrite Hexp, Hm.
  - rewrite (parse_number_mantissa Decimal.Neg u _ Hu Htail (or_intror eq_refl)).
    now rewrite Hexp, Hm.
Qed.

End JsonTextFacts.

Section JsonTextValues.
Import Json JsonText.
Local Open Scope char_scope.

(** One character of a string, written and read back. *)
Lemma unescape_escape_char (c : ascii) (tail : text) :
  unescape (escape_char c ++ tail) = prepend [c] (unescape tail).
Proof.
  destruct c as [[] [] [] [] [] [] [] []]; reflexivity.
Qed.

Lemma unescape_escape (l rest : text) :
  unescape (escape l ++ dquote :: rest) = Some (l, rest).
Proof.
  induction l as [|c l IH]; [reflexivity|].
  unfold escape in *. cbn [flat_map]. rewrite <- app_assoc.
  now rewrite unescape_escape_char, IH.
Qed.

Lemma parse_print_string (s : string) (rest : text) :
  parse_string (print_string s ++ rest) = Some (s, rest).
Proof.
  unfold print_string, parse_string. cbn [app].
  rewrite Ascii.eqb_refl, <- app_assoc. cbn [app].
  now rewrite unescape_escape, string_of_list_ascii_of_string.
Qed.

(** The first character of a printed number. *)
Lemma print_number_head (n : number) :
  exists c t, print_number n = c :: t /\ opens_value c /\
              c <> "n" /\ c <> "t" /\ c <> "f" /\ c <> "[" /\ c <> "{" /\
              c <> dquote.
Proof.
  unfold print_number.
  destruct (print_integer_head (mantissa n)) as [c [t [-> Hc]]].
  exists c. eexists. split; [reflexivity|].
  destruct Hc as [-> | [d Hd]].
  - unfold opens_value, dquote. repeat split; discriminate.
  - destruct c as [[] [] [] [] [] [] [] []]; try discriminate Hd;
      unfold opens_value, dquote; repeat split; discriminate.
Qed.

Lemma print_head (v : json) :
  exists c t, print v = c :: t /\ opens_value c.
Proof.
  destruct v as [ | [|] | n | s | vs | ms]; cbn [print].
  4: { destruct (print_number_head n) as [c [t [Hp [Hc _]]]].
       exists c, t. now split. }
  all: eexists; eexists; (split; [reflexivity|]);
       unfold opens_value, dquote; repeat split; discriminate.
Qed.

End JsonTextValues.

Section JsonTextRoundTrip.
Import Json JsonText.
Local Open Scope char_scope.

Lemma skip_space_head (c : ascii) (t : text) :
  is_space c = false -> skip_space (c :: t) = c :: t.
Proof. intros H. cbn [skip_space]. now rewrite H. Qed.

Lemma parse_value_scalar (fuel : nat) (c : ascii) (t : text) :
  is_space c = false ->
  c <> "n" -> c <> "t" -> c <> "f" -> c <> "[" -> c <> "{" ->
  parse_value (S fuel) (c :: t) =
  match parse_string (c :: t) with
  | Some (s, rest) => Some (JString s, rest)
  | None =>
      match parse_number (c :: t) with
      | Some (n, rest) => Some (JNumber n, rest)
      | None => None
      end
  end.
Proof.
  intros Hs Hn Ht Hf Ha Ho. cbn [parse_value].
  rewrite skip_space_head by exact Hs.
  destruct c as [[] [] [] [] [] [] [] []]; try reflexivity; congruence.
Qed.

Lemma parse_value_array (fuel : nat) (c : ascii) (t : text) :
  is_space c = false -> c <> "]" ->
  parse_value (S fuel) ("[" :: c :: t) =
  match parse_elements fuel (c :: t) with
  | Some (vs, rest) => Some (JArray vs, rest)
  | None => None
  end.
Proof.
  intros Hs Hc. cbn [parse_value].
  rewrite skip_space_head by reflexivity.
  rewrite skip_space_head by exact Hs.
  destruct c as [[] [] [] [] [] [] [] []]; try reflexivity; congruence.
Qed.

Lemma parse_value_object (fuel : nat) (c : ascii) (t : text) :
  is_space c = false -> c <> "}" ->
  parse_value (S fuel) ("{" :: c :: t) =
  match parse_members fuel (c :: t) with
  | Some (ms, rest) => Some (JObject ms, rest)
  | None => None
  end.
Proof.
  intros Hs Hc. cbn [parse_value].
  rewrite skip_space_head by reflexivity.
  rewrite skip_space_head by exact Hs.
  destruct c as [[] [] [] [] [] [] [] []]; try reflexivity; congruence.
Qed.

Lemma parse_string_not_quoted (c : ascii) (t : text) :
  c <> dquote -> parse_string (c :: t) = None.
Proof.
  intros Hc. unfold parse_string.
  destruct (Ascii.eqb c dquote) eqn:E; [|reflexivity].
  apply Ascii.eqb_eq in E. congruence.
Qed.

Lemma reads_back_number (n : number) : reads_back (JNumber n).
Proof.
  intros [|fuel] rest Hfuel Hrest; cbn in Hfuel; [lia|].
  pose proof (parse_print_number n rest Hrest) as Hnum.
  cbn [print]. destruct (print_number_head n) as [c [t [Hp [Ho Hc]]]].
  rewrite Hp in *. cbn [app] in *.
  rewrite parse_value_scalar by (try apply Ho; tauto).
  rewrite parse_string_not_quoted by tauto. now rewrite Hnum.
Qed.

Lemma reads_back_string (s : string) : reads_back (JString s).
Proof.
  intros [|fuel] rest Hfuel Hrest; cbn in Hfuel; [lia|].
  pose proof (parse_print_string s rest) as Hstr.
  cbn [print]. unfold print_string in *. cbn [app] in *.
  rewrite parse_value_scalar by (unfold dquote; (reflexivity || discriminate)).
  now rewrite Hstr.
Qed.

End JsonTextRoundTrip.

Section JsonTextLists.
Import Json JsonText.
Local Open Scope char_scope.

Lemma separated_cons (x : text) (xs : list text) :
  xs <> [] -> separated (x :: xs) = x ++ "," :: separated xs.
Proof. destruct xs; [congruence | reflexivity]. Qed.

Lemma parse_elements_print (vs : list json) :
  vs <> [] -> Forall reads_back vs ->
  forall fuel rest,
    (list_sum (map (fun v => S (size v)) vs) <= fuel)%nat ->
    parse_elements fuel (separated (map print vs) ++ "]" :: rest)
    = Some (vs, rest).
Proof.
  intros Hne Hall. induction Hall as [|v vs Hv Hvs IH]; [congruence|].
  intros [|fuel] rest Hfuel; cbn in Hfuel; [lia|].
  destruct vs as [|v' vs'].
  - cbn [map separated parse_elements].
    rewrite Hv; [reflexivity | lia | reflexivity].
  - change (map print (v :: v' :: vs'))
      with (print v :: map print (v' :: vs')).
    rewrite separated_cons by discriminate.
    rewrite <- app_assoc. cbn [app parse_elements].
    rewrite Hv; [| lia | reflexivity].
    rewrite skip_space_head by reflexivity.
    rewrite IH; [reflexivity | discriminate | cbn in *; lia].
Qed.

Lemma parse_members_with (g : string * json -> text)
  (ms : list (string * json)) :
  (forall k v, g (k, v) = print_string k ++ ":" :: print v) ->
  ms <> [] -> Forall (fun kv => reads_back (snd kv)) ms ->
  forall fuel rest,
    (list_sum (map (fun kv => S (size (snd kv))) ms) <= fuel)%nat ->
    parse_members fuel (separated (map g ms) ++ "}" :: rest)
    = Some (ms, rest).
Proof.
  intros Hg Hne Hall. induction Hall as [|[k v] ms Hv Hms IH]; [congruence|].
  intros [|fuel] rest Hfuel; cbn in Hfuel; [lia|].
  cbn [snd] in Hv.
  assert (Hkey : forall tail,
             skip_space (print_string k ++ tail) = print_string k ++ tail).
  { intros tail. unfold print_string. cbn [app].
    now apply skip_space_head. }
  destruct ms as [|m' ms'].
  - cbn [map separated parse_members]. rewrite Hg, <- app_assoc. cbn [app].
    rewrite Hkey, parse_print_string.
    rewrite skip_space_head by reflexivity.
    rewrite Hv; [reflexivity | lia | reflexivity].
  - change (map g ((k, v) :: m' :: ms'))
      with (g (k, v) :: map g (m' :: ms')).
    rewrite separated_cons by discriminate.
    rewrite Hg, <- !app_assoc. cbn [app parse_members].
    rewrite Hkey, parse_print_string.
    rewrite skip_space_head by reflexivity.
    rewrite Hv; [| lia | reflexivity].
    rewrite skip_space_head by reflexivity.
    rewrite IH; [reflexivity | discriminate | cbn in *; lia].
Qed.

Lemma parse_members_print (ms : list (string * json)) :
  ms <> [] -> Forall (fun kv => reads_back (snd kv)) ms ->
  forall fuel rest,
    (list_sum (map (fun kv => S (size (snd kv))) ms) <= fuel)%nat ->
    parse_members fuel
      (separated (map (fun kv => let '(k, v) := kv in
                                 print_string k ++ ":" :: print v) ms)
       ++ "}" :: rest)
    = Some (ms, rest).
Proof. apply parse_members_with. reflexivity. Qed.

Lemma separated_head (x : text) (xs : list text) (c : ascii) (t : text) :
  x = c :: t -> exists t', separated (x :: xs) = c :: t'.
Proof.
  intros ->. destruct xs; cbn [separated app]; eauto.
Qed.

Theorem parse_value_print (v : json) : reads_back v.
Proof.
  induction v as [ | b | z | s | vs IH | ms IH ] using json_induction.
  - intros [|fuel] rest Hfuel _; cbn in Hfuel; [lia | reflexivity].
  - intros [|fuel] rest Hfuel _; cbn in Hfuel; [lia|].
    destruct b; reflexivity.
  - apply reads_back_number.
  - apply reads_back_string.
  - intros [|fuel] rest Hfuel Hrest; cbn [size] in Hfuel; [lia|].
    destruct vs as [|v vs]; [reflexivity|].
    cbn [print app]. rewrite <- app_assoc. cbn [app].
    destruct (print_head v) as [c [t [Hp Hc]]].
    destruct (separated_head (print v) (map print vs) c t Hp) as [t' Ht'].
    pose proof (parse_elements_print (v :: vs) ltac:(discriminate) IH
                  fuel rest ltac:(lia)) as Hel.
    cbn [map] in Hel |- *. rewrite Ht' in *. cbn [app] in *.
    rewrite parse_value_array by apply Hc. now rewrite Hel.
  - intros [|fuel] rest Hfuel Hrest; cbn [size] in Hfuel; [lia|].
    destruct ms as [|[k v] ms]; [reflexivity|].
    pose proof (parse_members_print ((k, v) :: ms) ltac:(discriminate) IH
                  fuel rest ltac:(lia)) as Hel.
    cbn [print app]. rewrite <- app_assoc. cbn [app].
    set (g := fun kv : string * json =>
                let '(k, v) := kv in print_string k ++ ":" :: print v) in *.
    destruct (separated_head (g (k, v)) (map g ms) dquote
                ((escape (list_ascii_of_string k) ++ [dquote]) ++
                 ":" :: print v) eq_refl) as [t' Ht'].
    change (map g ((k, v) :: ms)) with (g (k, v) :: map g ms) in *.
    rewrite Ht' in Hel |- *. cbn [app] in Hel |- *.
    rewrite parse_value_object by (unfold dquote; (reflexivity || discriminate)).
    now rewrite Hel.
Qed.

End JsonTextLists.

Section JsonTextFuel.
Import Json JsonText.
Local Open Scope char_scope.
Local Open Scope nat_scope.

Lemma length_separated (xs : list text) :
  xs <> [] ->
  List.length (separated xs) + 1 =
  list_sum (map (fun x => S (List.length x)) xs).
Proof.
  induction xs as [|x xs IH]; [congruence|]. intros _.
  destruct xs as [|y ys].
  - cbn. lia.
  - rewrite separated_cons by discriminate.
    change (map (fun x => S (List.length x)) (x :: y :: ys))
      with (S (List.length x) ::
            map (fun x => S (List.length x)) (y :: ys)).
    cbn [list_sum fold_right]. rewrite length_app. cbn [List.length].
    specialize (IH ltac:(discriminate)). unfold list_sum in IH. lia.
Qed.

Lemma list_sum_map_le {A : Type} (f g : A -> nat) (l : list A) :
  Forall (fun a => f a <= g a) l ->
  list_sum (map f l) <= list_sum (map g l).
Proof.
  induction 1 as [|a l Ha _ IH]; cbn; [lia|]. unfold list_sum in IH. lia.
Qed.

Lemma size_le_print (v : json) : size v <= List.length (print v).
Proof.
  induction v as [ | b | z | s | vs IH | ms IH ] using json_induction.
  - cbn. lia.
  - destruct b; cbn; lia.
  - cbn [size print].
    destruct (print_number_head z) as [c [t [-> _]]]. cbn. lia.
  - cbn. lia.
  - cbn [size print List.length]. rewrite length_app. cbn [List.length].
    destruct vs as [|v vs]; [cbn; lia|].
    rewrite length_separated by discriminate. rewrite map_map.
    apply le_n_S, list_sum_map_le.
    apply Forall_impl with (2 := IH). intros a Ha. lia.
  - cbn [size print List.length]. rewrite length_app. cbn [List.length].
    destruct ms as [|m ms]; [cbn; lia|].
    rewrite length_separated by discriminate. rewrite map_map.
    apply le_n_S, list_sum_map_le.
    apply Forall_impl with (2 := IH). intros [k a] Ha. cbn [snd] in *.
    rewrite length_app. cbn [List.length]. lia.
Qed.

Theorem parse_print (v : json) : parse (print v) = Some v.
Proof.
  unfold parse.
  pose proof (parse_value_print v (S (List.length (print v))) []) as H.
  rewrite app_nil_r in H. rewrite H; [reflexivity | | reflexivity].
  pose proof (size_le_print v). lia.
Qed.

End JsonTextFuel.

(** ** ProtocolCodec: base64 *)

Section Base64Facts.
Import Base64.
Local Open Scope char_scope.

Lemma sextet_of_char_of_sextet (s : sextet) :
  sextet_of_char (char_of_sextet s) = Some s.
Proof. destruct s as [[[[[[] []] []] []] []] []]; reflexivity. Qed.

Lemma char_of_sextet_not_pad (s : sextet) :
  Ascii.eqb (char_of_sextet s) pad = false.
Proof. destruct s as [[[[[[] []] []] []] []] []]; reflexivity. Qed.

Lemma three_at_a_time {A : Type} (P : list A -> Prop) :
  P [] -> (forall a, P [a]) -> (forall a b, P [a; b]) ->
  (forall a b c l, P l -> P (a :: b :: c :: l)) ->
  forall l, P l.
Proof.
  intros H0 H1 H2 H3.
  fix IH 1. intros [|a [|b [|c l]]].
  - exact H0.
  - apply H1.
  - apply H2.
  - apply H3, IH.
Qed.

Theorem base64_decode_encode (l : list ascii) :
  decode (encode l) = Some l.
Proof.
  induction l as [ | a | a b | a b c l IH ] using three_at_a_time.
  - reflexivity.
  - destruct a as [a0 a1 a2 a3 a4 a5 a6 a7]. cbn [encode decode].
    rewrite !sextet_of_char_of_sextet. reflexivity.
  - destruct a as [a0 a1 a2 a3 a4 a5 a6 a7].
    destruct b as [b0 b1 b2 b3 b4 b5 b6 b7]. cbn [encode decode].
    rewrite !sextet_of_char_of_sextet, char_of_sextet_not_pad.
    reflexivity.
  - destruct a as [a0 a1 a2 a3 a4 a5 a6 a7].
    destruct b as [b0 b1 b2 b3 b4 b5 b6 b7].
    destruct c as [c0 c1 c2 c3 c4 c5 c6 c7]. cbn [encode decode].
    rewrite !sextet_of_char_of_sextet, !char_of_sextet_not_pad, IH.
    reflexivity.
Qed.

Example base64_of_Man :
  string_of_list_ascii (encode (list_ascii_of_string "Man")) = "TWFu"%string /\
  string_of_list_ascii (encode (list_ascii_of_string "Ma")) = "TWE="%string /\
  string_of_list_ascii (encode (list_ascii_of_string "M")) = "TQ=="%string /\
  decode (list_ascii_of_string "TQ=") = None.
Proof. repeat split. Qed.

End Base64Facts.

(** ** ProtocolCodec: the envelope *)

Section ProtocolCodecFacts.
Import Json ProtocolCodec.
Local Open Scope string_scope.

Lemma octets_of_bytes (data : list Byte.byte) :
  map byte_of_ascii (map ascii_of_byte data) = data.
Proof.
  rewrite map_map. rewrite <- (map_id data) at 2.
  apply map_ext. intros b. apply byte_of_ascii_of_byte.
Qed.

Lemma chars_of_octets (l : list ascii) :
  map ascii_of_byte (map byte_of_ascii l) = l.
Proof.
  rewrite map_map. rewrite <- (map_id l) at 2.
  apply map_ext. intros c. apply ascii_of_byte_of_ascii.
Qed.

Lemma binary_round_trip (data : list Byte.byte) :
  binary_of_json (binary_to_json data) = Some data.
Proof.
  unfold binary_of_json, binary_to_json. cbn [as_string bind].
  rewrite list_ascii_of_string_of_list_ascii, base64_decode_encode.
  cbn [bind]. now rewrite octets_of_bytes.
Qed.

Lemma traverse_map {A B : Type} (f : A -> option B) (g : B -> A)
  (l : list B) :
  (forall b, f (g b) = Some b) -> traverse f (map g l) = Some l.
Proof.
  intros Hfg. induction l as [|b l IH]; cbn [map traverse]; [reflexivity|].
  now rewrite Hfg, IH.
Qed.

Local Arguments binary_to_json : simpl never.
Local Arguments binary_of_json : simpl never.

Lemma part_round_trip (p : Part) : part_of_json (part_to_json p) = Some p.
Proof.
  destruct p as [t | mime data]; [reflexivity|].
  cbn. unfold field. cbn. now rewrite binary_round_trip.
Qed.

Lemma rate_round_trip (rate : N) :
  as_N (JNumber (integer (Z.of_N rate))) = Some rate.
Proof.
  unfold as_N, integer. cbn [mantissa exponent].
  change (10 ^ 0)%Z with 1%Z. rewrite Z.mul_1_r, N2Z.id.
  destruct (0 <=? Z.of_N rate)%Z eqn:E; [reflexivity|].
  apply Z.leb_gt in E. lia.
Qed.

Local Arguments as_N : simpl never.

Lemma chunk_round_trip (c : Chunk) : chunk_of_json (chunk_to_json c) = Some c.
Proof.
  destruct c as [data mime rate | data mime]; cbn; unfold field; cbn;
    rewrite binary_round_trip; cbn; [|reflexivity].
  now rewrite rate_round_trip.
Qed.

Lemma call_round_trip (c : FunctionCall) : call_of_json (call_to_json c) = Some c.
Proof. destruct c. reflexivity. Qed.

Lemma response_round_trip (r : FunctionResponse) :
  response_of_json (response_to_json r) = Some r.
Proof. destruct r as [i [v | []]]; reflexivity. Qed.

Theorem from_json_to_json (m : WireMessage) : from_json (to_json m) = Some m.
Proof.
  destruct m; cbn; unfold list_field, field; cbn;
    rewrite ?(traverse_map _ _ _ part_round_trip),
            ?(traverse_map _ _ _ chunk_round_trip),
            ?(traverse_map _ _ _ call_round_trip),
            ?(traverse_map _ _ _ response_round_trip);
    reflexivity.
Qed.

End ProtocolCodecFacts.

(** C4: for every WireMessage [m], decoding the encoding of [m] yields
    [m] again. *)
Theorem decode_encode (m : ProtocolCodec.WireMessage) :
  ProtocolCodec.decode (ProtocolCodec.encode m) = ProtocolCodec.Message m.
Proof.
  unfold ProtocolCodec.decode, ProtocolCodec.encode.
  now rewrite chars_of_octets, parse_print, from_json_to_json.
Qed.

(** ** ConnectionManager: the credential stays out of logs and storage *)

Section SessionFacts.
Import ProtocolCodec Session.

Variable o : Options.

Lemma blank_blank (a : TransportAction) : blank (blank a) = blank a.
Proof. now destruct a. Qed.

Lemma map_blank_blank (w : list TransportAction) :
  map blank (map blank w) = map blank w.
Proof. rewrite map_map. apply map_ext, blank_blank. Qed.

Lemma map_blank_transmit (q : list WireMessage) :
  map blank (map (fun m => Transmit (encode m)) q) =
  map (fun m => Transmit (encode m)) q.
Proof. rewrite map_map. now apply map_ext. Qed.

(** Each action of the engine commutes with blanking the credential. *)
Lemma view_enter (s : ConnectionState) (e : Engine) :
  view (enter s e) = enter s (view e).
Proof. reflexivity. Qed.

Lemma view_report (kind : ErrorKind) (detail : list Byte.byte) (e : Engine) :
  view (report kind detail e) = report kind detail (view e).
Proof. reflexivity. Qed.

Lemma view_notify (ev : Event) (e : Engine) :
  view (notify ev e) = notify ev (view e).
Proof. reflexivity. Qed.

Lemma view_hand_over (actions : list TransportAction) (e : Engine) :
  view (hand_over actions e) = hand_over (map blank actions) (view e).
Proof.
  unfold view, hand_over; cbn [state credential config attempts queue wire
                               events log disk].
  now rewrite map_app.
Qed.

Lemma view_set_attempts (n : nat) (e : Engine) :
  view (set_attempts n e) = set_attempts n (view e).
Proof. reflexivity. Qed.

Lemma view_set_queue (q : list WireMessage) (e : Engine) :
  view (set_queue q e) = set_queue q (view e).
Proof. reflexivity. Qed.

Lemma view_begin (k : Credential) (cfg : Json.json) (e : Engine) :
  view (begin k cfg e) = begin ""%string cfg (view e).
Proof. reflexivity. Qed.

Lemma view_open_transport (e : Engine) :
  view (open_transport o e) = open_transport o (view e).
Proof.
  unfold open_transport. change (credential (view e))
    with (option_map (fun _ : Credential => ""%string) (credential e)).
  destruct (credential e); cbn [option_map]; [|reflexivity].
  apply view_hand_over.
Qed.

Lemma view_transmit (m : WireMessage) (e : Engine) :
  view (transmit m e) = transmit m (view e).
Proof. unfold transmit. apply view_hand_over. Qed.

Lemma view_enqueue (m : WireMessage) (e : Engine) :
  view (enqueue o m e) = enqueue o m (view e).
Proof. reflexivity. Qed.

Lemma view_flush (e : Engine) : view (flush e) = flush (view e).
Proof.
  unfold flush. rewrite view_set_queue, view_hand_over.
  now rewrite map_blank_transmit.
Qed.

Lemma view_dispatch (bytes : list Byte.byte) (e : Engine) :
  view (dispatch bytes e) = dispatch bytes (view e).
Proof.
  unfold dispatch. change (state (view e)) with (state e).
  destruct (decode bytes) as [[]|[]]; try reflexivity.
  destruct (state e); try reflexivity;
    now rewrite view_flush, view_enter, view_set_attempts.
Qed.

(** A step sees the credential only to pass it on: blanking it before
    the step or after it shows the same engine. *)
Lemma view_step (e : Engine) (i : Input) :
  view (step o e i) = step o (view e) (blank_input i).
Proof.
  destruct i as [k cfg | | m | | | | bytes]; cbn [step blank_input];
    change (state (view e)) with (state e);
    change (attempts (view e)) with (attempts e);
    change (config (view e)) with (config e);
    destruct (state e); try reflexivity;
    repeat match goal with
           | |- context [if ?x then _ else _] => destruct x
           end;
    rewrite ?view_open_transport, ?view_enter, ?view_report, ?view_begin,
            ?view_set_queue, ?view_hand_over, ?view_transmit, ?view_enqueue,
            ?view_set_attempts, ?view_dispatch;
    reflexivity.
Qed.

Lemma blank_input_same (i1 i2 : Input) :
  same_but_credential i1 i2 -> blank_input i1 = blank_input i2.
Proof.
  destruct i1, i2; cbn; intros H; try discriminate H; try congruence.
Qed.

Lemma view_preserved (e1 e2 : Engine) (i1 i2 : Input) :
  view e1 = view e2 -> same_but_credential i1 i2 ->
  view (step o e1 i1) = view (step o e2 i2).
Proof.
  intros He Hi. rewrite (view_step e1), (view_step e2).
  now rewrite He, (blank_input_same i1 i2 Hi).
Qed.

Lemma view_run (t1 t2 : list Input) :
  Forall2 same_but_credential t1 t2 ->
  forall e1 e2, view e1 = view e2 ->
  view (fold_left (step o) t1 e1) = view (fold_left (step o) t2 e2).
Proof.
  induction 1 as [|i1 i2 t1 t2 Hi _ IH]; intros e1 e2 He; cbn [fold_left].
  - exact He.
  - apply IH. now apply view_preserved.
Qed.

(** Nothing is ever written to persistent storage. *)
Lemma disk_dispatch (bytes : list Byte.byte) (e : Engine) :
  disk (dispatch bytes e) = disk e.
Proof.
  unfold dispatch. destruct (decode bytes) as [[]|[]]; try reflexivity.
  destruct (state e); reflexivity.
Qed.

Lemma disk_open_transport (e : Engine) : disk (open_transport o e) = disk e.
Proof. unfold open_transport. destruct (credential e); reflexivity. Qed.

Lemma disk_untouched (e : Engine) (i : Input) : disk (step o e i) = disk e.
Proof.
  destruct i; cbn [step]; destruct (state e); try reflexivity;
    repeat match goal with
           | |- context [if ?x then _ else _] => destruct x
           end;
    rewrite ?disk_open_transport, ?disk_dispatch; reflexivity.
Qed.

Lemma disk_fold (t : list Input) (e : Engine) :
  disk (fold_left (step o) t e) = disk e.
Proof.
  revert e. induction t as [|i t IH]; intros e; cbn [fold_left].
  - reflexivity.
  - now rewrite IH, disk_untouched.
Qed.

End SessionFacts.

(** C7: two runs of the engine on inputs that differ only in the
    credential passed to [connect] log the same lines, deliver the same
    events and persist the same data (namely nothing). *)
Theorem credential_never_logged_or_persisted
  (o : Session.Options) (t1 t2 : list Session.Input) :
  Forall2 Session.same_but_credential t1 t2 ->
  Session.log (Session.run o t1) = Session.log (Session.run o t2) /\
  Session.disk (Session.run o t1) = Session.disk (Session.run o t2) /\
  Session.events (Session.run o t1) = Session.events (Session.run o t2) /\
  Session.disk (Session.run o t1) = [].
Proof.
  intros Hsame.
  pose proof (view_run o t1 t2 Hsame Session.fresh Session.fresh eq_refl)
    as Hview.
  fold (Session.run o t1) in Hview. fold (Session.run o t2) in Hview.
  split; [exact (f_equal Session.log Hview)|].
  split; [exact (f_equal Session.disk Hview)|].
  split; [exact (f_equal Session.events Hview)|].
  unfold Session.run. apply disk_fold.
Qed.

Lemma credential_never_logged_or_persisted_witness :
  Session.log (Session.run session_options (session_trace "key-A"%string)) =
  Session.log (Session.run session_options (session_trace "key-B"%string)) /\
  Session.disk (Session.run session_options (session_trace "key-A"%string)) = [].
Proof.
  destruct (credential_never_logged_or_persisted session_options
              (session_trace "key-A"%string) (session_trace "key-B"%string))
    as [Hlog [_ [_ Hdisk]]].
  - unfold session_trace. repeat constructor.
  - split; [exact Hlog | exact Hdisk].
Defined.

(** The credential does reach the transport, as the connection parameter
    of every attempt to open it, and the log is not empty. *)
Example session_trace_outputs :
  let e := Session.run session_options (session_trace "key-A"%string) in
  filter (fun a => match a with Session.Open _ _ => true | _ => false end)
         (Session.wire e)
  = [ Session.Open "wss://example.invalid/live"%string "key-A"%string;
      Session.Open "wss://example.invalid/live"%string "key-A"%string;
      Session.Open "wss://example.invalid/live"%string "key-A"%string ] /\
  Session.log e =
  [ Session.log_state Session.Connecting;
    Session.log_state Session.Connected;
    Session.log_error Session.DecodeErrorMalformed [Byte.x7b];
    Session.log_state Session.Reconnecting ] /\
  Session.state e = Session.Reconnecting /\ Session.attempts e = 1%nat.
Proof. vm_compute. repeat split. Qed.

(** Generation parameters with fractions and a text with a line break
    travel in a [Setup] message; the decoder also reads the usual way of
    writing them. *)
Example fractions_and_control_characters_travel :
  let settings :=
    Json.JObject
      [("temperature"%string, Json.JNumber {| Json.mantissa := 7;
                                               Json.exponent := -1 |});
       ("topP"%string, Json.JNumber {| Json.mantissa := 95;
                                        Json.exponent := -2 |});
       ("note"%string, Json.JString (String "a" (String "010" "b")))] in
  ProtocolCodec.encode (ProtocolCodec.Setup settings) =
    json_text "{'setup':{'temperature':7e-1,'topP':95e-2,'note':'a\u000ab'}}" /\
  ProtocolCodec.decode
    (json_text "{ 'setup' : { 'temperature' : 0.7, 'topP' : 0.95, 'note' : 'a\nb' } }")
  = ProtocolCodec.Message (ProtocolCodec.Setup settings) /\
  ProtocolCodec.decode (json_text "{'setup':{'note':'a" ++ [Byte.x0a] ++
                        json_text "b'}}")
  = ProtocolCodec.Failed ProtocolCodec.Malformed /\
  ProtocolCodec.decode (json_text "{'setup':'\u00e9\ud83d\ude00'}")
  = ProtocolCodec.Message
      (ProtocolCodec.Setup
         (Json.JString
            (string_of_list_ascii
               (map ascii_of_byte
                    [Byte.xc3; Byte.xa9; Byte.xf0; Byte.x9f; Byte.x98;
                     Byte.x80])))).
Proof. vm_compute. repeat split. Qed.

Example decode_rejects_malformed :
  ProtocolCodec.decode [Byte.x7b] = ProtocolCodec.Failed ProtocolCodec.Malformed /\
  ProtocolCodec.decode
    (map byte_of_ascii
       (JsonText.print
          (Json.JObject [("setupComplete"%string, Json.JObject []);
                         ("toolCall"%string, Json.JObject [])])))
  = ProtocolCodec.Failed ProtocolCodec.Malformed /\
  ProtocolCodec.decode
    (map byte_of_ascii
       (JsonText.print (Json.JObject [("ping"%string, Json.JObject [])])))
  = ProtocolCodec.Failed ProtocolCodec.Malformed.
Proof. vm_compute. repeat split. Qed.

(** * Further properties of the source *)

(** ** The Altair listener: order and timing of the responses *)

Section AltairOrder.
Import Altair AltairTrace.

Lemma sorted_snoc {A : Type} (R : A -> A -> Prop) (l : list A) (y : A) :
  StronglySorted R l -> Forall (fun x => R x y) l ->
  StronglySorted R (l ++ [y]).
Proof.
  induction 1 as [|x l Hl IH Hx]; intros Hy; cbn.
  - repeat constructor.
  - inversion Hy as [|? ? Hxy Hly]; subst. constructor.
    + now apply IH.
    + apply Forall_app. split; [exact Hx | now constructor].
Qed.

Lemma sorted_filter {A : Type} (R : A -> A -> Prop) (p : A -> bool)
  (l : list A) :
  StronglySorted R l -> StronglySorted R (filter p l).
Proof.
  induction 1 as [|x l Hl IH Hx]; cbn; [constructor|].
  destruct (p x); [|exact IH]. constructor; [exact IH|].
  rewrite Forall_forall in *. intros y Hy. apply filter_In in Hy.
  now apply Hx.
Qed.

(** In a list kept in due order the callbacks that are ready come first. *)
Lemma ready_then_waiting (t : Z) (l : list Timer) :
  StronglySorted (fun a b => due a <= due b) l ->
  filter (ready_at t) l ++ filter (waiting_at t) l = l.
Proof.
  induction 1 as [|x l Hl IH Hx]; cbn [filter]; [reflexivity|].
  rewrite (waiting_not_ready t x).
  destruct (ready_at t x) eqn:E; cbn [negb app].
  - now rewrite IH.
  - rewrite filter_none, filter_all; [reflexivity | |];
      intros y Hy; rewrite Forall_forall in Hx; specialize (Hx y Hy);
      unfold ready_at, waiting_at in *;
      apply Z.leb_gt in E; [apply Z.ltb_lt | apply Z.leb_gt]; lia.
Qed.

Lemma in_due_order_initial : in_due_order initial.
Proof. split; constructor. Qed.

Lemma in_due_order_step (w : World) (e : Event) :
  in_due_order w -> in_due_order (step w e).
Proof.
  intros [Hs Hb]. destruct e as [tc|ms]; cbn [step]; unfold in_due_order.
  - rewrite onToolCall_timers, onToolCall_now. unfold scheduled_by.
    destruct (_ =? _)%nat; [rewrite app_nil_r; now split|]. split.
    + apply sorted_snoc; [exact Hs|].
      apply Forall_impl with (2 := Hb). intros tm Htm. cbn. lia.
    + apply Forall_app. split; [exact Hb|]. repeat constructor. cbn. lia.
  - rewrite elapse_timers, elapse_now. split.
    + now apply sorted_filter.
    + rewrite Forall_forall in *. intros tm Htm. apply filter_In in Htm.
      specialize (Hb tm (proj1 Htm)). lia.
Qed.

Lemma in_due_order_run (es : list Event) (w : World) :
  in_due_order w -> in_due_order (run es w).
Proof.
  revert w. induction es as [|e es IH]; intros w Hw; [exact Hw|].
  apply IH, in_due_order_step, Hw.
Qed.

Lemma batches_app (es1 es2 : list Event) :
  batches (es1 ++ es2) = batches es1 ++ batches es2.
Proof. unfold batches, delivered. now rewrite flat_map_app, filter_app. Qed.

Lemma scheduled_answers (tc : ToolCall) (t : Z) :
  map response_to (scheduled_by tc t) = map answer (batches [Toolcall tc]).
Proof.
  unfold scheduled_by, batches, delivered. cbn.
  destruct (_ =? _)%nat; reflexivity.
Qed.

Lemma sent_then_scheduled (es : list Event) (w : World) :
  in_due_order w ->
  sent (run es w) ++ map response_to (timers (run es w)) =
  sent w ++ map response_to (timers w) ++ map answer (batches es).
Proof.
  revert w. induction es as [|e es IH]; intros w Hw.
  - cbn. now rewrite app_nil_r.
  - change (run (e :: es) w) with (run es (step w e)).
    rewrite IH by now apply in_due_order_step.
    change (e :: es) with ([e] ++ es). rewrite batches_app, map_app.
    destruct e as [tc|ms]; cbn [step].
    + rewrite onToolCall_sent, onToolCall_timers, map_app, scheduled_answers.
      now rewrite <- !app_assoc.
    + change (batches [Elapse ms]) with (@nil ToolCall). cbn [map app].
      rewrite elapse_sent, elapse_timers, <- !app_assoc. f_equal.
      rewrite !app_assoc. f_equal. rewrite <- map_app. f_equal.
      apply ready_then_waiting, Hw.
Qed.

End AltairOrder.

Section AltairTiming.
Import Altair AltairTrace.

Lemma batch_ids (es : list Event) :
  flat_map (fun tc => map fc_id (functionCalls tc)) (batches es) = observed es.
Proof.
  unfold batches, delivered, observed.
  induction es as [|[tc|ms] es IH]; cbn [flat_map app]; [reflexivity | | exact IH].
  cbn [filter]. destruct (functionCalls tc) as [|fc fcs] eqn:E; cbn.
  - exact IH.
  - rewrite E, IH. reflexivity.
Qed.

Lemma answer_batch_ids (l : list ToolCall) :
  flat_map (fun m => map id (functionResponses m)) (map answer l) =
  flat_map (fun tc => map fc_id (functionCalls tc)) l.
Proof.
  induction l as [|tc l IH]; [reflexivity|].
  cbn [map flat_map]. now rewrite answer_ids, IH.
Qed.

Lemma all_waiting_run (es : list Event) (w : World) :
  all_waiting w -> all_waiting (run es w).
Proof.
  revert w. induction es as [|e es IH]; intros w Hw; [exact Hw|].
  apply IH, all_waiting_step, Hw.
Qed.

Lemma schedule_only_waits (es : list Event) (t : Z) :
  only_waits es -> schedule es t = [].
Proof.
  intros H. revert t. induction H as [|[tc|ms] es He _ IH]; intros t; cbn.
  - reflexivity.
  - destruct He.
  - apply IH.
Qed.

Lemma batches_only_waits (es : list Event) : only_waits es -> batches es = [].
Proof.
  unfold batches, delivered.
  induction 1 as [|[tc|ms] es He _ IH]; cbn; [reflexivity | destruct He | exact IH].
Qed.

Lemma elapse_eq (ms : N) (w : World) :
  elapse ms w =
  {| now := now w + Z.of_N ms;
     timers := filter (waiting_at (now w + Z.of_N ms)) (timers w);
     live_config := live_config w; jsonString := jsonString w;
     setJSONString_calls := setJSONString_calls w; console := console w;
     sent := sent w ++
             map response_to (filter (ready_at (now w + Z.of_N ms)) (timers w)) |}.
Proof. unfold elapse. now rewrite fire_all. Qed.

Lemma elapse_elapse (a b : N) (w : World) :
  in_due_order w -> elapse b (elapse a w) = elapse (a + b) w.
Proof.
  intros [Hs _]. rewrite !elapse_eq.
  cbn [now timers live_config jsonString setJSONString_calls console sent].
  rewrite N2Z.inj_add, Z.add_assoc, <- app_assoc, <- map_app.
  set (t := now w + Z.of_N a). set (t' := t + Z.of_N b).
  assert (Ht : t <= t') by (unfold t'; lia).
  f_equal.
  - apply filter_absorb. intros tm _ H. unfold waiting_at in *.
    apply Z.ltb_lt in H. apply Z.ltb_lt. lia.
  - f_equal. f_equal.
    rewrite <- (ready_then_waiting t (timers w) Hs) at 3.
    rewrite filter_app. f_equal. symmetry. apply filter_all.
    intros tm Htm. apply filter_In in Htm. unfold ready_at in *.
    destruct Htm as [_ Htm]. apply Z.leb_le in Htm. apply Z.leb_le. lia.
Qed.

Lemma onToolCall_console (tc : ToolCall) (w : World) :
  console (onToolCall tc w) = console w ++ [got_toolcall tc].
Proof.
  unfold onToolCall.
  destruct (find _ _); destruct (_ =? _)%nat; reflexivity.
Qed.

Lemma without_console_step (w : World) (e : Event) :
  without_console (step w e) = without_console (step (without_console w) e).
Proof.
  destruct e as [tc|ms]; cbn [step].
  - unfold onToolCall.
    destruct (find _ _); destruct (_ =? _)%nat; reflexivity.
  - rewrite !elapse_eq. reflexivity.
Qed.

Lemma without_console_run (es : list Event) (w1 w2 : World) :
  without_console w1 = without_console w2 ->
  without_console (run es w1) = without_console (run es w2).
Proof.
  revert w1 w2. induction es as [|e es IH]; intros w1 w2 H; [exact H|].
  apply IH. rewrite (without_console_step w1), (without_console_step w2).
  now rewrite H.
Qed.

Lemma find_first {A : Type} (p : A -> bool) (pre post : list A) (x : A) :
  (forall y, In y pre -> p y = false) -> p x = true ->
  find p (pre ++ x :: post) = Some x.
Proof.
  intros Hpre Hx. induction pre as [|y pre IH]; cbn.
  - now rewrite Hx.
  - rewrite (Hpre y (or_introl eq_refl)). apply IH.
    intros z Hz. apply Hpre. now right.
Qed.

End AltairTiming.

Lemma sent_and_pending_from_initial (es : list Altair.Event) :
  let w := Altair.run es Altair.initial in
  Altair.sent w ++ map Altair.response_to (Altair.timers w) =
    map Altair.answer (AltairTrace.batches es) /\
  Altair.answered w ++ Altair.pending w = Altair.observed es.
Proof.
  intros w.
  pose proof (sent_then_scheduled es Altair.initial in_due_order_initial)
    as H.
  fold w in H. cbn [Altair.sent Altair.timers Altair.initial map app] in H.
  split; [exact H|].
  unfold Altair.answered, Altair.pending.
  rewrite <- answered_of_fired, <- flat_map_app, H, answer_batch_ids.
  apply batch_ids.
Qed.

(** X1: tool responses leave in the order their batches arrived, one
    message per non-empty batch: at every point of every trace, what has
    been sent followed by what the pending callbacks will send is the list
    of answers to the non-empty batches delivered so far, and the ids sent
    followed by the ids pending are the ids delivered, in arrival order. *)
Theorem responses_leave_in_arrival_order (es : list Altair.Event) :
  let w := Altair.run es Altair.initial in
  Altair.sent w ++ map Altair.response_to (Altair.timers w) =
    map Altair.answer (AltairTrace.batches es) /\
  Altair.sent w =
    firstn (List.length (Altair.sent w))
           (map Altair.answer (AltairTrace.batches es)) /\
  Altair.answered w ++ Altair.pending w = Altair.observed es.
Proof.
  intros w.
  destruct (sent_and_pending_from_initial es) as [H Hids]. fold w in H, Hids.
  split; [exact H|]. split; [|exact Hids].
  rewrite <- H, firstn_app, Nat.sub_diag, firstn_all. cbn [firstn].
  now rewrite app_nil_r.
Qed.

(** X2: nothing is answered early.  While fewer than 200 ms have passed
    since a non-empty batch was delivered, its callback is still pending
    with the due time it was given, all its ids are pending, and an id no
    other call uses has no response yet. *)
Theorem no_response_before_200ms
  (before after : list Altair.Event) (tc : Altair.ToolCall) :
  Altair.functionCalls tc <> [] ->
  Altair.elapsed after < 200 ->
  let trace := before ++ Altair.Toolcall tc :: after in
  let w := Altair.run trace Altair.initial in
  In {| Altair.due := Altair.elapsed before + 200; Altair.captured := tc |}
     (Altair.timers w) /\
  (forall fc, In fc (Altair.functionCalls tc) ->
     In (Altair.fc_id fc) (Altair.pending w)) /\
  (forall fc, In fc (Altair.functionCalls tc) ->
     count_occ string_dec (Altair.observed trace) (Altair.fc_id fc) = 1%nat ->
     count_occ string_dec (Altair.answered w) (Altair.fc_id fc) = 0%nat).
Proof.
  intros Hne Hearly trace w.
  assert (Htimer :
    In {| Altair.due := Altair.elapsed before + 200; Altair.captured := tc |}
       (Altair.timers w)).
  { unfold w. rewrite (run_timers trace Altair.initial all_waiting_initial).
    cbn [Altair.timers Altair.now Altair.initial app].
    apply filter_In. split.
    - unfold trace. rewrite schedule_app. cbn [Altair.schedule].
      apply in_or_app. right. apply in_or_app. left.
      unfold Altair.scheduled_by.
      destruct (Altair.functionCalls tc); [congruence | now left].
    - unfold Altair.waiting_at, trace; cbn [Altair.due]. apply Z.ltb_lt.
      rewrite elapsed_app. cbn [Altair.elapsed]. lia. }
  assert (Hpending : forall fc, In fc (Altair.functionCalls tc) ->
                                In (Altair.fc_id fc) (Altair.pending w)).
  { intros fc Hfc. unfold Altair.pending. apply in_flat_map.
    eexists. split; [exact Htimer|]. cbn [Altair.captured].
    now apply in_map. }
  split; [exact Htimer|]. split; [exact Hpending|].
  intros fc Hfc Hone.
  pose proof (counts_balance trace (Altair.fc_id fc)) as Hbal. fold w in Hbal.
  pose proof (proj1 (count_occ_In string_dec _ _) (Hpending fc Hfc)).
  lia.
Qed.

Lemma no_response_before_200ms_witness :
  let tc := {| Altair.functionCalls := [chart_call; unregistered_call] |} in
  let w := Altair.run [Altair.Toolcall tc; Altair.Elapse 199] Altair.initial in
  In {| Altair.due := 200; Altair.captured := tc |} (Altair.timers w) /\
  count_occ string_dec (Altair.answered w) "7"%string = 0%nat.
Proof.
  intros tc w.
  destruct (no_response_before_200ms [] [Altair.Elapse 199] tc
              ltac:(discriminate) ltac:(cbn; lia))
    as [Htimer [_ Hzero]].
  split; [exact Htimer|].
  apply (Hzero chart_call); [left; reflexivity | reflexivity].
Defined.

(** X3: an empty batch is only logged.  Delivering a ToolCall without
    function calls schedules nothing and sends nothing, then or later: but
    for the console the world is the one the trace without that delivery
    gives. *)
Theorem empty_batch_changes_only_the_console
  (before after : list Altair.Event) (tc : Altair.ToolCall) :
  Altair.functionCalls tc = [] ->
  AltairTrace.without_console
    (Altair.run (before ++ Altair.Toolcall tc :: after) Altair.initial) =
  AltairTrace.without_console
    (Altair.run (before ++ after) Altair.initial).
Proof.
  intros Hempty. rewrite !run_app.
  change (Altair.run (Altair.Toolcall tc :: after)
            (Altair.run before Altair.initial))
    with (Altair.run after
            (Altair.onToolCall tc (Altair.run before Altair.initial))).
  apply without_console_run.
  unfold Altair.onToolCall. rewrite Hempty. reflexivity.
Qed.

Lemma empty_batch_changes_only_the_console_witness :
  Altair.sent
    (Altair.run [Altair.Toolcall {| Altair.functionCalls := [] |};
                 Altair.Elapse 500] Altair.initial) = [].
Proof.
  exact (f_equal Altair.sent
           (empty_batch_changes_only_the_console []
              [Altair.Elapse 500] {| Altair.functionCalls := [] |} eq_refl)).
Defined.

(** X4: once 200 ms have passed since the last delivery nothing is left
    pending: every non-empty batch delivered has had its ToolResponse sent,
    in order, and the ids answered are exactly the ids delivered. *)
Theorem all_answered_200ms_after_last_delivery
  (es quiet : list Altair.Event) :
  AltairTrace.only_waits quiet ->
  200 <= Altair.elapsed quiet ->
  let w := Altair.run (es ++ quiet) Altair.initial in
  Altair.timers w = [] /\
  Altair.sent w = map Altair.answer (AltairTrace.batches es) /\
  Altair.answered w = Altair.observed es.
Proof.
  intros Hquiet Hlate w.
  assert (Htimers : Altair.timers w = []).
  { unfold w. rewrite run_app.
    set (w1 := Altair.run es Altair.initial).
    rewrite (run_timers quiet w1)
      by (apply all_waiting_run, all_waiting_initial).
    rewrite (schedule_only_waits quiet _ Hquiet), app_nil_r.
    apply filter_none. intros tm Htm.
    destruct (in_due_order_run es Altair.initial in_due_order_initial)
      as [_ Hb].
    fold w1 in Hb. rewrite Forall_forall in Hb. specialize (Hb tm Htm).
    apply Z.ltb_ge. lia. }
  destruct (sent_and_pending_from_initial (es ++ quiet)) as [H Hids].
  fold w in H, Hids. unfold Altair.pending in Hids.
  rewrite Htimers in H, Hids. cbn [map flat_map] in H, Hids.
  rewrite app_nil_r in H, Hids.
  rewrite batches_app, (batches_only_waits quiet Hquiet), app_nil_r in H.
  split; [exact Htimers|]. split; [exact H|].
  rewrite Hids. unfold Altair.observed. rewrite flat_map_app.
  fold (Altair.observed es). fold (Altair.observed quiet).
  rewrite <- (batch_ids quiet), (batches_only_waits quiet Hquiet).
  cbn. now rewrite app_nil_r.
Qed.

Lemma all_answered_200ms_after_last_delivery_witness :
  let a := {| Altair.functionCalls := [chart_call] |} in
  let b := {| Altair.functionCalls := [unregistered_call] |} in
  let w := Altair.run ([Altair.Toolcall a; Altair.Elapse 150;
                        Altair.Toolcall b] ++
                       [Altair.Elapse 120; Altair.Elapse 80])
                      Altair.initial in
  Altair.timers w = [] /\ Altair.answered w = ["7"%string; "42"%string].
Proof.
  intros a b w.
  destruct (all_answered_200ms_after_last_delivery
              [Altair.Toolcall a; Altair.Elapse 150; Altair.Toolcall b]
              [Altair.Elapse 120; Altair.Elapse 80]
              ltac:(repeat constructor) ltac:(cbn; lia))
    as [Ht [_ Hids]].
  split; [exact Ht | exact Hids].
Defined.

(** X5: how finely time is sliced does not matter.  In every world a
    trace can reach, letting [a] ms pass and then [b] ms gives the same
    world, with the same responses sent in the same order, as letting
    [a + b] ms pass at once. *)
Theorem waiting_twice_is_waiting_once
  (es : list Altair.Event) (a b : N) :
  let w := Altair.run es Altair.initial in
  Altair.elapse b (Altair.elapse a w) = Altair.elapse (a + b) w.
Proof.
  intros w. apply elapse_elapse.
  apply in_due_order_run, in_due_order_initial.
Qed.

(** X6: every delivered batch is logged exactly once, in order of arrival,
    the empty ones too, and nothing else is ever written to the console:
    from any world, a trace appends to the console one line per delivery. *)
Theorem every_delivery_logged_once
  (es : list Altair.Event) (w : Altair.World) :
  Altair.console (Altair.run es w) =
  Altair.console w ++ map Altair.got_toolcall (AltairTrace.delivered es).
Proof.
  revert w. induction es as [|[tc|ms] es IH]; intros w.
  - cbn. now rewrite app_nil_r.
  - change (Altair.run (Altair.Toolcall tc :: es) w)
      with (Altair.run es (Altair.onToolCall tc w)).
    rewrite IH, onToolCall_console, <- app_assoc. reflexivity.
  - change (Altair.run (Altair.Elapse ms :: es) w)
      with (Altair.run es (Altair.elapse ms w)).
    rewrite IH, elapse_eq. reflexivity.
Qed.

(** X7: only the first call named like the declaration reaches the chart.
    If a batch holds such a call after calls with other names, the chart
    state becomes that call's [json_graph] argument ([undefined] when the
    argument is missing) and [setJSONString] runs once, whatever calls
    follow it in the batch. *)
Theorem first_chart_call_wins
  (tc : Altair.ToolCall) (w : Altair.World)
  (pre post : list Altair.LiveFunctionCall) (fc : Altair.LiveFunctionCall) :
  Altair.functionCalls tc = pre ++ fc :: post ->
  (forall g, In g pre -> Altair.fc_name g <> Altair.name Altair.declaration) ->
  Altair.fc_name fc = Altair.name Altair.declaration ->
  Altair.jsonString (Altair.onToolCall tc w) =
    Json.get "json_graph" (Altair.fc_args fc) /\
  Altair.setJSONString_calls (Altair.onToolCall tc w) =
    Altair.setJSONString_calls w ++ [Json.get "json_graph" (Altair.fc_args fc)].
Proof.
  intros Hcalls Hpre Hfc.
  assert (Hfind : Altair.handled_call tc = Some fc).
  { unfold Altair.handled_call. rewrite Hcalls. apply find_first.
    - intros g Hg. apply String.eqb_neq. now apply Hpre.
    - now apply String.eqb_eq. }
  rewrite onToolCall_jsonString, onToolCall_handler, Hfind. now split.
Qed.

Lemma first_chart_call_wins_witness :
  let second := {| Altair.fc_name := "render_altair"%string;
                   Altair.fc_args := [("json_graph"%string,
                                       Json.JString "[]")];
                   Altair.fc_id := "8"%string |} in
  Altair.jsonString
    (Altair.onToolCall
       {| Altair.functionCalls := [unregistered_call; chart_call; second] |}
       Altair.initial)
  = Some (Json.JString "{}").
Proof.
  intros second.
  apply (first_chart_call_wins
           {| Altair.functionCalls := [unregistered_call; chart_call; second] |}
           Altair.initial [unregistered_call] [second] chart_call eq_refl).
  - intros g [<-|[]]. discriminate.
  - reflexivity.
Defined.

(** ** SearchResults: the pages together *)

Section SearchResultsPagesFacts.
Import SearchResults SearchResultsPages.

Lemma flat_map_shift {A : Type} (f : nat -> list A) (l : list nat) :
  flat_map f (map S l) = flat_map (fun i => f (S i)) l.
Proof. induction l as [|i l IH]; cbn; [reflexivity | now rewrite IH]. Qed.

(** Cutting a list into consecutive pieces of [k] and gluing them gives
    the list back. *)
Lemma chunks_cover {A : Type} (k n : nat) (l : list A) :
  (List.length l <= n * k)%nat ->
  flat_map (fun i => firstn k (skipn (i * k) l)) (seq 0 n) = l.
Proof.
  revert l. induction n as [|n IH]; intros l Hlen.
  - destruct l; [reflexivity | cbn in Hlen; lia].
  - cbn [seq flat_map]. rewrite <- seq_shift, flat_map_shift.
    cbn [Nat.mul skipn].
    rewrite (flat_map_ext _ (fun i => firstn k (skipn (i * k) (skipn k l)))).
    + rewrite IH; [apply firstn_skipn|]. rewrite length_skipn. lia.
    + intros i. rewrite skipn_skipn. f_equal. f_equal. lia.
Qed.

Lemma totalPages_bounds (results : list SearchResult) :
  5 * (totalPages results - 1) < Z.of_nat (List.length results)
  <= 5 * totalPages results.
Proof. apply (ceil_div_spec _ 5). reflexivity. Qed.

Lemma totalPages_nonneg (results : list SearchResult) :
  0 <= totalPages results.
Proof. pose proof (totalPages_bounds results). lia. Qed.

Lemma click_Next (results : list SearchResult) (p : Z) :
  0 <= p < totalPages results - 1 -> click results p Next = p + 1.
Proof.
  intros Hp. unfold click, render; cbn [pagination].
  destruct (1 <? totalPages results) eqn:E; [|apply Z.ltb_ge in E; lia].
  cbn [next disabled onClick].
  destruct (p =? totalPages results - 1) eqn:E'; [apply Z.eqb_eq in E'|]; lia.
Qed.

Lemma click_Previous (results : list SearchResult) (p : Z) :
  0 < p -> 1 < totalPages results -> click results p Previous = p - 1.
Proof.
  intros Hp Ht. unfold click, render; cbn [pagination].
  destruct (1 <? totalPages results) eqn:E; [|apply Z.ltb_ge in E; lia].
  cbn [previous disabled onClick].
  destruct (p =? 0) eqn:E'; [apply Z.eqb_eq in E'|]; lia.
Qed.

Lemma next_clicks (results : list SearchResult) (q : nat) :
  Z.of_nat q <= Z.max 0 (totalPages results - 1) ->
  SearchResults.run results (repeat Next q) = Z.of_nat q.
Proof.
  induction q as [|q IH]; intros Hq; [reflexivity|].
  unfold SearchResults.run in *. cbn [repeat]. rewrite repeat_cons.
  rewrite fold_left_app. cbn [fold_left]. rewrite IH by lia.
  rewrite click_Next; lia.
Qed.

End SearchResultsPagesFacts.

(** X8: the pages partition the results.  Going through the pages
    0 .. totalPages - 1 and putting their items one after the other gives
    the results array back: no result is left out, repeated or reordered. *)
Theorem pages_partition_results (results : list SearchResults.SearchResult) :
  flat_map (fun p => SearchResults.items (SearchResults.render results p))
           (SearchResultsPages.pages results)
  = results.
Proof.
  unfold SearchResultsPages.pages.
  rewrite flat_map_concat_map, map_map, <- flat_map_concat_map.
  rewrite (flat_map_ext _ (fun i => firstn 5 (skipn (i * 5) results))).
  - apply chunks_cover. pose proof (totalPages_bounds results). lia.
  - intros i. rewrite items_are_page_slice by lia.
    now replace (Z.to_nat (5 * Z.of_nat i)) with (i * 5)%nat by lia.
Qed.

(** X9: every result can be reached with the Next button.  The result at
    index [i] is shown at position [i mod 5] after [i / 5] clicks on Next
    from the first page. *)
Theorem every_result_reachable_by_Next
  (results : list SearchResults.SearchResult) (i : nat)
  (x : SearchResults.SearchResult) :
  nth_error results i = Some x ->
  nth_error
    (SearchResults.items
       (SearchResults.render results
          (SearchResults.run results (repeat SearchResults.Next (i / 5)))))
    (i mod 5)
  = Some x.
Proof.
  intros Hx.
  assert (Hi : (i < List.length results)%nat)
    by (apply nth_error_Some; congruence).
  pose proof (totalPages_bounds results) as Hb.
  pose proof (Nat.div_mod_eq i 5) as Hdm.
  pose proof (Nat.mod_upper_bound i 5 ltac:(discriminate)) as Hm.
  rewrite next_clicks by lia.
  rewrite items_are_page_slice by lia.
  rewrite nth_error_firstn.
  destruct (Nat.ltb_spec (i mod 5) 5) as [_|]; [|lia].
  rewrite nth_error_skipn, <- Hx. f_equal. lia.
Qed.

Lemma every_result_reachable_by_Next_witness :
  let r n := {| SearchResults.title := "t"; SearchResults.snippet := "s";
                SearchResults.url := String (ascii_of_nat (65 + n)) "";
                SearchResults.thumbnail := None |} in
  nth_error
    (SearchResults.items
       (SearchResults.render (map r (seq 0 12))
          (SearchResults.run (map r (seq 0 12))
             [SearchResults.Next; SearchResults.Next])))
    1
  = Some (r 11%nat).
Proof.
  intros r.
  exact (every_result_reachable_by_Next (map r (seq 0 12)) 11 (r 11%nat)
           eq_refl).
Defined.

(** X10: away from the ends Previous and Next undo each other: below the
    last page, Next then Previous returns to the page; above the first
    page, Previous then Next does. *)
Theorem Previous_and_Next_are_inverse
  (results : list SearchResults.SearchResult) (page : Z) :
  (0 <= page < SearchResults.totalPages results - 1 ->
   SearchResults.click results
     (SearchResults.click results page SearchResults.Next)
     SearchResults.Previous = page) /\
  (0 < page <= SearchResults.totalPages results - 1 ->
   SearchResults.click results
     (SearchResults.click results page SearchResults.Previous)
     SearchResults.Next = page).
Proof.
  split; intros Hp.
  - rewrite click_Next by lia. rewrite click_Previous by lia. lia.
  - rewrite click_Previous by lia. rewrite click_Next by lia. lia.
Qed.

(** X11: at the ends and without a pagination bar clicks do nothing:
    Previous on page 0 and Next on the last page leave the page as it is,
    and with five results or fewer no click changes anything, whatever the
    page index. *)
Theorem clicks_at_the_ends_do_nothing
  (results : list SearchResults.SearchResult) :
  SearchResults.click results 0 SearchResults.Previous = 0 /\
  SearchResults.click results (SearchResults.totalPages results - 1)
    SearchResults.Next = SearchResults.totalPages results - 1 /\
  ((List.length results <= 5)%nat ->
   forall page c, SearchResults.click results page c = page).
Proof.
  unfold SearchResults.click, SearchResults.render;
    cbn [SearchResults.pagination].
  destruct (1 <? SearchResults.totalPages results) eqn:E.
  - cbn [SearchResults.previous SearchResults.next SearchResults.disabled
         SearchResults.onClick].
    rewrite !Z.eqb_refl. split; [reflexivity|]. split; [reflexivity|].
    intros Hlen. apply Z.ltb_lt in E.
    pose proof (totalPages_bounds results). lia.
  - repeat split; reflexivity.
Qed.

(** X12: with a fixed, non-empty results array no reachable page is
    empty: after any clicks the page shows between one and five items,
    exactly five on every page but the last, and the bar, when there is
    one, reads "k of n" with 1 <= k <= n. *)
Theorem reachable_pages_are_not_empty
  (results : list SearchResults.SearchResult)
  (clicks : list SearchResults.Click) :
  results <> [] ->
  let page := SearchResults.run results clicks in
  let shown := SearchResults.items (SearchResults.render results page) in
  (1 <= List.length shown <= 5)%nat /\
  (page < SearchResults.totalPages results - 1 ->
   List.length shown = 5%nat) /\
  (forall bar,
     SearchResults.pagination (SearchResults.render results page) = Some bar ->
     1 <= fst (SearchResults.label bar) <= snd (SearchResults.label bar)).
Proof.
  intros Hne page shown.
  pose proof (run_in_range results clicks) as Hr. fold page in Hr.
  pose proof (totalPages_bounds results) as Hb.
  assert (Hlen : (0 < List.length results)%nat)
    by (destruct results; [congruence | cbn; lia]).
  assert (Hshown : shown = firstn 5 (skipn (Z.to_nat (5 * page)) results))
    by (apply items_are_page_slice; lia).
  assert (Hcount : List.length shown =
                   Nat.min 5 (List.length results - Z.to_nat (5 * page)))
    by (rewrite Hshown, length_firstn, length_skipn; reflexivity).
  split; [lia|]. split; [intros Hp; lia|].
  intros bar Hbar. unfold SearchResults.render in Hbar;
    cbn [SearchResults.pagination] in Hbar.
  destruct (1 <? SearchResults.totalPages results) eqn:E; [|discriminate].
  injection Hbar as <-. cbn. apply Z.ltb_lt in E. lia.
Qed.

Lemma reachable_pages_are_not_empty_witness :
  let rs := repeat {| SearchResults.title := "t"; SearchResults.snippet := "s";
                      SearchResults.url := "u";
                      SearchResults.thumbnail := None |} 12 in
  (1 <= List.length
          (SearchResults.items
             (SearchResults.render rs
                (SearchResults.run rs [SearchResults.Next; SearchResults.Next;
                                       SearchResults.Next]))) <= 5)%nat.
Proof.
  intros rs.
  exact (proj1 (reachable_pages_are_not_empty rs
                  [SearchResults.Next; SearchResults.Next; SearchResults.Next]
                  ltac:(discriminate))).
Defined.

Section SearchResultsPropsFacts.
Import SearchResults SearchResultsPages.

Lemma click_nonneg (results : list SearchResult) (p : Z) (c : Click) :
  0 <= p -> 0 <= click results p c.
Proof.
  intros Hp. unfold click, render; cbn [pagination].
  destruct (1 <? totalPages results) eqn:E; [apply Z.ltb_lt in E | exact Hp].
  destruct c; cbn [previous next disabled onClick].
  - destruct (p =? 0); lia.
  - destruct (p =? totalPages results - 1); lia.
Qed.

Lemma no_bar_for_few (results : list SearchResult) (p : Z) :
  (List.length results <= 5)%nat -> pagination (render results p) = None.
Proof.
  intros Hlen. destruct (pagination (render results p)) eqn:E; [|reflexivity].
  assert (H : pagination (render results p) <> None) by congruence.
  apply pagination_rendered_iff in H. lia.
Qed.

Lemma click_without_bar (results : list SearchResult) (p : Z) (c : Click) :
  (List.length results <= 5)%nat -> click results p c = p.
Proof. intros Hlen. unfold click. now rewrite no_bar_for_few. Qed.

Lemma clicks_without_bar (clicks : list Click) (st : State) :
  (List.length (shown st) <= 5)%nat ->
  fold_left step (map Clicked clicks) st = st.
Proof.
  intros Hlen. induction clicks as [|c cs IH]; [reflexivity|].
  cbn [map fold_left step]. rewrite click_without_bar by exact Hlen.
  destruct st. exact IH.
Qed.

Lemma page_nonneg (es : list Event) (st : State) :
  0 <= page st -> 0 <= page (fold_left step es st).
Proof.
  revert st. induction es as [|e es IH]; intros st Hst; [exact Hst|].
  cbn [fold_left]. apply IH. destruct e; cbn [step page]; [|exact Hst].
  now apply click_nonneg.
Qed.

End SearchResultsPropsFacts.

(** X13: the page index outlives the results it was reached on.  Whatever
    clicks and re-renders with new results happen, the index never becomes
    negative, but it is not brought back into range: if the component is on
    page 1 or later when it is given five results or fewer, it shows no
    item and no pagination bar, and no click changes that. *)
Theorem page_is_kept_when_results_change
  (results : list SearchResults.SearchResult)
  (events : list SearchResultsPages.Event) :
  let st := SearchResultsPages.run results events in
  0 <= SearchResultsPages.page st /\
  ((List.length (SearchResultsPages.shown st) <= 5)%nat ->
   1 <= SearchResultsPages.page st ->
   SearchResults.items
     (SearchResults.render (SearchResultsPages.shown st)
                           (SearchResultsPages.page st)) = [] /\
   SearchResults.pagination
     (SearchResults.render (SearchResultsPages.shown st)
                           (SearchResultsPages.page st)) = None /\
   forall clicks,
     fold_left SearchResultsPages.step
               (map SearchResultsPages.Clicked clicks) st = st).
Proof.
  intros st. split.
  - apply page_nonneg. cbn. lia.
  - intros Hlen Hpage. split; [|split].
    + rewrite items_are_page_slice by lia.
      rewrite skipn_all2 by lia. apply firstn_nil.
    + now apply no_bar_for_few.
    + intros clicks. now apply clicks_without_bar.
Qed.

Lemma page_is_kept_when_results_change_witness :
  let r := {| SearchResults.title := "t"; SearchResults.snippet := "s";
              SearchResults.url := "u"; SearchResults.thumbnail := None |} in
  let st := SearchResultsPages.run (repeat r 12)
              [SearchResultsPages.Clicked SearchResults.Next;
               SearchResultsPages.Clicked SearchResults.Next;
               SearchResultsPages.Rerendered (repeat r 3)] in
  SearchResultsPages.page st = 2 /\
  SearchResults.items
    (SearchResults.render (SearchResultsPages.shown st)
                          (SearchResultsPages.page st)) = [].
Proof.
  intros r st. split; [reflexivity|].
  apply (proj2 (page_is_kept_when_results_change (repeat r 12)
                  [SearchResultsPages.Clicked SearchResults.Next;
                   SearchResultsPages.Clicked SearchResults.Next;
                   SearchResultsPages.Rerendered (repeat r 3)])).
  - cbn. lia.
  - vm_compute. discriminate.
Defined.

(** ** The Altair component: the chart effect *)

(** X14: the chart effect tells the model exactly when rendering failed.
    It does nothing while the ref is unattached or [jsonString] is falsy;
    it hands [vegaEmbed] only what [JSON.parse] returned; it sends at most
    one message, with one console error per message; it stays silent
    exactly when it did not run or [vegaEmbed] did not fail; a value that
    does not parse, and also a synchronous throw of [vegaEmbed], gives the
    parse-failure text, a rejected embedding the render-failure text with
    the error's message. *)
Theorem chart_failures_are_reported
  (JSON_parse : Json.json -> option Json.json)
  (vegaEmbed : Json.json -> AltairChart.Embedding)
  (ref_attached : bool) (jsonString : option Json.json) :
  let r := AltairChart.embedEffect JSON_parse vegaEmbed ref_attached
             jsonString in
  (ref_attached = false \/ AltairChart.truthy jsonString = false ->
   r = AltairChart.nothing) /\
  (forall spec, In spec (AltairChart.vegaEmbed_calls r) ->
     exists v, jsonString = Some v /\ JSON_parse v = Some spec) /\
  (List.length (AltairChart.client_send r) <= 1)%nat /\
  List.length (AltairChart.console_errors r) =
    List.length (AltairChart.client_send r) /\
  (AltairChart.client_send r = [] <->
   ref_attached = false \/ AltairChart.truthy jsonString = false \/
   exists v spec, jsonString = Some v /\ JSON_parse v = Some spec /\
                  (vegaEmbed spec = AltairChart.EmbedResolves \/
                   vegaEmbed spec = AltairChart.EmbedPending)) /\
  (forall v, ref_attached = true -> AltairChart.truthy jsonString = true ->
     jsonString = Some v ->
     (JSON_parse v = None \/
      exists spec, JSON_parse v = Some spec /\
                   vegaEmbed spec = AltairChart.EmbedThrows) ->
     AltairChart.client_send r = [AltairChart.parse_failed]) /\
  (forall v spec message,
     ref_attached = true -> AltairChart.truthy jsonString = true ->
     jsonString = Some v -> JSON_parse v = Some spec ->
     vegaEmbed spec = AltairChart.EmbedRejects message ->
     AltairChart.client_send r = [AltairChart.render_failed message]).
Proof.
  intros r. unfold r, AltairChart.embedEffect.
  destruct ref_attached; cbn [andb].
  2:{ repeat split; cbn; try lia; try (now left); try discriminate;
        try contradiction; auto. }
  destruct (AltairChart.truthy jsonString) eqn:Et.
  2:{ repeat split; cbn; try lia; try discriminate; try contradiction; auto. }
  destruct jsonString as [v|]; [|discriminate Et].
  destruct (JSON_parse v) as [spec|] eqn:Ep.
  - destruct (vegaEmbed spec) as [ | | message | ] eqn:Ee; cbn.
    all: split; [intros [H|H]; discriminate H|].
    all: split; [intros s [<-|[]]; now exists v|].
    all: split; [lia|]. all: split; [reflexivity|].
    all: split.
    all: try (split; [discriminate|];
              intros [H|[H|(v' & s' & [= <-] & Hp & He)]];
              [discriminate H | discriminate H |];
              rewrite Ep in Hp; injection Hp as <-; rewrite Ee in He;
              destruct He; discriminate).
    all: try (split; [intros _; right; right; exists v, spec; auto|];
              reflexivity).
    all: split.
    all: try (intros v' _ _ [= <-] _; reflexivity).
    all: try (intros v' _ _ [= <-] [H|(s' & Hp & He)];
              [congruence | rewrite Ep in Hp; injection Hp as <-;
                            congruence]).
    all: intros v' s' m' _ _ [= <-] Hp He; rewrite Ep in Hp;
      injection Hp as <-; rewrite Ee in He; try discriminate He.
    all: injection He as <-; reflexivity.
  - cbn. split; [intros [H|H]; discriminate H|].
    split; [intros s []|]. split; [lia|]. split; [reflexivity|].
    split; [split; [discriminate|];
            intros [H|[H|(v' & s' & [= <-] & Hp & _)]]; congruence|].
    split; [reflexivity|].
    intros v' s' m' _ _ [= <-] Hp. congruence.
Qed.



(** ** ImageDisplay *)

Section ImageDisplayFacts.
Import ImageDisplay.

Variable props : Props.

Lemma step_commutes (st : State) (a b : Event) :
  step props (step props st a) b = step props (step props st b) a.
Proof. now destruct a, b. Qed.

Lemma events_from (events : list Event) (st : State) :
  fold_left (step props) events st =
  {| isZoomed :=
       xorb (isZoomed st) (Nat.odd (List.length (filter is_click events)));
     loading := loading st && negb (existsb is_load events) |}.
Proof.
  revert st. induction events as [|[|] es IH]; intros [z l].
  - cbn. now rewrite xorb_false_r, andb_true_r.
  - cbn [fold_left step isZoomed loading filter is_click List.length
         existsb is_load orb].
    rewrite IH, Nat.odd_succ, <- Nat.negb_odd. cbn [isZoomed loading].
    now destruct z, (Nat.odd (List.length (filter is_click es))).
  - cbn [fold_left step isZoomed loading filter is_click existsb is_load
         orb negb].
    rewrite IH. cbn [isZoomed loading]. now rewrite andb_false_r.
Qed.

End ImageDisplayFacts.

(** X16: zooming does not wait for the image.  After any sequence of
    clicks and load events the spinner is shown exactly while the image is
    hidden, which is exactly until the first load event; the container is
    zoomed exactly when the number of all clicks is odd, those that came
    while the image was still hidden included; and the state reached does
    not depend on the order in which the events arrived. *)
Theorem zoom_counts_every_click
  (props : ImageDisplay.Props) (events : list ImageDisplay.Event) :
  let st := ImageDisplay.run props events in
  let v := ImageDisplay.render props st in
  ImageDisplay.loading st = negb (existsb ImageDisplay.is_load events) /\
  (ImageDisplay.spinner v = true <->
   ImageDisplay.img_display v = ImageDisplay.none) /\
  ImageDisplay.container_zoomed v =
    Nat.odd (List.length (filter ImageDisplay.is_click events)) /\
  (forall events', Permutation events events' ->
                   ImageDisplay.run props events' = st).
Proof.
  intros st v. unfold v, st, ImageDisplay.run.
  split; [|split; [|split]].
  - now rewrite events_from.
  - rewrite events_from. cbn.
    destruct (existsb ImageDisplay.is_load events); cbn;
      split; intros H; (reflexivity || discriminate H).
  - now rewrite events_from.
  - intros events' Hperm. symmetry.
    generalize ImageDisplay.initial.
    induction Hperm as [|e l l' _ IH|a b l|l l' l'' _ IH1 _ IH2]; intros s0.
    + reflexivity.
    + cbn [fold_left]. apply IH.
    + cbn [fold_left]. now rewrite step_commutes.
    + now rewrite IH1.
Qed.

Example image_clicked_before_and_after_load :
  let props := {| ImageDisplay.src := "a.png"; ImageDisplay.alt := None;
                  ImageDisplay.caption := None |} in
  ImageDisplay.run props [ImageDisplay.ImgClick]
  = {| ImageDisplay.isZoomed := true; ImageDisplay.loading := true |} /\
  ImageDisplay.run props
    [ImageDisplay.ImgClick; ImageDisplay.ImgLoad; ImageDisplay.ImgClick;
     ImageDisplay.ImgClick]
  = {| ImageDisplay.isZoomed := true; ImageDisplay.loading := false |}.
Proof. split; reflexivity. Qed.

(** ** server/index.js: requests with any JSON in their fields *)

Section EmailServerJsonFacts.
Import Json EmailServerJson.

Lemma truthy_of_field (f : EmailServer.field) :
  truthy (of_field f) = EmailServer.truthy f.
Proof. now destruct f. Qed.

Lemma mailOptions_of_request (arrayToString : list json -> string)
  (env : EmailServer.ProcessEnv) (req : EmailServer.RequestBody) :
  mailOptions arrayToString env (of_request req) =
  option_map of_mail (EmailServer.mailOptions env req).
Proof.
  unfold mailOptions, EmailServer.mailOptions, of_request.
  cbn [body from to subject].
  destruct (EmailServer.body req) as [b|]; [|reflexivity].
  cbn [of_field option_map body_includes template].
  unfold of_mail, EmailServer.js_or. cbn [EmailServer.mail_from
    EmailServer.mail_to EmailServer.mail_subject EmailServer.mail_text
    EmailServer.mail_html of_field option_map].
  change (option_map JString (EmailServer.from req))
    with (of_field (EmailServer.from req)).
  rewrite truthy_of_field.
  destruct (EmailServer.truthy (EmailServer.from req)),
           (EmailServer.includes b "<html"); reflexivity.
Qed.

End EmailServerJsonFacts.

(** X17: which requests make the handler throw.  The handler throws while
    it builds the mail options (line 34) exactly when [body] is neither a
    string nor an array: when it is missing, [null], a boolean, a number
    or an object.  It then hands nothing to the transporter, logs nothing
    and writes no response itself.  In every other case [sendMail] is
    called exactly once, with [body] as the text of the mail.  On requests
    whose fields are strings or missing the handler does what
    [EmailServer.sendEmail] does. *)
Theorem handler_throws_unless_body_is_text_or_list
  (arrayToString : list Json.json -> string)
  (env : EmailServer.ProcessEnv)
  (sendMail : EmailServerJson.MailOptions -> EmailServer.Promise)
  (req : EmailServerJson.RequestBody) :
  let r := EmailServerJson.sendEmail arrayToString env sendMail req in
  (EmailServerJson.completion r = EmailServer.Threw <->
   (forall s, EmailServerJson.body req <> Some (Json.JString s)) /\
   (forall vs, EmailServerJson.body req <> Some (Json.JArray vs))) /\
  (EmailServerJson.completion r = EmailServer.Threw ->
   EmailServerJson.handed_to_sendMail r = [] /\
   EmailServerJson.console r = [] /\ EmailServerJson.response r = None) /\
  (EmailServerJson.completion r <> EmailServer.Threw ->
   exists m, EmailServerJson.handed_to_sendMail r = [m] /\
             EmailServerJson.mail_text m = EmailServerJson.body req /\
             EmailServerJson.mail_to m = EmailServerJson.to req /\
             EmailServerJson.mail_subject m = EmailServerJson.subject req) /\
  (forall req0,
     let r0 := EmailServer.sendEmail env
                 (fun m => sendMail (EmailServerJson.of_mail m)) req0 in
     let r1 := EmailServerJson.sendEmail arrayToString env sendMail
                 (EmailServerJson.of_request req0) in
     EmailServerJson.handed_to_sendMail r1 =
       map EmailServerJson.of_mail (EmailServer.handed_to_sendMail r0) /\
     EmailServerJson.console r1 = EmailServer.console r0 /\
     EmailServerJson.response r1 = EmailServer.response r0 /\
     EmailServerJson.completion r1 = EmailServer.completion r0).
Proof.
  intros r. split; [|split; [|split]].
  - unfold r, EmailServerJson.sendEmail, EmailServerJson.mailOptions.
    destruct (EmailServerJson.body req) as [[ | b | n | s | vs | ms]|];
      cbn [EmailServerJson.body_includes EmailServerJson.completion].
    1-3,6,7: split; [intros _; split; intros ? [=] | reflexivity].
    + split; [|intros [H _]; now destruct (H s)].
      destruct (sendMail _); discriminate.
    + split; [|intros [_ H]; now destruct (H vs)].
      destruct (sendMail _); discriminate.
  - unfold r, EmailServerJson.sendEmail.
    destruct (EmailServerJson.mailOptions arrayToString env req) as [m|];
      [|intros _; now repeat split].
    destruct (sendMail m); intros H; discriminate H.
  - unfold r, EmailServerJson.sendEmail, EmailServerJson.mailOptions.
    destruct (EmailServerJson.body req) as [b|]; [|intros H; now destruct H].
    destruct (EmailServerJson.body_includes (Some b) "<html") as [found|];
      [|intros H; now destruct H].
    intros _. eexists.
    split; [destruct (sendMail _); reflexivity | now repeat split].
  - intros req0 r0 r1. unfold r0, r1, EmailServerJson.sendEmail,
      EmailServer.sendEmail.
    rewrite mailOptions_of_request.
    destruct (EmailServer.mailOptions env req0) as [m|];
      [|now repeat split].
    cbn [option_map].
    destruct (sendMail (EmailServerJson.of_mail m)); now repeat split.
Qed.

Example handler_on_bodies_that_are_not_text :
  let run b :=
    EmailServerJson.sendEmail (fun _ => "1,2"%string) demo_env
      (fun _ => EmailServer.Pending)
      {| EmailServerJson.to := Some (Json.JString "bob@example.com");
         EmailServerJson.subject := None;
         EmailServerJson.body := b;
         EmailServerJson.from := Some (Json.JNumber (Json.integer 0)) |} in
  EmailServerJson.completion (run (Some (Json.JNumber (Json.integer 5))))
    = EmailServer.Threw /\
  EmailServerJson.completion (run (Some Json.JNull)) = EmailServer.Threw /\
  EmailServerJson.completion (run (Some (Json.JObject []))) = EmailServer.Threw /\
  map EmailServerJson.mail_html
      (EmailServerJson.handed_to_sendMail
         (run (Some (Json.JArray [Json.JNumber (Json.integer 1);
                                  Json.JNumber (Json.integer 2)]))))
    = [Some (Json.JString "<p>1,2</p>")] /\
  map EmailServerJson.mail_from
      (EmailServerJson.handed_to_sendMail (run (Some (Json.JString "hi"))))
    = [Some (Json.JString "relay@example.com")].
Proof. repeat split. Qed.

(** ** SearchResults: repeated clicks *)

Section SearchResultsWalk.
Import SearchResults.

Variable results : list SearchResult.

Let last_page : Z := Z.max 0 (totalPages results - 1).

(** On a page in range a click is one clamped step. *)
Lemma click_is_clamped_step (p : Z) :
  0 <= p <= last_page ->
  click results p Next = Z.min last_page (p + 1) /\
  click results p Previous = Z.max 0 (p - 1).
Proof.
  unfold last_page. intros Hp. unfold click, render; cbn [pagination].
  destruct (1 <? totalPages results) eqn:E;
    [apply Z.ltb_lt in E | apply Z.ltb_ge in E; lia].
  cbn [previous next disabled onClick]. split.
  - destruct (p =? totalPages results - 1) eqn:E';
      [apply Z.eqb_eq in E'|]; lia.
  - destruct (p =? 0) eqn:E'; [apply Z.eqb_eq in E'|]; lia.
Qed.

Lemma repeated_Next (n : nat) (p : Z) :
  0 <= p <= last_page ->
  fold_left (click results) (repeat Next n) p =
  Z.min last_page (p + Z.of_nat n).
Proof.
  revert p. induction n as [|n IH]; intros p Hp; cbn [repeat fold_left].
  - lia.
  - rewrite (proj1 (click_is_clamped_step p Hp)), IH by lia. lia.
Qed.

Lemma repeated_Previous (n : nat) (p : Z) :
  0 <= p <= last_page ->
  fold_left (click results) (repeat Previous n) p = Z.max 0 (p - Z.of_nat n).
Proof.
  revert p. induction n as [|n IH]; intros p Hp; cbn [repeat fold_left].
  - lia.
  - rewrite (proj2 (click_is_clamped_step p Hp)), IH by lia. lia.
Qed.

End SearchResultsWalk.

(** X18: repeated clicks saturate at the ends.  From the first page [n]
    clicks on Next lead to page min(n, last page); from whatever page a
    click sequence has reached, [n] further clicks on Previous lead to page
    max(0, page - n); so totalPages - 1 clicks reach either end from the
    other. *)
Theorem repeated_clicks_saturate
  (results : list SearchResults.SearchResult)
  (clicks : list SearchResults.Click) (n : nat) :
  let last_page := Z.max 0 (SearchResults.totalPages results - 1) in
  SearchResults.run results (repeat SearchResults.Next n) =
    Z.min last_page (Z.of_nat n) /\
  SearchResults.run results (clicks ++ repeat SearchResults.Previous n) =
    Z.max 0 (SearchResults.run results clicks - Z.of_nat n) /\
  SearchResults.run results
    (repeat SearchResults.Next (Z.to_nat last_page) ++
     repeat SearchResults.Previous (Z.to_nat last_page)) = 0.
Proof.
  intros last_page. unfold SearchResults.run. split; [|split].
  - rewrite repeated_Next by lia. reflexivity.
  - rewrite fold_left_app.
    apply repeated_Previous, (run_in_range results clicks).
  - rewrite fold_left_app, repeated_Next by lia.
    rewrite repeated_Previous by lia. fold last_page. lia.
Qed.

(** ** The Altair component: mounting and unmounting *)

Section AltairLifecycleFacts.
Import Altair AltairLifecycle.

Lemma cleanup_clears (c : Component) :
  registered_once c ->
  listeners (cleanup c) = [] /\ current (cleanup c) = None /\
  world (cleanup c) = world c.
Proof.
  unfold registered_once, cleanup. intros H.
  destruct (current c) as [f|] eqn:E; cbn.
  - rewrite H. cbn. rewrite Nat.eqb_refl. cbn. now repeat split.
  - now repeat split.
Qed.

Lemma registered_once_step (c : Component) (e : Event) :
  registered_once c -> registered_once (step c e).
Proof.
  intros H. destruct (cleanup_clears c H) as (Hl & Hc & _).
  destruct e; cbn [step]; unfold registered_once.
  - cbn. unfold client_on. now rewrite Hl.
  - now rewrite Hl, Hc.
  - exact H.
  - exact H.
Qed.

Lemma registered_once_run (es : list Event) (c : Component) :
  registered_once c -> registered_once (run es c).
Proof.
  revert c. induction es as [|e es IH]; intros c H; [exact H|].
  apply IH, registered_once_step, H.
Qed.

Lemma emit_to_listeners (tc : ToolCall) (ls : list nat) (w : World) :
  let w' := fold_left (fun w _ => onToolCall tc w) ls w in
  now w' = now w /\ sent w' = sent w /\
  (forall tm, In tm (timers w) -> In tm (timers w')) /\
  (all_waiting w -> all_waiting w').
Proof.
  revert w. induction ls as [|f ls IH]; intros w; cbn [fold_left].
  - repeat split; auto.
  - destruct (IH (onToolCall tc w)) as (Hn & Hs & Ht & Ha).
    rewrite Hn, Hs, onToolCall_now, onToolCall_sent.
    repeat split.
    + intros tm Htm. apply Ht. rewrite onToolCall_timers.
      apply in_or_app. now left.
    + intros Hw. apply Ha. exact (all_waiting_step w (Toolcall tc) Hw).
Qed.

Lemma all_waiting_lifecycle_step (c : Component) (e : Event) :
  all_waiting (world c) -> all_waiting (world (step c e)).
Proof.
  intros H. destruct e; cbn [step world].
  - unfold cleanup. now destruct (current c).
  - unfold cleanup. now destruct (current c).
  - now apply emit_to_listeners.
  - exact (all_waiting_step (world c) (Elapse ms) H).
Qed.

Lemma all_waiting_lifecycle_run (es : list Event) (c : Component) :
  all_waiting (world c) -> all_waiting (world (run es c)).
Proof.
  revert c. induction es as [|e es IH]; intros c H; [exact H|].
  apply IH, all_waiting_lifecycle_step, H.
Qed.

Lemma sent_grows_step (c : Component) (e : Event) (m : ToolResponse) :
  In m (sent (world c)) -> In m (sent (world (step c e))).
Proof.
  intros H. destruct e; cbn [step world].
  - unfold cleanup. now destruct (current c).
  - unfold cleanup. now destruct (current c).
  - destruct (emit_to_listeners toolCall (listeners c) (world c))
      as (_ & Hs & _). cbv zeta in Hs. now rewrite Hs.
  - rewrite elapse_sent. apply in_or_app. now left.
Qed.

Lemma sent_grows_run (es : list Event) (c : Component) (m : ToolResponse) :
  In m (sent (world c)) -> In m (sent (world (run es c))).
Proof.
  revert c. induction es as [|e es IH]; intros c H; [exact H|].
  apply IH, sent_grows_step, H.
Qed.

(** A pending callback fires once its time has come, whatever happens to
    the component in between. *)
Lemma pending_callback_fires (es : list Event) (c : Component) (tm : Timer) :
  all_waiting (world c) ->
  In tm (timers (world c)) ->
  due tm <= now (world c) + passed es ->
  In (response_to tm) (sent (world (run es c))).
Proof.
  revert c. induction es as [|e es IH]; intros c Hw Htm Hdue.
  - cbn in Hdue. specialize (Hw tm Htm). lia.
  - change (run (e :: es) c) with (run es (step c e)).
    pose proof (all_waiting_lifecycle_step c e Hw) as Hw'.
    destruct e as [ | | tc | ms]; cbn [passed] in Hdue.
    + apply IH; [exact Hw' | | ];
        cbn [step world]; unfold cleanup; now destruct (current c).
    + apply IH; [exact Hw' | | ];
        cbn [step world]; unfold cleanup; now destruct (current c).
    + destruct (emit_to_listeners tc (listeners c) (world c))
        as (Hn & _ & Ht & _). cbv zeta in Hn, Ht.
      apply IH; [exact Hw' | cbn [step world]; now apply Ht |].
      cbn [step world]. now rewrite Hn.
    + destruct (Z.le_gt_cases (due tm) (now (world c) + Z.of_N ms))
        as [Hready|Hlater].
      * apply sent_grows_run. cbn [step world]. rewrite elapse_sent.
        apply in_or_app. right. apply in_map, filter_In.
        split; [exact Htm | now apply Z.leb_le].
      * apply IH; [exact Hw' | |]; cbn [step world].
        -- rewrite elapse_timers. apply filter_In.
           split; [exact Htm | now apply Z.ltb_lt].
        -- rewrite elapse_now. lia.
Qed.

End AltairLifecycleFacts.

(** X19: the component never has more than one listener registered.
    However often the effect runs again and the component unmounts, the
    client holds exactly the closure of the live effect and nothing after
    the cleanup; so an emitted batch is handled once while the effect is
    live and not at all otherwise. *)
Theorem one_listener_while_mounted (es : list AltairLifecycle.Event) :
  let c := AltairLifecycle.run es AltairLifecycle.unmounted in
  AltairLifecycle.listeners c =
    match AltairLifecycle.current c with Some f => [f] | None => [] end /\
  forall tc,
    AltairLifecycle.world (AltairLifecycle.step c (AltairLifecycle.Emits tc)) =
    match AltairLifecycle.current c with
    | Some _ => Altair.onToolCall tc (AltairLifecycle.world c)
    | None => AltairLifecycle.world c
    end.
Proof.
  intros c.
  assert (H : AltairLifecycle.registered_once c)
    by (apply registered_once_run; reflexivity).
  split; [exact H|].
  intros tc. cbn [AltairLifecycle.step AltairLifecycle.world].
  rewrite H. now destruct (AltairLifecycle.current c).
Qed.

(** X20: unmounting does not cancel a response.  The cleanup removes the
    listener but leaves the timeout: a non-empty batch emitted while the
    effect is live has its ToolResponse sent once 200 ms have passed,
    whatever happens in between, unmounting included. *)
Theorem response_is_sent_after_unmount
  (es after : list AltairLifecycle.Event) (tc : Altair.ToolCall) :
  AltairLifecycle.current
    (AltairLifecycle.run es AltairLifecycle.unmounted) <> None ->
  Altair.functionCalls tc <> [] ->
  200 <= AltairLifecycle.passed after ->
  In (Altair.answer tc)
     (Altair.sent
        (AltairLifecycle.world
           (AltairLifecycle.run (es ++ AltairLifecycle.Emits tc :: after)
                                AltairLifecycle.unmounted))).
Proof.
  intros Hlive Hne Hlate.
  unfold AltairLifecycle.run. rewrite fold_left_app. cbn [fold_left].
  fold (AltairLifecycle.run es AltairLifecycle.unmounted).
  set (c := AltairLifecycle.run es AltairLifecycle.unmounted) in *.
  assert (Hreg : AltairLifecycle.registered_once c)
    by (apply registered_once_run; reflexivity).
  assert (Hw : Altair.all_waiting (AltairLifecycle.world c))
    by (apply all_waiting_lifecycle_run, all_waiting_initial).
  destruct (AltairLifecycle.current c) as [f|] eqn:Ecur; [|congruence].
  set (c1 := AltairLifecycle.step c (AltairLifecycle.Emits tc)).
  assert (Hworld : AltairLifecycle.world c1 =
                   Altair.onToolCall tc (AltairLifecycle.world c)).
  { unfold c1. cbn [AltairLifecycle.step AltairLifecycle.world].
    unfold AltairLifecycle.registered_once in Hreg.
    rewrite Hreg, Ecur. reflexivity. }
  change (Altair.answer tc)
    with (Altair.response_to
            {| Altair.due := Altair.now (AltairLifecycle.world c) + 200;
               Altair.captured := tc |}).
  apply (pending_callback_fires after c1).
  - apply all_waiting_lifecycle_step, Hw.
  - rewrite Hworld, onToolCall_timers. apply in_or_app. right.
    unfold Altair.scheduled_by.
    destruct (Altair.functionCalls tc); [congruence | now left].
  - rewrite Hworld, onToolCall_now. cbn [Altair.due]. lia.
Qed.

Lemma response_is_sent_after_unmount_witness :
  let chart := {| Altair.functionCalls := [chart_call] |} in
  let w :=
    AltairLifecycle.world
      (AltairLifecycle.run
         ([AltairLifecycle.EffectRuns] ++
          AltairLifecycle.Emits chart ::
          [AltairLifecycle.Unmounts;
           AltairLifecycle.Emits
             {| Altair.functionCalls := [unregistered_call] |};
           AltairLifecycle.Passes 200])
         AltairLifecycle.unmounted) in
  In (Altair.answer chart) (Altair.sent w) /\
  Altair.sent w = [Altair.answer chart].
Proof.
  intros chart w. split; [|reflexivity].
  exact (response_is_sent_after_unmount
           [AltairLifecycle.EffectRuns]
           [AltairLifecycle.Unmounts;
            AltairLifecycle.Emits
              {| Altair.functionCalls := [unregistered_call] |};
            AltairLifecycle.Passes 200]
           chart ltac:(discriminate) ltac:(discriminate) ltac:(cbn; lia)).
Defined.
